(** * LICO: the BMP preprocessing stage and the zero-elimination codec

    A shallow embedding of [h_BMP_BIT], [h_iBMP_BIT] (h_BMP_BIT.h) and of
    [h_ZEencode], [h_ZEdecode] (zero elimination), with the properties the
    specification states about them.

    Conventions of the embedding
    - [int32_t] values are integers in [[-2^31, 2^31)]; every arithmetic
      operation of the source is followed by [i32], the two's-complement
      wrap-around.
    - [byte] is an unsigned 8-bit value, [uint64_t] an unsigned 64-bit one.
    - an array is a [list Z] read with [rd] and written with [wr] at an
      integer index.  C++ gives no meaning to an access outside the array;
      the embedding reads 0 and drops the write there.
    - the [uint64_t] scratch array of the BMP stage is viewed through a
      [byte*]; the embedding keeps it as bytes, eight per word, least
      significant byte first (the layout of the machines LICO runs on). *)

From Stdlib Require Import ZArith Lia List Bool.
From stdpp Require Import base list.

Local Open Scope Z_scope.

(** ** Machine integers *)

Module Int.

(** [int32_t]: wrap to the signed 32-bit range. *)
Definition i32 (x : Z) : Z := (x + 2 ^ 31) mod 2 ^ 32 - 2 ^ 31.

(** Conversion to [byte] (unsigned char): keep the low eight bits. *)
Definition u8 (x : Z) : Z := x mod 2 ^ 8.

(** Conversion to [uint64_t]. *)
Definition u64 (x : Z) : Z := x mod 2 ^ 64.

Definition add (a b : Z) : Z := i32 (a + b).
Definition sub (a b : Z) : Z := i32 (a - b).
Definition mul (a b : Z) : Z := i32 (a * b).

(** [a << n] on [int32_t]. *)
Definition shl (a n : Z) : Z := i32 (Z.shiftl a n).

(** [a >> n] on [int32_t]: arithmetic shift. *)
Definition shr (a n : Z) : Z := Z.shiftr a n.

(** [a / b] and [a % b] on [int32_t] truncate towards zero. *)
Definition div (a b : Z) : Z := i32 (Z.quot a b).
Definition rem (a b : Z) : Z := Z.rem a b.

Definition in_range (x : Z) : Prop := - 2 ^ 31 <= x < 2 ^ 31.

End Int.

Import Int.

Infix "+!" := Int.add (at level 50, left associativity).
Infix "-!" := Int.sub (at level 50, left associativity).
Infix "*!" := Int.mul (at level 40, left associativity).

(** ** Arrays *)

Definition rd (a : list Z) (i : Z) : Z :=
  if i <? 0 then 0 else default 0 (a !! Z.to_nat i).

Definition wr (a : list Z) (i v : Z) : list Z :=
  if i <? 0 then a else <[Z.to_nat i := v]> a.

(** The values [from, from+1, ..., to-1] of a [for] loop counter. *)
Definition range (from to : Z) : list Z := seqZ from (to - from).

(** ** TCMS: two's-complement magnitude-sign folding (h_BMP_BIT.h) *)

(** [((v << 1) ^ ((v << 24) >> 31)) & 0xff] *)
Definition TCMS (v : Z) : Z :=
  Z.land (Z.lxor (shl v 1) (shr (shl v 24) 31)) 255.

(** [(v >> 1) ^ ((v << 31) >> 31)] *)
Definition iTCMS (v : Z) : Z :=
  Z.lxor (shr v 1) (shr (shl v 31) 31).

(** ** The 8x8 bit-matrix butterfly (h_BMP_BIT.h, BIT_1 and iBIT_1) *)

(** One layer: [t = (x ^ (x >> s)) & m; x = x ^ t ^ (t << s)]. *)
Definition layer (s m x : Z) : Z :=
  let t := Z.land (Z.lxor x (Z.shiftr x s)) m in
  Z.lxor (Z.lxor x t) (u64 (Z.shiftl t s)).

Definition butterfly (x : Z) : Z :=
  let x := layer 7 0x00AA00AA00AA00AA x in
  let x := layer 14 0x0000CCCC0000CCCC x in
  let x := layer 28 0x00000000F0F0F0F0 x in
  x.

(** Byte [i] of a 64-bit word: [(byte)(x >> (i * 8))]. *)
Definition byte_of (x i : Z) : Z := u8 (Z.shiftr x (i * 8)).

Definition is_u64 (x : Z) : Prop := 0 <= x < 2 ^ 64.

(** What one layer does to the bits of a word, the word being given by its
    bit function [f]: a bit selected by the mask is exchanged with the bit
    [s] places above it. *)
Definition layer_bits (s m : Z) (f : Z → bool) (n : Z) : bool :=
  if (0 <=? n) && (n <? 64) then
    if Z.testbit m n then
      if Z.testbit m (n - s) then xorb (f (n + s)) (xorb (f (n - s)) (f n))
      else f (n + s)
    else if Z.testbit m (n - s) then f (n - s) else f n
  else false.


(** ** Control flow of a C loop body *)

(** What an iteration ends with: it falls through to the next one, leaves
    the loop ([break]) or leaves the function ([return]). *)
Inductive flow (S : Type) : Type :=
  | Next (s : S)
  | Break (s : S)
  | Return (s : S).
Arguments Next {S} s.
Arguments Break {S} s.
Arguments Return {S} s.

(** [for (j = ...; ...; j++) body] over the counter values [js].  The result
    is [Next] when control reaches the statement after the loop and
    [Return] when the body left the function. *)
Fixpoint for_loop {S : Type} (body : S → Z → flow S) (js : list Z) (s : S)
  : flow S :=
  match js with
  | [] => Next s
  | j :: js' =>
      match body s j with
      | Next s' => for_loop body js' s'
      | Break s' => Next s'
      | Return s' => Return s'
      end
  end.

(** ** Zero elimination (h_ZEencode, h_ZEdecode) *)

Module ZE.

(** The variables of [h_ZEencode]: the write position in the dense stream,
    the read position in the input, the bitmap word under construction and
    the two output arrays.  [e_bmlog] is not a variable of the source: it
    records, in order, the indices at which [bmout] has been written. *)
Record enc_state : Type := EncState {
  e_pos : Z;
  e_cnt : Z;
  e_bm : Z;
  e_dataout : list Z;
  e_bmout : list Z;
  e_bmlog : list Z
}.

(** The variables of [h_ZEdecode]; [d_bmlog] records, in order, the indices
    at which [bmin] has been read. *)
Record dec_state : Type := DecState {
  d_pos : Z;
  d_cnt : Z;
  d_out : list Z;
  d_bmlog : list Z
}.

Section Word.

(** [bits = sizeof(T) * 8] for the unsigned word type [T]. *)
Variable bits : Z.

(** Conversion to [T]. *)
Definition toT (x : Z) : Z := x mod 2 ^ bits.

Section Encode.

Variable check : bool.
Variable inp : list Z.
Variable insize : Z.
Variable datasize : Z.

(** [const T val = in[cnt++]; if (val != 0) { if constexpr (check) { if
    (pos >= datasize) return false; } bm |= (T)1 << j; dataout[pos++] =
    val; }] *)
Definition enc_word (st : enc_state) (j : Z) : flow enc_state :=
  let val := rd inp (e_cnt st) in
  let st := EncState (e_pos st) (e_cnt st +! 1) (e_bm st)
                     (e_dataout st) (e_bmout st) (e_bmlog st) in
  if val =? 0 then Next st
  else if check && (datasize <=? e_pos st) then Return st
  else Next (EncState (e_pos st +! 1) (e_cnt st)
                      (toT (Z.lor (e_bm st) (Z.shiftl 1 j)))
                      (wr (e_dataout st) (e_pos st) val) (e_bmout st)
                      (e_bmlog st)).

(** The body of the last group starts with [if (cnt >= insize) break;]. *)
Definition enc_word_last (st : enc_state) (j : Z) : flow enc_state :=
  if insize <=? e_cnt st then Break st else enc_word st j.

(** [T bm = 0; for (j ...) {...} bmout[i] = bm;] *)
Definition enc_group (body : enc_state → Z → flow enc_state)
    (st : enc_state) (i : Z) : flow enc_state :=
  let st := EncState (e_pos st) (e_cnt st) 0 (e_dataout st) (e_bmout st)
                     (e_bmlog st) in
  match for_loop body (range 0 bits) st with
  | Next st =>
      Next (EncState (e_pos st) (e_cnt st) (e_bm st) (e_dataout st)
                     (wr (e_bmout st) i (e_bm st)) (e_bmlog st ++ [i]))
  | Break st => Break st
  | Return st => Return st
  end.

(** The state of [h_ZEencode] when it returns, and whether it returns
    normally ([Next]) or by [return false] ([Return]). *)
Definition encode_run (dataout bmout : list Z) : flow enc_state :=
  let num := Int.div (insize +! bits -! 1) bits in
  match for_loop (enc_group enc_word) (range 0 (num -! 1))
                 (EncState 0 0 0 dataout bmout []) with
  | Next st => enc_group enc_word_last st (num -! 1)
  | Break st => Break st
  | Return st => Return st
  end.

(** [h_ZEencode<T, check>(in, insize, dataout, datasize, bmout)]: the
    returned flag, [dataout], [datasize] and [bmout] on return. *)
Definition h_ZEencode (dataout bmout : list Z)
  : bool * list Z * Z * list Z :=
  match encode_run dataout bmout with
  | Next st => (true, e_dataout st, e_pos st, e_bmout st)
  | Break st | Return st => (false, e_dataout st, datasize, e_bmout st)
  end.

End Encode.

Section Decode.

Variable decsize : Z.
Variable datain : list Z.
Variable bmin : list Z.

(** [T val = 0; if (((bm >> j) & 1) != 0) { val = datain[pos++]; }
    out[cnt++] = val;] *)
Definition dec_word (bm : Z) (st : dec_state) (j : Z) : dec_state :=
  if Z.land (Z.shiftr bm j) 1 =? 0
  then DecState (d_pos st) (d_cnt st +! 1) (wr (d_out st) (d_cnt st) 0)
                (d_bmlog st)
  else DecState (d_pos st +! 1) (d_cnt st +! 1)
                (wr (d_out st) (d_cnt st) (rd datain (d_pos st)))
                (d_bmlog st).

Definition dec_body (bm : Z) (st : dec_state) (j : Z) : flow dec_state :=
  Next (dec_word bm st j).

(** The body of the last group ends with [if (cnt >= decsize) break;]. *)
Definition dec_body_last (bm : Z) (st : dec_state) (j : Z) : flow dec_state :=
  let st := dec_word bm st j in
  if decsize <=? d_cnt st then Break st else Next st.

(** [const T bm = bmin[i]; for (j ...) {...}] *)
Definition dec_group (body : Z → dec_state → Z → flow dec_state)
    (st : dec_state) (i : Z) : flow dec_state :=
  let st := DecState (d_pos st) (d_cnt st) (d_out st) (d_bmlog st ++ [i]) in
  for_loop (body (rd bmin i)) (range 0 bits) st.

(** The state of [h_ZEdecode] when it returns: [d_out] is the output array
    and [d_cnt] the number of words it has produced. *)
Definition decode_run (out : list Z) : dec_state :=
  let num := Int.div (decsize +! bits -! 1) bits in
  match for_loop (dec_group dec_body) (range 0 (num -! 1))
                 (DecState 0 0 out []) with
  | Next st | Break st | Return st =>
      match dec_group dec_body_last st (num -! 1) with
      | Next st | Break st | Return st => st
      end
  end.

(** [h_ZEdecode<T>(decsize, datain, bmin, out)]: [out] on return. *)
Definition h_ZEdecode (out : list Z) : list Z := d_out (decode_run out).

End Decode.

End Word.

(** The dense stream and the number of zero words, as the specification
    describes them. *)
Definition nonzero (v : Z) : bool := negb (v =? 0).
Definition dense (l : list Z) : list Z := List.filter nonzero l.
Definition zeros (l : list Z) : Z :=
  Z.of_nat (length (List.filter (λ v, v =? 0) l)).

(** *** Loop invariants of the two functions, for an input [inp] *)

(** [h_ZEencode] before word [j] of group [i]: [dataout0] and [bmout0] are
    the output arrays as the caller passed them. *)
Definition enc_inv (bits : Z) (inp dataout0 bmout0 : list Z) (i j : Z)
    (st : enc_state) : Prop :=
  e_cnt st = i * bits + j ∧
  0 <= e_cnt st <= Z.of_nat (length inp) ∧
  e_pos st = Z.of_nat (length (dense (take (Z.to_nat (e_cnt st)) inp))) ∧
  take (Z.to_nat (e_pos st)) (e_dataout st)
    = dense (take (Z.to_nat (e_cnt st)) inp) ∧
  length (e_dataout st) = length dataout0 ∧
  length (e_bmout st) = length bmout0 ∧
  (∀ k, 0 <= k →
     Z.testbit (e_bm st) k = (k <? j) && nonzero (rd inp (i * bits + k))) ∧
  (∀ i' k, 0 <= i' < i → 0 <= k < bits →
     Z.testbit (rd (e_bmout st) i') k = nonzero (rd inp (i' * bits + k))) ∧
  e_bmlog st = range 0 i.

(** The state with which a group starts: [T bm = 0]. *)
Definition reset (st : enc_state) : enc_state :=
  EncState (e_pos st) (e_cnt st) 0 (e_dataout st) (e_bmout st) (e_bmlog st).

(** [h_ZEdecode] before word [j] of group [i], [l] reads of the bitmap
    having been made; [out0] is the output array as the caller passed it. *)
Definition dec_inv (bits : Z) (inp out0 : list Z) (l i j : Z)
    (st : dec_state) : Prop :=
  d_cnt st = i * bits + j ∧
  0 <= d_cnt st <= Z.of_nat (length inp) ∧
  d_pos st = Z.of_nat (length (dense (take (Z.to_nat (d_cnt st)) inp))) ∧
  take (Z.to_nat (d_cnt st)) (d_out st) = take (Z.to_nat (d_cnt st)) inp ∧
  length (d_out st) = length out0 ∧
  d_bmlog st = range 0 l.

End ZE.

(** The size of the encoded form in words: the dense words [h_ZEencode]
    reports in [datasize] plus the bitmap words, one per group. *)
Definition ZE_encoded_size (bits : Z) (check : bool) (inp : list Z)
    (datasize : Z) (dataout bmout : list Z) : Z :=
  let insize := Z.of_nat (length inp) in
  let '(_, _, n, _) := ZE.h_ZEencode bits check inp insize datasize dataout bmout in
  n + Int.div (insize +! bits -! 1) bits.

(** ** The BMP stage (h_BMP_BIT.h) *)

(** *** Little-endian helpers.  [data] is the array and [o] the offset the
    source passes as [&data[o]]. *)

(** [0 | (data[1] << 8) | data[0]] *)
Definition h_BMP_BIT_get2 (data : list Z) (o : Z) : Z :=
  Z.lor (Z.lor 0 (shl (rd data (o + 1)) 8)) (rd data o).

(** [(data[3] << 24) | (data[2] << 16) | (data[1] << 8) | data[0]] *)
Definition h_BMP_BIT_get4 (data : list Z) (o : Z) : Z :=
  Z.lor (Z.lor (Z.lor (shl (rd data (o + 3)) 24) (shl (rd data (o + 2)) 16))
               (shl (rd data (o + 1)) 8))
        (rd data o).

(** [data[0] = val; data[1] = val >> 8;] *)
Definition h_BMP_BIT_set2 (data : list Z) (o : Z) (val : Z) : list Z :=
  let data := wr data o (u8 val) in
  let data := wr data (o + 1) (u8 (shr val 8)) in
  data.

(** [data[0] = val; data[1] = val >> 8; data[2] = val >> 16; data[3] = val
    >> 24;] *)
Definition h_BMP_BIT_set4 (data : list Z) (o : Z) (val : Z) : list Z :=
  let data := wr data o (u8 val) in
  let data := wr data (o + 1) (u8 (shr val 8)) in
  let data := wr data (o + 2) (u8 (shr val 16)) in
  let data := wr data (o + 3) (u8 (shr val 24)) in
  data.

(** *** Geometry *)

(** [pad = ((w * 3 + 3) & ~3) - (w * 3)] *)
Definition row_pad (w : Z) : Z := Z.land (w *! 3 +! 3) (Z.lnot 3) -! w *! 3.

(** [width = w * 3 + pad] *)
Definition row_width (w : Z) : Z := w *! 3 +! row_pad w.

(** The row stride of the specification, in unbounded integers. *)
Definition row_stride (W : Z) : Z := Z.land (W * 3 + 3) (Z.lnot 3).

(** *** The scratch array.  [new uint64_t [n]] gives [n] words of
    unspecified content; [junk] is that content, byte by byte. *)
Definition new_uint64 (junk : Z → Z) (n : Z) : list Z :=
  (λ i, u8 (junk i)) <$> range 0 (8 * n).

(** [temp[g]] read through the byte view. *)
Definition ld64 (tmp : list Z) (g : Z) : Z :=
  foldl (λ x i, Z.lor x (Z.shiftl (rd tmp (8 * g + i)) (8 * i))) 0 (range 0 8).

(** [temp[g] = x] written through the byte view. *)
Definition st64 (tmp : list Z) (g x : Z) : list Z :=
  foldl (λ t i, wr t (8 * g + i) (byte_of x i)) tmp (range 0 8).

(** The pixel region [bmp = &data[54]] is kept as an array of its own
    between the split and the join below; [data] is not accessed in
    between. *)
Definition header (data : list Z) : list Z := take 54 data.
Definition pixels (data : list Z) : list Z := drop 54 data.

(** Three channel values: a predictor, or the pixel just read. *)
Record px : Type := Px { c0 : Z; c1 : Z; c2 : Z }.

(** *** Forward transform *)

Section Forward.

Variables w h width newsize : Z.

(** The test of the [if] that prints "not a supported BMP format". *)
Definition unsupported (size : Z) (data : list Z) : bool :=
  negb (rd data 0 =? 66)
  || negb (rd data 1 =? 77)
  || negb (h_BMP_BIT_get4 data 2 =? 54 +! h *! width)
  || negb (h_BMP_BIT_get4 data 10 =? 54)
  || negb (h_BMP_BIT_get4 data 14 =? 40)
  || negb (h_BMP_BIT_get2 data 26 =? 1)
  || negb (h_BMP_BIT_get2 data 28 =? 24)
  || negb (h_BMP_BIT_get4 data 30 =? 0)
  || negb (h_BMP_BIT_get4 data 34 =? h *! width)
  || negb (h_BMP_BIT_get4 data 46 =? 0)
  || negb (h_BMP_BIT_get4 data 50 =? 0)
  || negb (size =? 54 +! h *! width)
  || (w <? 1) || (h <? 1).

(** Lines 121-136: the header fields lose their expected values. *)
Definition neutralise (data : list Z) : list Z :=
  let data := wr data 0 (u8 (rd data 0 -! 66)) in
  let data := wr data 1 (u8 (rd data 1 -! 77)) in
  let data := h_BMP_BIT_set4 data 2 (h_BMP_BIT_get4 data 2 -! (h *! width +! 54)) in
  let data := h_BMP_BIT_set4 data 10 (h_BMP_BIT_get4 data 10 -! 54) in
  let data := h_BMP_BIT_set4 data 14 (h_BMP_BIT_get4 data 14 -! 40) in
  let data := h_BMP_BIT_set2 data 26 (h_BMP_BIT_get2 data 26 -! 1) in
  let data := h_BMP_BIT_set2 data 28 (h_BMP_BIT_get2 data 28 -! 24) in
  let data := h_BMP_BIT_set4 data 34 (h_BMP_BIT_get4 data 34 -! h *! width) in
  let data := h_BMP_BIT_set4 data 42
                (h_BMP_BIT_get4 data 42 -! h_BMP_BIT_get4 data 38) in
  data.

(** The body of the loop over [x]: row and channel differences, TCMS, and
    the transposed store into the three planes of [tmp]. *)
Definition encode_pixel (bmp : list Z) (y : Z) (st : px * list Z) (x : Z)
  : px * list Z :=
  let '(p, tmp) := st in
  let n0 := rd bmp (y *! width +! x *! 3 +! 0) in
  let n1 := rd bmp (y *! width +! x *! 3 +! 1) in
  let n2 := rd bmp (y *! width +! x *! 3 +! 2) in
  let v0 := n0 -! c0 p in
  let v1 := n1 -! c1 p in
  let v2 := n2 -! c2 p in
  let p := Px n0 n1 n2 in
  let v0 := v0 -! v1 in
  let v2 := v2 -! v1 in
  let v0 := TCMS v0 in
  let v1 := TCMS v1 in
  let v2 := TCMS v2 in
  let tmp := wr tmp (0 *! newsize +! y +! x *! h) (u8 v0) in
  let tmp := wr tmp (1 *! newsize +! y +! x *! h) (u8 v1) in
  let tmp := wr tmp (2 *! newsize +! y +! x *! h) (u8 v2) in
  (p, tmp).

(** The body of the loop over [y]. *)
Definition encode_row (bmp : list Z) (tmp : list Z) (y : Z) : list Z :=
  let p :=
    if 0 <? y
    then Px (rd bmp ((y -! 1) *! width +! 0))
            (rd bmp ((y -! 1) *! width +! 1))
            (rd bmp ((y -! 1) *! width +! 2))
    else Px 0 0 0 in
  snd (foldl (encode_pixel bmp y) (p, tmp) (range 0 w)).

(** The loop marked "encode".  Its iterations write disjoint places of
    [tmp] and read [bmp] only, so the order in which the parallel loop runs
    them does not matter; the embedding runs them in order. *)
Definition encode_rows (bmp tmp : list Z) : list Z :=
  foldl (encode_row bmp) tmp (range 0 h).

End Forward.

(** The counter values of [for (pos = 0; pos < esize; pos += 8)]. *)
Definition steps8 (esize : Z) : list Z :=
  (λ g, 8 * g) <$> range 0 ((esize + 7) / 8).

(** The body of the loop "BIT_1". *)
Definition transpose_group (esize : Z) (tmp : list Z) (bmp : list Z) (pos : Z)
  : list Z :=
  let x := ld64 tmp (Int.div pos 8) in
  let x := butterfly x in
  foldl (λ bmp i, wr bmp (Int.div pos 8 +! i *! Int.div esize 8) (byte_of x i))
        bmp (range 0 8).

(** "copy leftover bytes" *)
Definition copy_leftover (csize extra : Z) (from to : list Z) : list Z :=
  foldl (λ to i, wr to (csize -! extra +! i) (rd from (csize -! extra +! i)))
        to (range 0 extra).

(** Lines 138-188: the scratch array [tmp] after the loop "encode". *)
Definition forward_scratch (junk : Z → Z) (w h width : Z) (bmp : list Z)
  : list Z :=
  let newsize := w *! h *! 1 in
  let tmp := new_uint64 junk (Int.div (newsize *! 3 +! 7) 8) in
  encode_rows w h width newsize bmp tmp.

(** Lines 138-217: the pixel region after the forward transform. *)
Definition forward_pixels (junk : Z → Z) (w h width : Z) (bmp : list Z)
  : list Z :=
  let newsize := w *! h *! 1 in
  let tmp := forward_scratch junk w h width bmp in
  let csize := newsize *! 3 in
  let extra := Int.rem csize 8 in
  let esize := csize -! extra in
  let bmp := foldl (transpose_group esize tmp) bmp (steps8 esize) in
  let bmp := copy_leftover csize extra tmp bmp in
  let bmp := foldl (λ bmp i, wr bmp i 0) bmp (range (newsize *! 3) (width *! h)) in
  bmp.

(** [h_BMP_BIT(size, data)]: [size] and [data] on return. *)
Definition h_BMP_BIT (junk : Z → Z) (size : Z) (data : list Z) : Z * list Z :=
  if size <? 54 then (size, data)
  else
    let w := h_BMP_BIT_get4 data 18 in
    let h := h_BMP_BIT_get4 data 22 in
    let width := row_width w in
    if unsupported w h width size data then (size, data)
    else
      let data := neutralise h width data in
      (size, header data ++ forward_pixels junk w h width (pixels data)).

(** *** Inverse transform *)

Section Inverse.

Variables w h width newsize : Z.

(** The test of the [if] that prints "not a supported BMP format" in
    [h_iBMP_BIT]. *)
Definition unsupported_inv (data : list Z) : bool :=
  negb (rd data 0 =? 0)
  || negb (rd data 1 =? 0)
  || negb (h_BMP_BIT_get4 data 2 =? 0)
  || negb (h_BMP_BIT_get4 data 10 =? 0)
  || negb (h_BMP_BIT_get4 data 14 =? 0)
  || negb (h_BMP_BIT_get2 data 26 =? 0)
  || negb (h_BMP_BIT_get2 data 28 =? 0)
  || negb (h_BMP_BIT_get4 data 30 =? 0)
  || negb (h_BMP_BIT_get4 data 34 =? 0)
  || negb (h_BMP_BIT_get4 data 46 =? 0)
  || negb (h_BMP_BIT_get4 data 50 =? 0)
  || (w <? 1) || (h <? 1).

(** Lines 239-254: the header fields get their expected values back. *)
Definition restore (data : list Z) : list Z :=
  let data := wr data 0 (u8 (rd data 0 +! 66)) in
  let data := wr data 1 (u8 (rd data 1 +! 77)) in
  let data := h_BMP_BIT_set4 data 2 (h_BMP_BIT_get4 data 2 +! (h *! width +! 54)) in
  let data := h_BMP_BIT_set4 data 10 (h_BMP_BIT_get4 data 10 +! 54) in
  let data := h_BMP_BIT_set4 data 14 (h_BMP_BIT_get4 data 14 +! 40) in
  let data := h_BMP_BIT_set2 data 26 (h_BMP_BIT_get2 data 26 +! 1) in
  let data := h_BMP_BIT_set2 data 28 (h_BMP_BIT_get2 data 28 +! 24) in
  let data := h_BMP_BIT_set4 data 34 (h_BMP_BIT_get4 data 34 +! h *! width) in
  let data := h_BMP_BIT_set4 data 42
                (h_BMP_BIT_get4 data 42 +! h_BMP_BIT_get4 data 38) in
  data.

(** Inverse TCMS, inverse channel difference and inverse pixel difference
    of the three residuals read from the planes of [tmp], plane [k] at index
    [idx k]; [prev] is the predictor.  The result is both the new predictor
    and, converted to bytes, the decoded pixel. *)
Definition decode_values (tmp : list Z) (idx : Z → Z) (prev : px) : px :=
  let v0 := rd tmp (idx 0) in
  let v1 := rd tmp (idx 1) in
  let v2 := rd tmp (idx 2) in
  let v0 := iTCMS v0 in
  let v1 := iTCMS v1 in
  let v2 := iTCMS v2 in
  let v0 := v0 +! v1 in
  let v2 := v2 +! v1 in
  let v0 := v0 +! c0 prev in
  let v1 := v1 +! c1 prev in
  let v2 := v2 +! c2 prev in
  Px v0 v1 v2.

(** [bmp[o + 0] = prev0 = v0; bmp[o + 1] = prev1 = v1; bmp[o + 2] = prev2 =
    v2;] *)
Definition store_pixel (bmp : list Z) (o : Z) (v : px) : list Z :=
  let bmp := wr bmp (o +! 0) (u8 (c0 v)) in
  let bmp := wr bmp (o +! 1) (u8 (c1 v)) in
  let bmp := wr bmp (o +! 2) (u8 (c2 v)) in
  bmp.

(** The body of the first loop of "decode": column 0 of row [y], predicted
    from column 0 of the row before. *)
Definition decode_first (tmp : list Z) (st : px * list Z) (y : Z)
  : px * list Z :=
  let '(prev, bmp) := st in
  let v := decode_values tmp (λ k, k *! newsize +! y) prev in
  (v, store_pixel bmp (y *! width) v).

(** The body of the loop over [x] of the second loop. *)
Definition decode_pixel (tmp : list Z) (y : Z) (st : px * list Z) (x : Z)
  : px * list Z :=
  let '(prev, bmp) := st in
  let v := decode_values tmp (λ k, k *! newsize +! y +! x *! h) prev in
  (v, store_pixel bmp (y *! width +! x *! 3) v).

(** The body of the second loop: the rest of row [y], left to right. *)
Definition decode_row (tmp : list Z) (bmp : list Z) (y : Z) : list Z :=
  let prev := Px (rd bmp (y *! width +! 0))
                 (rd bmp (y *! width +! 1))
                 (rd bmp (y *! width +! 2)) in
  snd (foldl (decode_pixel tmp y) (prev, bmp) (range 1 w)).

(** "set padding bytes (if any) to zero" *)
Definition zero_padding (pad : Z) (bmp : list Z) : list Z :=
  if 0 <? pad then
    foldl (λ bmp y,
             foldl (λ bmp x, wr bmp (y *! width +! x) 0) bmp
                   (range (w *! 3) width))
          bmp (range 0 h)
  else bmp.

End Inverse.

(** The body of the loop "iBIT_1". *)
Definition untranspose_group (esize : Z) (bmp : list Z) (tmp : list Z) (pos : Z)
  : list Z :=
  let x :=
    foldl (λ x i,
             Z.lor x (u64 (Z.shiftl (rd bmp (Int.div pos 8 +! i *! Int.div esize 8))
                                    (i * 8))))
          0 (range 0 8) in
  let x := butterfly x in
  st64 tmp (Int.div pos 8) x.

(** Lines 256-350: the pixel region after the inverse transform. *)
Definition inverse_pixels (junk : Z → Z) (w h pad width : Z) (bmp : list Z)
  : list Z :=
  let newsize := w *! h *! 1 in
  let tmp := new_uint64 junk (Int.div (newsize *! 3 +! 7) 8) in
  let csize := newsize *! 3 in
  let extra := Int.rem csize (Int.div (8 *! 8) 8) in
  let esize := csize -! extra in
  let tmp := foldl (untranspose_group esize bmp) tmp (steps8 esize) in
  let tmp := copy_leftover csize extra bmp tmp in
  let bmp := snd (foldl (decode_first width newsize tmp) (Px 0 0 0, bmp)
                        (range 0 h)) in
  let bmp := foldl (decode_row w h width newsize tmp) bmp (range 0 h) in
  let bmp := zero_padding w h width pad bmp in
  bmp.

(** [h_iBMP_BIT(size, data)]: [size] and [data] on return. *)
Definition h_iBMP_BIT (junk : Z → Z) (size : Z) (data : list Z) : Z * list Z :=
  if size <? 54 then (size, data)
  else
    let w := h_BMP_BIT_get4 data 18 in
    let h := h_BMP_BIT_get4 data 22 in
    let pad := row_pad w in
    let width := row_width w in
    if unsupported_inv w h data then (size, data)
    else
      let data := restore h width data in
      (size, header data ++ inverse_pixels junk w h pad width (pixels data)).

(** *** What the theorems assume of a buffer *)

(** Every element is a byte. *)
Definition is_bytes (data : list Z) : Prop := Forall (λ b, 0 <= b < 256) data.

(** The forward validator lets the buffer through. *)
Definition accepted (size : Z) (data : list Z) : bool :=
  negb (size <? 54)
  && negb (unsupported (h_BMP_BIT_get4 data 18) (h_BMP_BIT_get4 data 22)
             (row_width (h_BMP_BIT_get4 data 18)) size data).

(** [size] is the length of the buffer, and the buffer holds the header and
    [H] rows of [row_stride W] bytes, [W] and [H] being its width and
    height fields: the sizes the validator compares are the true ones, not
    their residues modulo [2^32]. *)
Definition holds_image (size : Z) (data : list Z) : Prop :=
  size = Z.of_nat (length data)
  ∧ size = 54 + h_BMP_BIT_get4 data 22 * row_stride (h_BMP_BIT_get4 data 18).

(** The raw pixel region: channel [c] of the pixel at row [y], column [x],
    and the padding bytes of the rows. *)
Definition raw (data : list Z) (y x c : Z) : Z :=
  rd data (54 + y * row_stride (h_BMP_BIT_get4 data 18) + x * 3 + c).

Definition padding_zero (data : list Z) : Prop :=
  let W := h_BMP_BIT_get4 data 18 in
  let H := h_BMP_BIT_get4 data 22 in
  ∀ y x, 0 <= y < H → W * 3 <= x < row_stride W →
         rd data (54 + y * row_stride W + x) = 0.


(** A 1x1 image, 58 bytes, with the given reserved field, pixel and padding
    byte; resolution 2835 x 2835. *)
Definition bmp_1x1 (reserved b g r padding : Z) : list Z :=
  [66; 77;  58; 0; 0; 0;  reserved; 0; 0; 0;  54; 0; 0; 0;
   40; 0; 0; 0;  1; 0; 0; 0;  1; 0; 0; 0;  1; 0;  24; 0;  0; 0; 0; 0;
   4; 0; 0; 0;  19; 11; 0; 0;  19; 11; 0; 0;  0; 0; 0; 0;  0; 0; 0; 0;
   b; g; r; padding].

(** A 3x2 image, 78 bytes: rows of 9 pixel bytes and 3 padding bytes, the
    padding zero. *)
Definition bmp_3x2 : list Z :=
  [66; 77;  78; 0; 0; 0;  0; 0; 0; 0;  54; 0; 0; 0;
   40; 0; 0; 0;  3; 0; 0; 0;  2; 0; 0; 0;  1; 0;  24; 0;  0; 0; 0; 0;
   24; 0; 0; 0;  19; 11; 0; 0;  19; 11; 0; 0;  0; 0; 0; 0;  0; 0; 0; 0;
   10; 20; 30;  12; 22; 33;  200; 100; 50;  0; 0; 0;
   11; 19; 31;  0; 255; 128;  255; 0; 7;  0; 0; 0].

(** What the forward validator has checked when it lets a buffer through. *)
Record checked (size : Z) (data : list Z) : Prop := Checked {
  ck_size : 54 <= size;
  ck_B : rd data 0 = 66;
  ck_M : rd data 1 = 77;
  ck_file_size :
    h_BMP_BIT_get4 data 2
    = 54 +! h_BMP_BIT_get4 data 22 *! row_width (h_BMP_BIT_get4 data 18);
  ck_offset : h_BMP_BIT_get4 data 10 = 54;
  ck_dib : h_BMP_BIT_get4 data 14 = 40;
  ck_planes : h_BMP_BIT_get2 data 26 = 1;
  ck_bpp : h_BMP_BIT_get2 data 28 = 24;
  ck_compression : h_BMP_BIT_get4 data 30 = 0;
  ck_image_size :
    h_BMP_BIT_get4 data 34
    = h_BMP_BIT_get4 data 22 *! row_width (h_BMP_BIT_get4 data 18);
  ck_colors : h_BMP_BIT_get4 data 46 = 0;
  ck_important : h_BMP_BIT_get4 data 50 = 0;
  ck_length :
    size = 54 +! h_BMP_BIT_get4 data 22 *! row_width (h_BMP_BIT_get4 data 18);
  ck_w : 1 <= h_BMP_BIT_get4 data 18;
  ck_h : 1 <= h_BMP_BIT_get4 data 22
}.

(** *** The residuals, as the specification describes them (section 4.C).
    [B y x c] is channel [c] of the raw pixel at row [y], column [x]. *)

(** The predictor of the pixel at row [y], column [x]: zero for the first
    pixel of the first row, the first pixel of the row before for the first
    pixel of another row, and the pixel to the left otherwise. *)
Definition predictor (B : Z → Z → Z → Z) (y x c : Z) : Z :=
  if x =? 0 then (if y =? 0 then 0 else B (y - 1) 0 c) else B y (x - 1) c.

(** The residual of channel [k]: the difference to the predictor, made
    relative to channel 1 for the channels 0 and 2, and folded by TCMS. *)
Definition residual (B : Z → Z → Z → Z) (y x k : Z) : Z :=
  let d c := B y x c - predictor B y x c in
  TCMS (if k =? 0 then d 0 - d 1 else if k =? 1 then d 1 else d 2 - d 1).

(** The 64-bit word with the bytes [f 0 .. f 7], least significant first. *)
Definition pack8 (f : Z → Z) : Z :=
  foldl (λ x i, Z.lor x (Z.shiftl (f i) (8 * i))) 0 (range 0 8).

(** *** Notions used to state the loop invariants *)

(** The element at offset [o] is a byte. *)
Definition byte_at (data : list Z) (o : Z) : Prop := 0 <= rd data o < 256.

(** What row [y] of the loop "encode" leaves in the scratch array: the
    value [v] at index [p]. *)
Definition scratch_row_writes (w h : Z) (B : Z → Z → Z → Z) (y p v : Z) : Prop :=
  ∃ x k, 0 <= x < w ∧ 0 <= k < 3
         ∧ p = k * (w * h) + y + x * h ∧ v = residual B y x k.

(** The predictor [prev] carried by the loops of "decode" agrees, as bytes,
    with the predictor of the pixel at row [y], column [x]. *)
Definition predictor_carried (B : Z → Z → Z → Z) (y x : Z) (prev : px) : Prop :=
  u8 (c0 prev) = predictor B y x 0
  ∧ u8 (c1 prev) = predictor B y x 1
  ∧ u8 (c2 prev) = predictor B y x 2.

(** ** Further notions, for the properties beyond the specification *)

(** The inverse validator lets the buffer through. *)
Definition accepted_inv (size : Z) (data : list Z) : bool :=
  negb (size <? 54)
  && negb (unsupported_inv (h_BMP_BIT_get4 data 18) (h_BMP_BIT_get4 data 22)
             data).

(** What the inverse validator has checked when it lets a buffer through:
    the neutral header fields, and a width and a height of at least 1.  It
    makes no test on [size] beyond the 54 bytes of the header. *)
Record checked_inv (size : Z) (data : list Z) : Prop := CheckedInv {
  ci_size : 54 <= size;
  ci_B : rd data 0 = 0;
  ci_M : rd data 1 = 0;
  ci_file_size : h_BMP_BIT_get4 data 2 = 0;
  ci_offset : h_BMP_BIT_get4 data 10 = 0;
  ci_dib : h_BMP_BIT_get4 data 14 = 0;
  ci_planes : h_BMP_BIT_get2 data 26 = 0;
  ci_bpp : h_BMP_BIT_get2 data 28 = 0;
  ci_compression : h_BMP_BIT_get4 data 30 = 0;
  ci_image_size : h_BMP_BIT_get4 data 34 = 0;
  ci_colors : h_BMP_BIT_get4 data 46 = 0;
  ci_important : h_BMP_BIT_get4 data 50 = 0;
  ci_w : 1 <= h_BMP_BIT_get4 data 18;
  ci_h : 1 <= h_BMP_BIT_get4 data 22
}.

(** A neutral 1x1 buffer, 58 bytes, with the given reserved field and the
    four bytes of its pixel region; the x resolution is 2835 and the
    y-resolution field holds 0. *)
Definition neutral_1x1 (reserved a b c d : Z) : list Z :=
  [0; 0;  0; 0; 0; 0;  reserved; 0; 0; 0;  0; 0; 0; 0;
   0; 0; 0; 0;  1; 0; 0; 0;  1; 0; 0; 0;  0; 0;  0; 0;  0; 0; 0; 0;
   0; 0; 0; 0;  19; 11; 0; 0;  0; 0; 0; 0;  0; 0; 0; 0;  0; 0; 0; 0;
   a; b; c; d].

(** The state of a loop when control leaves it, however it does. *)
Definition outcome {S : Type} (f : flow S) : S :=
  match f with Next s | Break s | Return s => s end.

(** [h_ZEencode] with [check = true], before word [j] of group [i]: the
    dense position counts the nonzero words read so far, it is within
    [datasize], and [dataout] is as the caller passed it from [datasize]
    on. *)
Definition guard_inv (bits : Z) (inp : list Z) (datasize : Z)
    (dataout0 : list Z) (i j : Z) (st : ZE.enc_state) : Prop :=
  ZE.e_cnt st = i * bits + j ∧
  0 <= ZE.e_cnt st <= Z.of_nat (length inp) ∧
  ZE.e_pos st
    = Z.of_nat (length (ZE.dense (take (Z.to_nat (ZE.e_cnt st)) inp))) ∧
  ZE.e_pos st <= datasize ∧
  (∀ k, datasize <= k → rd (ZE.e_dataout st) k = rd dataout0 k) ∧
  length (ZE.e_dataout st) = length dataout0.

(** [h_ZEencode] with [check = true] at [return false]: a nonzero word has
    been met with [datasize] words already in the dense stream. *)
Definition guard_hit (inp : list Z) (datasize : Z) (dataout0 : list Z)
    (st : ZE.enc_state) : Prop :=
  datasize < Z.of_nat (length (ZE.dense inp)) ∧
  (∀ k, datasize <= k → rd (ZE.e_dataout st) k = rd dataout0 k) ∧
  length (ZE.e_dataout st) = length dataout0.

(** Bit [k] of a bitmap of [bits]-bit words, and the number of set bits
    below position [k]. *)
Definition bit_at (bits : Z) (bm : list Z) (k : Z) : bool :=
  Z.testbit (rd bm (k / bits)) (k mod bits).

Definition rank (bits : Z) (bm : list Z) (k : Z) : Z :=
  Z.of_nat (length (List.filter (bit_at bits bm) (range 0 k))).

(** [h_ZEdecode] before word [j] of group [i], for any dense stream and
    bitmap: the words produced so far are the zeros and the dense words the
    bitmap asks for, and the rest of [out] is as the caller passed it. *)
Definition unpack_inv (bits : Z) (decsize : Z) (datain bmin out0 : list Z)
    (i j : Z) (st : ZE.dec_state) : Prop :=
  ZE.d_cnt st = i * bits + j ∧
  0 <= ZE.d_cnt st <= decsize ∧
  ZE.d_pos st = rank bits bmin (ZE.d_cnt st) ∧
  length (ZE.d_out st) = length out0 ∧
  (∀ k, 0 <= k < ZE.d_cnt st →
     rd (ZE.d_out st) k
     = if bit_at bits bmin k then rd datain (rank bits bmin k) else 0) ∧
  (∀ k, ZE.d_cnt st <= k → rd (ZE.d_out st) k = rd out0 k).
Example TCMS_m1 : TCMS (-1) = 1.
Proof. reflexivity. Qed.


(** ** Facts about machine integers *)

Lemma i32_id x : in_range x → i32 x = x.
Proof.
  unfold in_range, i32. intros H.
  rewrite Z.mod_small; lia.
Qed.

Lemma i32_range x : in_range (i32 x).
Proof.
  unfold in_range, i32.
  pose proof (Z.mod_pos_bound (x + 2 ^ 31) (2 ^ 32)). lia.
Qed.

Lemma u8_range x : 0 <= u8 x < 256.
Proof. unfold u8. apply Z.mod_pos_bound. lia. Qed.

Lemma u8_id x : 0 <= x < 256 → u8 x = x.
Proof. unfold u8. intros. apply Z.mod_small. lia. Qed.

Lemma u8_i32 x : u8 (i32 x) = u8 x.
Proof.
  unfold u8, i32.
  pose proof (Z.div_mod (x + 2 ^ 31) (2 ^ 32) ltac:(lia)) as E.
  replace ((x + 2 ^ 31) mod 2 ^ 32 - 2 ^ 31)
    with (x + (- 2 ^ 24 * ((x + 2 ^ 31) / 2 ^ 32)) * 2 ^ 8) by lia.
  apply Z.mod_add. lia.
Qed.

(** A bounded universal statement over an integer interval is decided by
    running the test on every element. *)
Lemma forall_range (P : Z → bool) lo len :
  forallb P (seqZ lo len) = true → ∀ x, lo <= x < lo + len → P x = true.
Proof.
  intros H x Hx. rewrite forallb_forall in H. apply H.
  apply list_elem_of_In, elem_of_seqZ. lia.
Qed.

(** ** TCMS is a bijection *)

Lemma TCMS_byte v : 0 <= TCMS v <= 255.
Proof.
  unfold TCMS. change 255 with (Z.ones 8). rewrite Z.land_ones by lia.
  pose proof (Z.mod_pos_bound (Z.lxor (shl v 1) (shr (shl v 24) 31)) (2 ^ 8)).
  change (Z.ones 8) with 255. lia.
Qed.

Lemma iTCMS_TCMS_s8 s : -128 <= s <= 127 → iTCMS (TCMS s) = s.
Proof.
  intros H.
  apply Z.eqb_eq.
  apply (forall_range (λ s, iTCMS (TCMS s) =? s) (-128) 256); [|lia].
  vm_compute. reflexivity.
Qed.

Lemma TCMS_iTCMS_u8 u :
  0 <= u <= 255 →
  -128 <= iTCMS u <= 127 ∧ TCMS (iTCMS u) = u
  ∧ iTCMS u = Z.lxor (Z.shiftr u 1) (- Z.land u 1).
Proof.
  intros H.
  assert ((((-128 <=? iTCMS u) && (iTCMS u <=? 127))
           && (TCMS (iTCMS u) =? u))
           && (iTCMS u =? Z.lxor (Z.shiftr u 1) (- Z.land u 1)) = true) as E.
  { apply (forall_range
             (λ u, (((-128 <=? iTCMS u) && (iTCMS u <=? 127))
                    && (TCMS (iTCMS u) =? u))
                    && (iTCMS u =? Z.lxor (Z.shiftr u 1) (- Z.land u 1)))
             0 256); [|lia].
    vm_compute. reflexivity. }
  rewrite !andb_true_iff in E. destruct E as [[[E1 E2] E3] E4].
  apply Z.leb_le in E1, E2. apply Z.eqb_eq in E3, E4. auto.
Qed.

(** The residuals the forward stage folds are differences of differences of
    bytes, so they lie in [[-510, 510]]; only their low eight bits survive,
    and those are recovered. *)
Lemma iTCMS_TCMS_residual v :
  -510 <= v <= 510 → u8 (iTCMS (TCMS v)) = u8 v.
Proof.
  intros H.
  apply Z.eqb_eq.
  apply (forall_range (λ v, u8 (iTCMS (TCMS v)) =? u8 v) (-510) 1021); [|lia].
  vm_compute. reflexivity.
Qed.

Lemma iTCMS_range u : 0 <= u <= 255 → -128 <= iTCMS u <= 127.
Proof. intros H. apply TCMS_iTCMS_u8, H. Qed.

(** C4. For every signed 8-bit [s] the inverse map applied to the forward
    TCMS value gives [s] back, and the forward value is a byte; for every
    byte [u] the inverse map, which is [(u >> 1) xor -(u & 1)], gives a
    signed 8-bit value whose forward TCMS value is [u].  So TCMS is a
    bijection between the signed 8-bit integers and the bytes. *)
Theorem TCMS_bijection (s u : Z) :
  -128 <= s <= 127 →
  0 <= u <= 255 →
  (0 <= TCMS s <= 255 ∧ iTCMS (TCMS s) = s) ∧
  (-128 <= iTCMS u <= 127 ∧ TCMS (iTCMS u) = u
   ∧ iTCMS u = Z.lxor (Z.shiftr u 1) (- Z.land u 1)).
Proof.
  intros Hs Hu. split.
  - split; [apply TCMS_byte | apply iTCMS_TCMS_s8, Hs].
  - apply TCMS_iTCMS_u8, Hu.
Qed.

Lemma TCMS_bijection_witness :
  (0 <= TCMS (-3) <= 255 ∧ iTCMS (TCMS (-3)) = -3) ∧
  (-128 <= iTCMS 5 <= 127 ∧ TCMS (iTCMS 5) = 5
   ∧ iTCMS 5 = Z.lxor (Z.shiftr 5 1) (- Z.land 5 1)).
Proof. apply (TCMS_bijection (-3) 5); lia. Defined.

(** ** The butterfly transposes the 8x8 bit matrix *)

Lemma testbit_u64_high x n : is_u64 x → 64 <= n → Z.testbit x n = false.
Proof.
  intros Hx Hn. rewrite <- (Z.mod_small x (2 ^ 64)) by exact Hx.
  apply Z.mod_pow2_bits_high. lia.
Qed.

Lemma is_u64_bits x :
  0 <= x → (∀ n, 64 <= n → Z.testbit x n = false) → is_u64 x.
Proof.
  intros H0 Hb. split; [exact H0|].
  destruct (Z.eq_dec x 0) as [->|Hne]; [lia|].
  assert (Z.log2 x < 64) as Hl.
  { destruct (Z_lt_le_dec (Z.log2 x) 64) as [|Hge]; [assumption|].
    pose proof (Z.bit_log2 x ltac:(lia)) as Hbit.
    rewrite Hb in Hbit by exact Hge. discriminate. }
  apply Z.log2_lt_pow2; lia.
Qed.

Lemma layer_nonneg s m x : 0 <= x → 0 <= s → 0 <= layer s m x.
Proof.
  intros Hx Hs. unfold layer, u64.
  assert (0 <= Z.land (Z.lxor x (Z.shiftr x s)) m) as Ht.
  { apply Z.land_nonneg. left. apply Z.lxor_nonneg.
    rewrite Z.shiftr_nonneg. lia. }
  apply Z.lxor_nonneg. split; intros _.
  - apply Z.mod_pos_bound. lia.
  - apply Z.lxor_nonneg. lia.
Qed.

Lemma layer_testbit s m x n :
  is_u64 x → 0 <= s →
  Z.testbit (layer s m x) n = layer_bits s m (Z.testbit x) n.
Proof.
  intros Hx Hs. unfold layer_bits.
  destruct (Z.ltb_spec n 0) as [Hneg|Hnn].
  { rewrite Z.testbit_neg_r by lia.
    destruct (Z.leb_spec 0 n); [lia|]. reflexivity. }
  destruct (Z.leb_spec 0 n) as [_|]; [|lia]. cbn [andb].
  unfold layer, u64.
  destruct (Z.ltb_spec n 64) as [Hlt|Hge].
  - rewrite !Z.lxor_spec, Z.mod_pow2_bits_low by lia.
    rewrite Z.shiftl_spec by lia.
    rewrite !Z.land_spec, !Z.lxor_spec.
    rewrite (Z.shiftr_spec x s n) by lia.
    destruct (Z.ltb_spec (n - s) 0) as [Hlo|Hhi].
    + rewrite (Z.testbit_neg_r x (n - s)) by lia.
      rewrite (Z.testbit_neg_r (Z.shiftr x s) (n - s)) by lia.
      rewrite (Z.testbit_neg_r m (n - s)) by lia.
      destruct (Z.testbit m n), (Z.testbit x n), (Z.testbit x (n + s));
        reflexivity.
    + rewrite (Z.shiftr_spec x s (n - s)) by lia.
      replace (n - s + s) with n by lia.
      destruct (Z.testbit m n), (Z.testbit m (n - s)), (Z.testbit x n),
        (Z.testbit x (n + s)), (Z.testbit x (n - s)); reflexivity.
  - rewrite !Z.lxor_spec, Z.mod_pow2_bits_high by lia.
    rewrite Z.land_spec, Z.lxor_spec, Z.shiftr_spec by lia.
    rewrite (testbit_u64_high x n), (testbit_u64_high x (n + s)) by (auto; lia).
    reflexivity.
Qed.

Lemma layer_u64 s m x : is_u64 x → 0 <= s → is_u64 (layer s m x).
Proof.
  intros Hx Hs. apply is_u64_bits.
  - apply layer_nonneg; [apply Hx | exact Hs].
  - intros n Hn. rewrite layer_testbit by assumption.
    unfold layer_bits. destruct (Z.ltb_spec n 64); [lia|].
    rewrite andb_false_r. reflexivity.
Qed.

Lemma butterfly_u64 x : is_u64 x → is_u64 (butterfly x).
Proof.
  intros Hx. unfold butterfly. repeat apply layer_u64; (exact Hx || lia).
Qed.

Lemma layer_bits_ext s m f g n :
  (∀ k, f k = g k) → layer_bits s m f n = layer_bits s m g n.
Proof. intros E. unfold layer_bits. rewrite !E. reflexivity. Qed.

Lemma butterfly_testbit x n :
  is_u64 x →
  Z.testbit (butterfly x) n =
    layer_bits 28 0x00000000F0F0F0F0
      (layer_bits 14 0x0000CCCC0000CCCC
         (layer_bits 7 0x00AA00AA00AA00AA (Z.testbit x))) n.
Proof.
  intros Hx. unfold butterfly.
  rewrite layer_testbit by (repeat apply layer_u64; (exact Hx || lia)).
  apply layer_bits_ext. intros k.
  rewrite layer_testbit by (repeat apply layer_u64; (exact Hx || lia)).
  apply layer_bits_ext. intros k'.
  apply layer_testbit; [exact Hx | lia].
Qed.

Lemma below_8 i : 0 <= i < 8 →
  i = 0 ∨ i = 1 ∨ i = 2 ∨ i = 3 ∨ i = 4 ∨ i = 5 ∨ i = 6 ∨ i = 7.
Proof. lia. Qed.

(** Bit [8 j + i] of the result is bit [8 i + j] of the argument. *)
Lemma butterfly_bit x i j :
  is_u64 x → 0 <= i < 8 → 0 <= j < 8 →
  Z.testbit (butterfly x) (8 * j + i) = Z.testbit x (8 * i + j).
Proof.
  intros Hx Hi Hj. rewrite butterfly_testbit by exact Hx.
  generalize (Z.testbit x). intros f.
  destruct (below_8 i Hi) as [->|[->|[->|[->|[->|[->|[->| ->]]]]]]];
    destruct (below_8 j Hj) as [->|[->|[->|[->|[->|[->|[->| ->]]]]]]];
    vm_compute; reflexivity.
Qed.

Lemma byte_of_testbit x i j :
  0 <= i → 0 <= j < 8 →
  Z.testbit (byte_of x i) j = Z.testbit x (8 * i + j).
Proof.
  intros Hi Hj. unfold byte_of, u8.
  rewrite Z.mod_pow2_bits_low by lia.
  rewrite Z.shiftr_spec by lia. f_equal. lia.
Qed.

Lemma butterfly_involutive x : is_u64 x → butterfly (butterfly x) = x.
Proof.
  intros Hx. pose proof (butterfly_u64 x Hx) as Hb.
  pose proof (butterfly_u64 _ Hb) as Hbb.
  apply Z.bits_inj'. intros n Hn.
  destruct (Z_lt_le_dec n 64) as [Hlt|Hge].
  - replace n with (8 * (n / 8) + n mod 8)
      by (symmetry; apply Z.div_mod; lia).
    assert (0 <= n / 8 < 8) by (split; [apply Z.div_pos | apply Z.div_lt_upper_bound]; lia).
    assert (0 <= n mod 8 < 8) by (apply Z.mod_pos_bound; lia).
    rewrite butterfly_bit by assumption.
    apply butterfly_bit; assumption.
  - rewrite !testbit_u64_high by assumption. reflexivity.
Qed.

(** C5. For a 64-bit word [x] with bytes [b0 .. b7] (least significant
    first) the three-layer butterfly gives a word whose byte [y_j] has bit
    [i] equal to bit [j] of [b_i], for all [i], [j] below 8; and the
    butterfly applied twice gives [x] back. *)
Theorem butterfly_transpose (x i j : Z) :
  0 <= x < 2 ^ 64 → 0 <= i < 8 → 0 <= j < 8 →
  Z.testbit (byte_of (butterfly x) j) i = Z.testbit (byte_of x i) j
  ∧ butterfly (butterfly x) = x.
Proof.
  intros Hx Hi Hj. split.
  - rewrite !byte_of_testbit by lia. apply butterfly_bit; assumption.
  - apply butterfly_involutive, Hx.
Qed.

Lemma butterfly_transpose_witness :
  Z.testbit (byte_of (butterfly 0x8040201008040201) 3) 5
    = Z.testbit (byte_of 0x8040201008040201 5) 3
  ∧ butterfly (butterfly 0x8040201008040201) = 0x8040201008040201.
Proof. apply (butterfly_transpose 0x8040201008040201 5 3); lia. Defined.

(** C9 (as stated, refuted).  The butterfly does not send
    [0x0102040810204080] to [0xFF00000000000000]. *)
Lemma antidiagonal_not_FF :
  butterfly 0x0102040810204080 ≠ 0xFF00000000000000.
Proof. vm_compute. discriminate. Qed.

(** C9 (amended).  The word [0x0102040810204080], whose bytes, least
    significant first, are 80, 40, 20, 10, 08, 04, 02, 01, is the
    antidiagonal bit matrix; it is symmetric, and the butterfly sends it to
    itself. *)
Theorem butterfly_S5 :
  butterfly 0x0102040810204080 = 0x0102040810204080
  ∧ List.map (byte_of 0x0102040810204080) [0; 1; 2; 3; 4; 5; 6; 7]
    = [0x80; 0x40; 0x20; 0x10; 0x08; 0x04; 0x02; 0x01].
Proof. split; reflexivity. Qed.

(** Closed side conditions are settled by evaluation. *)
Ltac by_compute :=
  first [ reflexivity | lia | vm_compute; intuition (discriminate || lia) ].

(** ** Arrays and loops *)

Lemma range_nil a b : b <= a → range a b = [].
Proof. intros H. unfold range. apply seqZ_nil. lia. Qed.

Lemma range_cons a b : a < b → range a b = a :: range (a + 1) b.
Proof.
  intros H. unfold range. rewrite seqZ_cons by lia.
  f_equal. f_equal; lia.
Qed.

Lemma range_snoc a b : a <= b → range a (b + 1) = range a b ++ [b].
Proof.
  intros H. unfold range.
  replace (b + 1 - a) with ((b - a) + 1) by lia.
  rewrite seqZ_app by lia. f_equal.
  rewrite seqZ_cons, seqZ_nil by lia. f_equal. lia.
Qed.

Lemma elem_of_range a b x : x ∈ range a b ↔ a <= x < b.
Proof. unfold range. rewrite elem_of_seqZ. lia. Qed.

Lemma wr_length a i v : length (wr a i v) = length a.
Proof. unfold wr. destruct (i <? 0); [reflexivity|]. apply length_insert. Qed.

Lemma rd_wr_same a i v :
  0 <= i < Z.of_nat (length a) → rd (wr a i v) i = v.
Proof.
  intros H. unfold rd, wr. destruct (Z.ltb_spec i 0); [lia|].
  rewrite list_lookup_insert_eq by lia. reflexivity.
Qed.

Lemma rd_wr_other a i j v : i ≠ j → rd (wr a i v) j = rd a j.
Proof.
  intros H. unfold rd, wr.
  destruct (Z.ltb_spec j 0); [reflexivity|].
  destruct (Z.ltb_spec i 0); [reflexivity|].
  rewrite list_lookup_insert_ne by lia. reflexivity.
Qed.

Lemma rd_lookup (a : list Z) i v :
  0 <= i → a !! Z.to_nat i = Some v → rd a i = v.
Proof.
  intros Hi E. unfold rd. destruct (Z.ltb_spec i 0); [lia|].
  rewrite E. reflexivity.
Qed.

Lemma lookup_rd (a : list Z) i :
  0 <= i < Z.of_nat (length a) → a !! Z.to_nat i = Some (rd a i).
Proof.
  intros Hi. unfold rd. destruct (Z.ltb_spec i 0); [lia|].
  destruct (lookup_lt_is_Some_2 a (Z.to_nat i) ltac:(lia)) as [v E].
  rewrite E. reflexivity.
Qed.

(** Two arrays of one length with the same elements are equal. *)
Lemma array_eq (a b : list Z) :
  length a = length b →
  (∀ i, 0 <= i < Z.of_nat (length a) → rd a i = rd b i) → a = b.
Proof.
  intros Hl H. apply list_eq_same_length with (length a); [auto|reflexivity|].
  intros i x y Hi Ex Ey.
  specialize (H (Z.of_nat i) ltac:(lia)).
  unfold rd in H. destruct (Z.ltb_spec (Z.of_nat i) 0); [lia|].
  rewrite Nat2Z.id, Ex, Ey in H. exact H.
Qed.

Lemma take_wr_snoc a i v :
  0 <= i < Z.of_nat (length a) →
  take (Z.to_nat (i + 1)) (wr a i v) = take (Z.to_nat i) a ++ [v].
Proof.
  intros H. unfold wr. destruct (Z.ltb_spec i 0); [lia|].
  replace (Z.to_nat (i + 1)) with (S (Z.to_nat i)) by lia.
  rewrite (take_S_r _ _ v) by (apply list_lookup_insert_eq; lia).
  rewrite take_insert_ge by lia. reflexivity.
Qed.

Lemma take_wr_ge a n i v :
  Z.of_nat n <= i → take n (wr a i v) = take n a.
Proof.
  intros H. unfold wr. destruct (Z.ltb_spec i 0); [reflexivity|].
  apply take_insert_ge. lia.
Qed.

(** The rule for a loop: [Inv j] holds before iteration [j], [Post] when
    control reaches the statement after the loop; the body never returns
    from the function. *)
Lemma for_loop_rule {S : Type} (body : S → Z → flow S)
    (Inv : Z → S → Prop) (Post : S → Prop) (a b : Z) :
  (∀ j s, a <= j < b → Inv j s →
     match body s j with
     | Next s' => Inv (j + 1) s'
     | Break s' => Post s'
     | Return _ => False
     end) →
  (∀ s, Inv (Z.max a b) s → Post s) →
  ∀ s, Inv a s → ∃ s', for_loop body (range a b) s = Next s' ∧ Post s'.
Proof.
  intros Hstep Hexit.
  remember (Z.to_nat (b - a)) as n eqn:En.
  revert a En Hstep Hexit. induction n as [|n IH]; intros a En Hstep Hexit s Hs.
  - rewrite range_nil by lia. exists s. split; [reflexivity|].
    apply Hexit. replace (Z.max a b) with a by lia. exact Hs.
  - rewrite range_cons by lia. cbn [for_loop].
    specialize (Hstep a s ltac:(lia) Hs) as Hb.
    destruct (body s a) as [s'|s'|s'].
    + apply (IH (a + 1)); [lia| | |exact Hb].
      * intros j s0 Hj. apply Hstep. lia.
      * intros s0. replace (Z.max (a + 1) b) with (Z.max a b) by lia.
        apply Hexit.
    + exists s'. split; [reflexivity|exact Hb].
    + contradiction.
Qed.

(** The same for a loop written as a fold. *)
Lemma foldl_rule {S : Type} (body : S → Z → S) (Inv : Z → S → Prop) (a b : Z) :
  a <= b →
  (∀ j s, a <= j < b → Inv j s → Inv (j + 1) (body s j)) →
  ∀ s, Inv a s → Inv b (foldl body s (range a b)).
Proof.
  intros Hab Hstep.
  remember (Z.to_nat (b - a)) as n eqn:En.
  revert a En Hab Hstep. induction n as [|n IH]; intros a En Hab Hstep s Hs.
  - rewrite range_nil by lia. cbn. replace b with a by lia. exact Hs.
  - rewrite range_cons by lia. cbn [foldl].
    apply (IH (a + 1)); [lia|lia| |].
    + intros j s0 Hj. apply Hstep. lia.
    + apply Hstep; [lia|exact Hs].
Qed.

(** A loop whose iterations write an array at places of their own.
    [Wv j p v]: iteration [j] leaves the value [v] at index [p]; [P j] is
    what is known of the rest of the state before iteration [j].  An
    iteration may rely on the places no earlier iteration wrote being as
    they were at the start. *)
Lemma loop_writes {S : Type} (body : S * list Z → Z → S * list Z)
    (P : Z → S → Prop) (Wv : Z → Z → Z → Prop) (lo hi : Z)
    (s0 : S) (a0 : list Z) :
  lo <= hi →
  P lo s0 →
  (∀ j s a, lo <= j < hi → P j s → length a = length a0 →
     (∀ p, (∀ j' v, lo <= j' < j → ¬ Wv j' p v) → rd a p = rd a0 p) →
     ∃ s' a', body (s, a) j = (s', a')
           ∧ P (j + 1) s'
           ∧ length a' = length a0
           ∧ (∀ p v, Wv j p v → rd a' p = v)
           ∧ (∀ p, (∀ v, ¬ Wv j p v) → rd a' p = rd a p)) →
  (∀ j j' p v v', lo <= j < hi → lo <= j' < hi →
     Wv j p v → Wv j' p v' → j = j') →
  ∃ s' a', foldl body (s0, a0) (range lo hi) = (s', a')
        ∧ P hi s'
        ∧ length a' = length a0
        ∧ (∀ j p v, lo <= j < hi → Wv j p v → rd a' p = v)
        ∧ (∀ p, (∀ j v, lo <= j < hi → ¬ Wv j p v) → rd a' p = rd a0 p).
Proof.
  intros Hle Hinit Hbody Hdisj.
  pose (Inv := λ (j : Z) (s : S * list Z),
          P j (fst s) ∧ length (snd s) = length a0
          ∧ (∀ j' p v, lo <= j' < j → Wv j' p v → rd (snd s) p = v)
          ∧ (∀ p, (∀ j' v, lo <= j' < j → ¬ Wv j' p v) → rd (snd s) p = rd a0 p)).
  assert (Inv hi (foldl body (s0, a0) (range lo hi))) as H.
  { apply foldl_rule; [exact Hle| |].
    - intros j [s a] Hj (Hs & Hl & Hw & Hf). cbn [fst snd] in *.
      destruct (Hbody j s a Hj Hs Hl Hf) as (s' & a' & -> & Hs' & Hl' & Hw' & Hf').
      unfold Inv. cbn [fst snd]. repeat split; [exact Hs'|exact Hl'| |].
      + intros j' p v Hj' Hp.
        destruct (Z.eq_dec j' j) as [->|Hne]; [apply Hw', Hp|].
        rewrite Hf'.
        * apply (Hw j'); [lia|exact Hp].
        * intros v' Hp'. apply Hne. apply (Hdisj j' j p v v'); (lia || assumption).
      + intros p Hp. rewrite Hf'.
        * apply Hf. intros j' v Hj'. apply Hp. lia.
        * intros v. apply Hp. lia.
    - unfold Inv. cbn [fst snd]. repeat split; intros; assumption || lia || reflexivity. }
  destruct (foldl body (s0, a0) (range lo hi)) as [s a].
  destruct H as (Hs & Hl & Hw & Hf). cbn [fst snd] in *.
  exists s, a. repeat split; assumption.
Qed.

(** The same for a loop with no state but the array. *)
Lemma loop_writes0 (body : list Z → Z → list Z)
    (Wv : Z → Z → Z → Prop) (lo hi : Z) (a0 : list Z) :
  lo <= hi →
  (∀ j a, lo <= j < hi → length a = length a0 →
     (∀ p, (∀ j' v, lo <= j' < j → ¬ Wv j' p v) → rd a p = rd a0 p) →
     length (body a j) = length a0
     ∧ (∀ p v, Wv j p v → rd (body a j) p = v)
     ∧ (∀ p, (∀ v, ¬ Wv j p v) → rd (body a j) p = rd a p)) →
  (∀ j j' p v v', lo <= j < hi → lo <= j' < hi →
     Wv j p v → Wv j' p v' → j = j') →
  length (foldl body a0 (range lo hi)) = length a0
  ∧ (∀ j p v, lo <= j < hi → Wv j p v → rd (foldl body a0 (range lo hi)) p = v)
  ∧ (∀ p, (∀ j v, lo <= j < hi → ¬ Wv j p v) →
          rd (foldl body a0 (range lo hi)) p = rd a0 p).
Proof.
  intros Hle Hbody Hdisj.
  pose (Inv := λ (j : Z) (a : list Z),
          length a = length a0
          ∧ (∀ j' p v, lo <= j' < j → Wv j' p v → rd a p = v)
          ∧ (∀ p, (∀ j' v, lo <= j' < j → ¬ Wv j' p v) → rd a p = rd a0 p)).
  assert (Inv hi (foldl body a0 (range lo hi))) as H.
  { apply foldl_rule; [exact Hle| |].
    - intros j a Hj (Hl & Hw & Hf).
      destruct (Hbody j a Hj Hl Hf) as (Hl' & Hw' & Hf').
      unfold Inv. repeat split; [exact Hl'| |].
      + intros j' p v Hj' Hp.
        destruct (Z.eq_dec j' j) as [->|Hne]; [apply Hw', Hp|].
        rewrite Hf'.
        * apply (Hw j'); [lia|exact Hp].
        * intros v' Hp'. apply Hne. apply (Hdisj j' j p v v'); (lia || assumption).
      + intros p Hp. rewrite Hf'.
        * apply Hf. intros j' v Hj'. apply Hp. lia.
        * intros v. apply Hp. lia.
    - unfold Inv. repeat split; intros; lia || reflexivity. }
  destruct H as (Hl & Hw & Hf). repeat split; assumption.
Qed.

Lemma foldl_ext_in {A B : Type} (f g : A → B → A) (l : list B) (a : A) :
  (∀ x a, x ∈ l → f a x = g a x) → foldl f a l = foldl g a l.
Proof.
  revert a. induction l as [|x l IH]; intros a H; [reflexivity|].
  cbn [foldl]. rewrite H by apply list_elem_of_here.
  apply IH. intros y b Hy. apply H. apply list_elem_of_further, Hy.
Qed.

(** A loop that stores [val j] at index [idx j], the indices being distinct
    and within the array. *)
Lemma scatter (idx val : Z → Z) (lo hi : Z) (a0 : list Z) :
  lo <= hi →
  (∀ j, lo <= j < hi → 0 <= idx j < Z.of_nat (length a0)) →
  (∀ j j', lo <= j < hi → lo <= j' < hi → idx j = idx j' → j = j') →
  length (foldl (λ a j, wr a (idx j) (val j)) a0 (range lo hi)) = length a0
  ∧ (∀ j, lo <= j < hi →
       rd (foldl (λ a j, wr a (idx j) (val j)) a0 (range lo hi)) (idx j) = val j)
  ∧ (∀ p, (∀ j, lo <= j < hi → idx j ≠ p) →
       rd (foldl (λ a j, wr a (idx j) (val j)) a0 (range lo hi)) p = rd a0 p).
Proof.
  intros Hle Hin Hinj.
  destruct (loop_writes0 (λ a j, wr a (idx j) (val j))
              (λ j p v, p = idx j ∧ v = val j) lo hi a0 Hle)
    as (Hl & Hw & Hf).
  - intros j a Hj Hla _. rewrite wr_length. split; [exact Hla|]. split.
    + intros p v [-> ->]. apply rd_wr_same. rewrite Hla. apply Hin, Hj.
    + intros p Hp. apply rd_wr_other. intros E. apply (Hp (val j)). auto.
  - intros j j' p v v' Hj Hj' [-> _] [E _]. apply Hinj; assumption.
  - split; [exact Hl|]. split.
    + intros j Hj. apply (Hw j); auto.
    + intros p Hp. apply Hf. intros j v Hj [-> _]. apply (Hp j Hj). reflexivity.
Qed.

(** A loop that keeps a property of the array. *)
Lemma foldl_keeps {A B : Type} (P : A → Prop) (f : A → B → A) (l : list B) (a : A) :
  (∀ a x, P a → P (f a x)) → P a → P (foldl f a l).
Proof.
  intros H. revert a. induction l as [|x l IH]; intros a Ha; [exact Ha|].
  cbn [foldl]. apply IH, H, Ha.
Qed.

(** ** Zero elimination *)

Example ZE_S4 :
  ZE.h_ZEencode 8 false [0;5;0;0;7;0;0;0] 8 0 [0;0;0;0;0;0;0;0] [0]
  = (true, [5;7;0;0;0;0;0;0], 2, [0x12]).
Proof. reflexivity. Qed.

Example ZE_S4_decode :
  ZE.h_ZEdecode 8 8 [5;7;0;0;0;0;0;0] [0x12] [9;9;9;9;9;9;9;9]
  = [0;5;0;0;7;0;0;0].
Proof. reflexivity. Qed.

Ltac int_simpl :=
  unfold Int.add, Int.sub, Int.mul, Int.div;
  repeat match goal with
    | |- context [i32 ?x] => rewrite (i32_id x) by (unfold in_range; lia)
    end.

Module ZEFacts.
Import ZE.

Lemma dense_app l1 l2 : dense (l1 ++ l2) = dense l1 ++ dense l2.
Proof. apply List.filter_app. Qed.

Lemma dense_length_le l : (length (dense l) <= length l)%nat.
Proof. apply List.filter_length_le. Qed.

Lemma dense_zeros l : Z.of_nat (length (dense l)) + zeros l = Z.of_nat (length l).
Proof.
  unfold zeros, dense, nonzero. induction l as [|v l IH]; [reflexivity|].
  cbn [List.filter]. destruct (v =? 0); cbn [negb length]; lia.
Qed.

Lemma dense_take_step (inp : list Z) c :
  0 <= c < Z.of_nat (length inp) →
  dense (take (Z.to_nat (c + 1)) inp) =
    dense (take (Z.to_nat c) inp)
      ++ (if nonzero (rd inp c) then [rd inp c] else []).
Proof.
  intros Hc. replace (Z.to_nat (c + 1)) with (S (Z.to_nat c)) by lia.
  rewrite (take_S_r inp _ (rd inp c)) by (apply lookup_rd; lia).
  rewrite dense_app. cbn. destruct (nonzero (rd inp c)); reflexivity.
Qed.

Lemma dense_split (inp : list Z) c :
  0 <= c < Z.of_nat (length inp) →
  dense inp =
    dense (take (Z.to_nat c) inp)
      ++ (if nonzero (rd inp c) then [rd inp c] else [])
      ++ dense (drop (Z.to_nat (c + 1)) inp).
Proof.
  intros Hc. rewrite <- (take_drop (Z.to_nat (c + 1)) inp) at 1.
  rewrite dense_app, dense_take_step by lia. rewrite <- app_assoc. reflexivity.
Qed.

Lemma dense_take_le (inp : list Z) c :
  (length (dense (take c inp)) <= length (dense inp))%nat.
Proof.
  rewrite <- (take_drop c inp) at 2. rewrite dense_app, length_app. lia.
Qed.

Lemma dense_take_lt (inp : list Z) c :
  0 <= c < Z.of_nat (length inp) → nonzero (rd inp c) = true →
  (length (dense (take (Z.to_nat c) inp)) < length (dense inp))%nat.
Proof.
  intros Hc Hnz. rewrite (dense_split inp c Hc), Hnz.
  rewrite !length_app. cbn. lia.
Qed.

(** The dense stream holds the nonzero word at input position [c] at the
    position given by the number of nonzero words before [c]. *)
Lemma dense_lookup (inp : list Z) c :
  0 <= c < Z.of_nat (length inp) → nonzero (rd inp c) = true →
  dense inp !! length (dense (take (Z.to_nat c) inp)) = Some (rd inp c).
Proof.
  intros Hc Hnz. rewrite (dense_split inp c Hc), Hnz.
  rewrite lookup_app_r by lia. rewrite Nat.sub_diag. reflexivity.
Qed.

Lemma land_1_testbit a j :
  0 <= j → (Z.land (Z.shiftr a j) 1 =? 0) = negb (Z.testbit a j).
Proof.
  intros Hj. rewrite Z.testbit_odd.
  change 1 with (Z.ones 1). rewrite Z.land_ones by lia.
  change (2 ^ 1) with 2. rewrite Zmod_odd.
  destruct (Z.odd (Z.shiftr a j)); reflexivity.
Qed.

Lemma testbit_set_bit bits bm j k :
  0 <= j < bits → 0 <= k →
  Z.testbit (toT bits (Z.lor bm (Z.shiftl 1 j))) k
  = (k <? bits) && (Z.testbit bm k || (k =? j)).
Proof.
  intros Hj Hk. unfold toT.
  destruct (Z.ltb_spec k bits).
  - rewrite Z.mod_pow2_bits_low by lia.
    rewrite Z.lor_spec, Z.shiftl_1_l, Z.pow2_bits_eqb by lia.
    rewrite (Z.eqb_sym j k). reflexivity.
  - rewrite Z.mod_pow2_bits_high by lia. reflexivity.
Qed.

Lemma num_bounds_gen bits n :
  0 < bits → 1 <= n →
  1 <= (n + bits - 1) / bits
  ∧ ((n + bits - 1) / bits - 1) * bits < n <= (n + bits - 1) / bits * bits.
Proof.
  intros Hbits Hn.
  pose proof (Z.div_mod (n + bits - 1) bits ltac:(lia)) as E.
  pose proof (Z.mod_pos_bound (n + bits - 1) bits Hbits) as B.
  nia.
Qed.

Lemma num_int_gen bits n :
  0 < bits → 0 <= n → n + bits < 2 ^ 31 →
  Int.div (n +! bits -! 1) bits = (n + bits - 1) / bits.
Proof.
  intros Hbits Hn Hfit.
  assert (0 <= (n + bits - 1) / bits < 2 ^ 31) as Hnum.
  { split; [apply Z.div_pos; lia|].
    apply Z.div_lt_upper_bound; [lia|].
    assert (1 * 2 ^ 31 <= bits * 2 ^ 31)
      by (apply Z.mul_le_mono_nonneg_r; lia).
    lia. }
  int_simpl. rewrite Z.quot_div_nonneg by lia.
  apply i32_id. unfold in_range. lia.
Qed.

Section Encode.

Variable bits : Z.
Variable check : bool.
Variable inp : list Z.
Variable datasize : Z.
Variables dataout0 bmout0 : list Z.

Let N : Z := Z.of_nat (length inp).
Let num : Z := (N + bits - 1) / bits.

Hypothesis Hbits : 0 < bits.
Hypothesis Hfit : N + bits < 2 ^ 31.
Hypothesis Hcap : (length (dense inp) <= length dataout0)%nat.
Hypothesis Hchk : check = true → Z.of_nat (length (dense inp)) <= datasize.
Hypothesis Hbm : num <= Z.of_nat (length bmout0).

Local Abbreviation enc_inv := (ZE.enc_inv bits inp dataout0 bmout0).

Lemma num_bounds : 1 <= N → 1 <= num ∧ (num - 1) * bits < N <= num * bits.
Proof using All. intros HN. apply num_bounds_gen; assumption. Qed.

Lemma num_int :
  Int.div (N +! bits -! 1) bits = num.
Proof using All. apply num_int_gen; [assumption|unfold N; lia|assumption]. Qed.

Lemma enc_word_step i j st :
  0 <= i → 0 <= j < bits → enc_inv i j st → e_cnt st < N →
  ∃ st', enc_word bits check inp datasize st j = Next st'
         ∧ enc_inv i (j + 1) st'.
Proof using All.
  intros Hi Hj (Hc & Hcr & Hp & Ht & Hld & Hlb & Hbmj & Hbmo & Hlog) Hlt.
  unfold enc_word. cbn [e_pos e_cnt e_bm e_dataout e_bmout e_bmlog].
  pose proof (dense_take_step inp (e_cnt st) ltac:(fold N; lia)) as Hstep.
  pose proof (dense_take_le inp (Z.to_nat (e_cnt st))) as Hle.
  pose proof (dense_length_le inp) as Hdl. fold N in Hdl.
  assert (e_cnt st +! 1 = e_cnt st + 1) as Ec by (int_simpl; reflexivity).
  rewrite Ec.
  destruct (Z.eqb_spec (rd inp (e_cnt st)) 0) as [Ez|Enz].
  - eexists. split; [reflexivity|].
    unfold nonzero in Hstep. rewrite Ez in Hstep. cbn in Hstep.
    rewrite app_nil_r in Hstep.
    unfold ZE.enc_inv. cbn [e_pos e_cnt e_bm e_dataout e_bmout e_bmlog].
    rewrite Hstep. repeat split; try assumption; try lia.
    intros k Hk. rewrite Hbmj by lia.
    destruct (Z.ltb_spec k j), (Z.ltb_spec k (j + 1)); try lia; try reflexivity.
    assert (k = j) as -> by lia. rewrite <- Hc.
    unfold nonzero. rewrite Ez. reflexivity.
  - assert (nonzero (rd inp (e_cnt st)) = true) as Hnz.
    { unfold nonzero. destruct (Z.eqb_spec (rd inp (e_cnt st)) 0); [lia|reflexivity]. }
    pose proof (dense_take_lt inp (e_cnt st) ltac:(fold N; lia) Hnz) as Hlt'.
    assert (check && (datasize <=? e_pos st) = false) as ->.
    { destruct check; [|reflexivity]. cbn.
      specialize (Hchk eq_refl). apply Z.leb_gt. lia. }
    eexists. split; [reflexivity|].
    rewrite Hnz in Hstep.
    assert (e_pos st +! 1 = e_pos st + 1) as Ep by (int_simpl; reflexivity).
    unfold ZE.enc_inv. cbn [e_pos e_cnt e_bm e_dataout e_bmout e_bmlog].
    rewrite Ep, Hstep, length_app, wr_length. cbn [length].
    repeat split; try assumption; try lia.
    + rewrite take_wr_snoc by lia. rewrite Ht. reflexivity.
    + intros k Hk. rewrite testbit_set_bit by lia. rewrite Hbmj by lia.
      destruct (Z.ltb_spec k bits), (Z.ltb_spec k j), (Z.ltb_spec k (j + 1)),
        (Z.eqb_spec k j); try lia; cbn;
        rewrite ?orb_false_r; try reflexivity.
      subst k. rewrite <- Hc. symmetry. exact Hnz.
Qed.

Lemma enc_group_full i st :
  0 <= i → (i + 1) * bits <= N → i < Z.of_nat (length bmout0) →
  enc_inv i 0 (reset st) →
  ∃ st', enc_group bits (enc_word bits check inp datasize) st i = Next st'
         ∧ enc_inv (i + 1) 0 (reset st').
Proof using All.
  intros Hi HiN Hib Hinv. unfold enc_group. fold (reset st).
  destruct (for_loop_rule (enc_word bits check inp datasize)
              (enc_inv i) (enc_inv i bits) 0 bits) with (s := reset st)
    as (st1 & -> & H1).
  - intros j s Hj Hs.
    destruct (enc_word_step i j s Hi Hj Hs) as (s' & -> & Hs'); [|exact Hs'].
    destruct Hs as (Hc & _). nia.
  - intros s. rewrite Z.max_r by lia. auto.
  - exact Hinv.
  - eexists. split; [reflexivity|].
    destruct H1 as (Hc & Hcr & Hp & Ht & Hld & Hlb & Hbmj & Hbmo & Hlog).
    unfold ZE.enc_inv, reset. cbn [e_pos e_cnt e_bm e_dataout e_bmout e_bmlog].
    rewrite wr_length.
    repeat split; try assumption; try lia.
    + intros k Hk. rewrite Z.bits_0.
      destruct (Z.ltb_spec k 0); [lia|reflexivity].
    + intros i' k Hi' Hk.
      destruct (Z.eq_dec i' i) as [->|Hne].
      * rewrite rd_wr_same by lia. rewrite Hbmj by lia.
        destruct (Z.ltb_spec k bits); [reflexivity|lia].
      * rewrite rd_wr_other by lia. apply Hbmo; lia.
    + rewrite Hlog. symmetry. apply range_snoc. lia.
Qed.

Lemma enc_group_last st :
  1 <= N → enc_inv (num - 1) 0 (reset st) →
  ∃ st' j, enc_group bits (enc_word_last bits check inp N datasize) st (num - 1)
           = Next st'
         ∧ e_cnt st' = N
         ∧ enc_inv (num - 1) j
             (EncState (e_pos st') (e_cnt st') (rd (e_bmout st') (num - 1))
                       (e_dataout st') (e_bmout st') (range 0 (num - 1)))
         ∧ e_bmlog st' = range 0 num
         ∧ (∀ i' k, 0 <= i' < num - 1 → 0 <= k < bits →
              Z.testbit (rd (e_bmout st') i') k
              = nonzero (rd inp (i' * bits + k))).
Proof using All.
  intros HN Hinv. pose proof (num_bounds HN) as (Hn1 & Hn2 & Hn3).
  unfold enc_group. fold (reset st).
  destruct (for_loop_rule (enc_word_last bits check inp N datasize)
              (enc_inv (num - 1))
              (λ s, e_cnt s = N ∧ ∃ j, enc_inv (num - 1) j s) 0 bits)
    with (s := reset st) as (st1 & -> & Hc1 & j & H1).
  - intros j s Hj Hs. unfold enc_word_last.
    destruct (Z.leb_spec N (e_cnt s)) as [Hge|Hlt].
    + split; [|exists j; exact Hs]. destruct Hs as (_ & Hcr & _). lia.
    + destruct (enc_word_step (num - 1) j s ltac:(lia) Hj Hs Hlt)
        as (s' & -> & Hs'). exact Hs'.
  - intros s. rewrite Z.max_r by lia. intros Hs. split; [|exists bits; exact Hs].
    destruct Hs as (Hc & Hcr & _). nia.
  - exact Hinv.
  - eexists. exists j. split; [reflexivity|].
    destruct H1 as (Hc & Hcr & Hp & Ht & Hld & Hlb & Hbmj & Hbmo & Hlog).
    cbn [e_pos e_cnt e_bm e_dataout e_bmout e_bmlog].
    split; [exact Hc1|]. split; [|split].
    + unfold ZE.enc_inv. cbn [e_pos e_cnt e_bm e_dataout e_bmout e_bmlog].
      rewrite wr_length. rewrite rd_wr_same by lia.
      repeat split; try assumption; try lia.
      intros i' k Hi' Hk. rewrite rd_wr_other by lia. apply Hbmo; lia.
    + rewrite Hlog. rewrite <- range_snoc by lia. f_equal. lia.
    + intros i' k Hi' Hk. rewrite rd_wr_other by lia. apply Hbmo; lia.
Qed.

Lemma enc_inv_init : enc_inv 0 0 (EncState 0 0 0 dataout0 bmout0 []).
Proof using All.
  unfold ZE.enc_inv. cbn [e_pos e_cnt e_bm e_dataout e_bmout e_bmlog].
  cbn [Z.to_nat take dense List.filter length].
  repeat split; try reflexivity; try lia.
  intros k Hk. rewrite Z.bits_0.
  destruct (Z.ltb_spec k 0); [lia|reflexivity].
Qed.

(** For a non-empty input [h_ZEencode] returns normally, the dense stream
    holds the nonzero words in order and the bitmap marks where they were. *)
Lemma encode_run_spec :
  1 <= N →
  ∃ st, encode_run bits check inp N datasize dataout0 bmout0 = Next st
    ∧ e_pos st = Z.of_nat (length (dense inp))
    ∧ take (Z.to_nat (e_pos st)) (e_dataout st) = dense inp
    ∧ length (e_dataout st) = length dataout0
    ∧ length (e_bmout st) = length bmout0
    ∧ (∀ i k, 0 <= i < num → 0 <= k < bits →
         Z.testbit (rd (e_bmout st) i) k
         = (i * bits + k <? N) && nonzero (rd inp (i * bits + k)))
    ∧ e_bmlog st = range 0 num.
Proof using All.
  intros HN. pose proof (num_bounds HN) as (Hn1 & Hn2 & Hn3).
  unfold encode_run. rewrite num_int.
  replace (num -! 1) with (num - 1).
  2:{ int_simpl. reflexivity. }
  destruct (for_loop_rule
              (enc_group bits (enc_word bits check inp datasize))
              (λ i s, enc_inv i 0 (reset s))
              (λ s, enc_inv (num - 1) 0 (reset s)) 0 (num - 1))
    with (s := EncState 0 0 0 dataout0 bmout0 []) as (st1 & -> & H1).
  - intros i s Hi Hs.
    destruct (enc_group_full i s) as (s' & -> & Hs'); try lia; [nia|exact Hs|exact Hs'].
  - intros s. rewrite Z.max_r by lia. auto.
  - apply enc_inv_init.
  - destruct (enc_group_last st1 HN H1) as (st2 & j & -> & Hc & Hinv & Hlog2 & Hold).
    exists st2. split; [reflexivity|].
    destruct Hinv as (Hcj & Hcr & Hp & Ht & Hld & Hlb & Hbmj & Hbmo & Hlog).
    cbn [e_pos e_cnt e_bm e_dataout e_bmout e_bmlog] in *.
    rewrite Hc in Hp, Ht. unfold N in Hp, Ht.
    rewrite Nat2Z.id, firstn_all in Hp, Ht.
    repeat split; try assumption.
    intros i k Hi Hk.
    destruct (Z.eq_dec i (num - 1)) as [->|Hne].
    + rewrite Hbmj by lia. f_equal.
      destruct (Z.ltb_spec k j), (Z.ltb_spec ((num - 1) * bits + k) N);
        try reflexivity; lia.
    + rewrite Hold by lia.
      destruct (Z.ltb_spec (i * bits + k) N); [reflexivity|nia].
Qed.


End Encode.

Section Decode.

Variable bits : Z.
Variable inp : list Z.
Variables datain bmin out0 : list Z.

Let N : Z := Z.of_nat (length inp).
Let num : Z := (N + bits - 1) / bits.

Hypothesis Hbits : 0 < bits.
Hypothesis Hfit : N + bits < 2 ^ 31.
Hypothesis HN : 1 <= N.
Hypothesis Hdense : take (length (dense inp)) datain = dense inp.
Hypothesis Hbitmap : ∀ i k, 0 <= i < num → 0 <= k < bits →
  Z.testbit (rd bmin i) k = (i * bits + k <? N) && nonzero (rd inp (i * bits + k)).
Hypothesis Hout : N <= Z.of_nat (length out0).

Local Abbreviation dec_inv := (ZE.dec_inv bits inp out0).

Lemma datain_lookup c :
  0 <= c < N → nonzero (rd inp c) = true →
  rd datain (Z.of_nat (length (dense (take (Z.to_nat c) inp)))) = rd inp c.
Proof using All.
  intros Hc Hnz. apply rd_lookup; [lia|]. rewrite Nat2Z.id.
  pose proof (dense_lookup inp c Hc Hnz) as E.
  pose proof (dense_take_lt inp c Hc Hnz) as Hlt.
  rewrite <- Hdense in E. rewrite lookup_take_lt in E by exact Hlt. exact E.
Qed.

Lemma dec_word_step l i j st :
  0 <= i < num → 0 <= j < bits → dec_inv l i j st → d_cnt st < N →
  dec_inv l i (j + 1) (dec_word datain (rd bmin i) st j).
Proof using All.
  intros Hi Hj (Hc & Hcr & Hp & Ht & Hl & Hlog) Hlt.
  pose proof (dense_take_step inp (d_cnt st) ltac:(fold N; lia)) as Hstep.
  pose proof (dense_length_le (take (Z.to_nat (d_cnt st)) inp)) as Hdl.
  rewrite length_take in Hdl.
  unfold dec_word. rewrite land_1_testbit by lia.
  rewrite Hbitmap by lia. rewrite <- Hc.
  destruct (Z.ltb_spec (d_cnt st) N) as [_|]; [|lia]. cbn [andb].
  assert (d_cnt st +! 1 = d_cnt st + 1) as Ec by (int_simpl; reflexivity).
  assert (take (Z.to_nat (d_cnt st + 1)) inp
          = take (Z.to_nat (d_cnt st)) inp ++ [rd inp (d_cnt st)]) as Etake.
  { replace (Z.to_nat (d_cnt st + 1)) with (S (Z.to_nat (d_cnt st))) by lia.
    apply take_S_r, lookup_rd. fold N. lia. }
  destruct (nonzero (rd inp (d_cnt st))) eqn:Hnz; cbn [negb];
    unfold ZE.dec_inv; cbn [d_pos d_cnt d_out d_bmlog];
    rewrite Ec, Hstep, wr_length.
  - assert (d_pos st +! 1 = d_pos st + 1) as -> by (int_simpl; reflexivity).
    rewrite length_app. cbn [length].
    repeat split; try lia; try assumption.
    rewrite take_wr_snoc by lia. rewrite Ht, Etake. f_equal. f_equal.
    rewrite Hp. apply datain_lookup; [lia|exact Hnz].
  - rewrite app_nil_r.
    repeat split; try lia; try assumption.
    rewrite take_wr_snoc by lia. rewrite Ht, Etake. f_equal. f_equal.
    unfold nonzero in Hnz. destruct (Z.eqb_spec (rd inp (d_cnt st)) 0);
      [congruence|discriminate].
Qed.

(** Entering group [i] reads [bmin[i]]. *)
Lemma dec_inv_enter i st :
  0 <= i → dec_inv i i 0 st →
  dec_inv (i + 1) i 0
    (DecState (d_pos st) (d_cnt st) (d_out st) (d_bmlog st ++ [i])).
Proof using All.
  intros Hi (Hc & Hcr & Hp & Ht & Hl & Hlog).
  unfold ZE.dec_inv. cbn [d_pos d_cnt d_out d_bmlog].
  repeat split; try assumption; try lia.
  rewrite Hlog. symmetry. apply range_snoc. lia.
Qed.

Lemma dec_group_full i st :
  0 <= i < num - 1 → dec_inv i i 0 st →
  ∃ st', dec_group bits bmin (dec_body datain) st i = Next st'
         ∧ dec_inv (i + 1) (i + 1) 0 st'.
Proof using All.
  intros Hi Hinv. pose proof (num_bounds_gen bits N Hbits HN) as (Hn1 & Hn2 & Hn3).
  fold num in Hn1, Hn2, Hn3.
  unfold dec_group.
  destruct (for_loop_rule (dec_body datain (rd bmin i))
              (dec_inv (i + 1) i) (dec_inv (i + 1) (i + 1) 0) 0 bits)
    with (s := DecState (d_pos st) (d_cnt st) (d_out st) (d_bmlog st ++ [i]))
    as (st1 & -> & H1).
  - intros j s Hj Hs. unfold dec_body.
    apply dec_word_step; [lia|lia|exact Hs|].
    destruct Hs as (Hc & _). nia.
  - intros s. rewrite Z.max_r by lia. intros (Hc & Hcr & Hp & Ht & Hl & Hlog).
    unfold ZE.dec_inv. repeat split; try assumption; lia.
  - apply dec_inv_enter; [lia|exact Hinv].
  - exists st1. split; [reflexivity|exact H1].
Qed.

Lemma dec_group_last st :
  dec_inv (num - 1) (num - 1) 0 st →
  ∃ st', dec_group bits bmin (dec_body_last N datain) st (num - 1) = Next st'
         ∧ d_cnt st' = N
         ∧ take (Z.to_nat N) (d_out st') = inp
         ∧ length (d_out st') = length out0
         ∧ d_bmlog st' = range 0 num.
Proof using All.
  intros Hinv. pose proof (num_bounds_gen bits N Hbits HN) as (Hn1 & Hn2 & Hn3).
  fold num in Hn1, Hn2, Hn3.
  unfold dec_group.
  destruct (for_loop_rule (dec_body_last N datain (rd bmin (num - 1)))
              (λ j s, dec_inv num (num - 1) j s ∧ d_cnt s < N)
              (λ s, d_cnt s = N ∧ ∃ j, dec_inv num (num - 1) j s) 0 bits)
    with (s := DecState (d_pos st) (d_cnt st) (d_out st)
                        (d_bmlog st ++ [num - 1]))
    as (st1 & -> & Hc1 & j & H1).
  - intros j s Hj (Hs & Hlt). unfold dec_body_last.
    pose proof (dec_word_step num (num - 1) j s ltac:(lia) Hj Hs Hlt) as Hs'.
    destruct (Z.leb_spec N (d_cnt (dec_word datain (rd bmin (num - 1)) s j))).
    + split; [|exists (j + 1); exact Hs']. destruct Hs' as (_ & Hcr & _). lia.
    + split; [exact Hs'|lia].
  - intros s. rewrite Z.max_r by lia. intros ((Hc & _) & Hlt). nia.
  - pose proof (dec_inv_enter (num - 1) st ltac:(lia) Hinv) as He.
    replace (num - 1 + 1) with num in He by lia.
    split; [exact He|]. destruct He as (Hc & _). cbn [d_cnt] in Hc |- *. lia.
  - exists st1. split; [reflexivity|]. split; [exact Hc1|].
    destruct H1 as (Hc & Hcr & Hp & Ht & Hl & Hlog). rewrite Hc1 in Ht.
    split; [|split; [exact Hl|exact Hlog]].
    rewrite Ht. unfold N. rewrite Nat2Z.id. apply firstn_all.
Qed.

(** Decoding [N >= 1] words from the dense stream and the bitmap of [inp]
    produces exactly [N] words, which are those of [inp], and reads the
    bitmap at the indices [0 .. num - 1]. *)
Lemma decode_run_spec :
  d_cnt (decode_run bits N datain bmin out0) = N
  ∧ take (Z.to_nat N) (h_ZEdecode bits N datain bmin out0) = inp
  ∧ length (h_ZEdecode bits N datain bmin out0) = length out0
  ∧ d_bmlog (decode_run bits N datain bmin out0) = range 0 num.
Proof using All.
  pose proof (num_bounds_gen bits N Hbits HN) as (Hn1 & Hn2 & Hn3).
  fold num in Hn1, Hn2, Hn3.
  unfold h_ZEdecode, decode_run.
  rewrite (num_int_gen bits N Hbits ltac:(lia) Hfit). fold num.
  replace (num -! 1) with (num - 1).
  2:{ int_simpl. reflexivity. }
  destruct (for_loop_rule (dec_group bits bmin (dec_body datain))
              (λ i s, dec_inv i i 0 s) (λ s, dec_inv (num - 1) (num - 1) 0 s)
              0 (num - 1))
    with (s := DecState 0 0 out0 []) as (st1 & -> & H1).
  - intros i s Hi Hs.
    destruct (dec_group_full i s Hi Hs) as (s' & -> & Hs'). exact Hs'.
  - intros s. rewrite Z.max_r by lia. auto.
  - unfold ZE.dec_inv. cbn. repeat split; try reflexivity; lia.
  - destruct (dec_group_last st1 H1) as (st2 & -> & Hc & Ht & Hl & Hlog). auto.
Qed.

End Decode.


End ZEFacts.

(** Zero elimination round trip on a non-empty array of words of any width:
    [h_ZEencode] returns [true], reports as dense length the number of
    nonzero words, the dense stream holds them in order, bit [j] of bitmap
    word [i] tells whether word [i * bits + j] exists and is nonzero, and
    [h_ZEdecode] produces exactly the input from them. *)
Theorem ZE_roundtrip_nonempty bits check inp datasize dataout bmout out :
  let N := Z.of_nat (length inp) in
  let num := (N + bits - 1) / bits in
  0 < bits → 1 <= N → N + bits < 2 ^ 31 →
  (length (ZE.dense inp) <= length dataout)%nat →
  (check = true → Z.of_nat (length (ZE.dense inp)) <= datasize) →
  num <= Z.of_nat (length bmout) →
  N <= Z.of_nat (length out) →
  ∃ d n bm,
    ZE.h_ZEencode bits check inp N datasize dataout bmout = (true, d, n, bm)
    ∧ n = Z.of_nat (length (ZE.dense inp))
    ∧ n = N - ZE.zeros inp
    ∧ take (Z.to_nat n) d = ZE.dense inp
    ∧ (∀ i j, 0 <= i < num → 0 <= j < bits →
         Z.testbit (rd bm i) j
         = (i * bits + j <? N) && ZE.nonzero (rd inp (i * bits + j)))
    ∧ ZE.d_cnt (ZE.decode_run bits N d bm out) = N
    ∧ take (Z.to_nat N) (ZE.h_ZEdecode bits N d bm out) = inp.
Proof.
  intros N num Hbits HN Hfit Hcap Hchk Hbm Hout.
  destruct (ZEFacts.encode_run_spec bits check inp datasize dataout bmout
              Hbits Hfit Hcap Hchk Hbm HN)
    as (st & Hrun & Hp & Ht & Hld & Hlb & Hbits' & Hlog).
  unfold ZE.h_ZEencode. fold N in Hrun. rewrite Hrun.
  exists (ZE.e_dataout st), (ZE.e_pos st), (ZE.e_bmout st).
  split; [reflexivity|]. split; [exact Hp|].
  split; [pose proof (ZEFacts.dense_zeros inp); lia|].
  split; [exact Ht|]. split; [exact Hbits'|].
  rewrite Hp, Nat2Z.id in Ht.
  destruct (ZEFacts.decode_run_spec bits inp (ZE.e_dataout st) (ZE.e_bmout st)
              out Hbits Hfit HN Ht Hbits' Hout) as (Hc & Hd & _).
  auto.
Qed.

Lemma ZE_roundtrip_nonempty_witness :
  ∃ d n bm,
    ZE.h_ZEencode 8 true [0;5;0;0;7;0;0;0;3] 9 3 [9;9;9] [9;9] = (true, d, n, bm)
    ∧ n = 3
    ∧ n = 9 - ZE.zeros [0;5;0;0;7;0;0;0;3]
    ∧ take (Z.to_nat n) d = [5;7;3]
    ∧ (∀ i j, 0 <= i < 2 → 0 <= j < 8 →
         Z.testbit (rd bm i) j
         = (i * 8 + j <? 9) && ZE.nonzero (rd [0;5;0;0;7;0;0;0;3] (i * 8 + j)))
    ∧ ZE.d_cnt (ZE.decode_run 8 9 d bm (replicate 9 1)) = 9
    ∧ take 9 (ZE.h_ZEdecode 8 9 d bm (replicate 9 1)) = [0;5;0;0;7;0;0;0;3].
Proof.
  apply (ZE_roundtrip_nonempty 8 true [0;5;0;0;7;0;0;0;3] 3 [9;9;9] [9;9]
           (replicate 9 1)); by_compute.
Defined.

(** C2 (the code at the failing input).  On the empty word array, with
    [T = uint8_t]: [num] is 0, so [h_ZEencode] stores the bitmap word of its
    last group at index [num - 1 = -1], before the start of [bmout]; and
    [h_ZEdecode], asked for 0 words, reads [bmin[-1]], writes [out[0]] and
    leaves with one word produced. *)
Theorem ZE_empty_input :
  ZE.encode_run 8 false [] 0 0 [] []
    = Next (ZE.EncState 0 0 0 [] (wr [] (-1) 0) [-1])
  ∧ ZE.d_cnt (ZE.decode_run 8 0 [] [] [7]) = 1
  ∧ ZE.h_ZEdecode 8 0 [] [] [7] = [0].
Proof. repeat split. Qed.

(** C7 (as stated, refuted).  Eight [uint8_t] words of which one is zero
    encode to seven dense words and one bitmap word: the size is not
    reduced although a zero word exists. *)
Lemma ZE_size_counterexample :
  ¬ (ZE_encoded_size 8 false [0;1;1;1;1;1;1;1] 0 (replicate 8 0) [0]
       < Z.of_nat (length [0;1;1;1;1;1;1;1])
     ↔ ∃ v, v ∈ [0;1;1;1;1;1;1;1] ∧ v = 0).
Proof.
  cbn. intros [_ H].
  assert (8 < 8); [|lia].
  apply H. exists 0. split; [apply list_elem_of_here|reflexivity].
Qed.

(** C7 (amended).  For a non-empty word array the size of the encoded form,
    the dense words plus the [num] bitmap words, is smaller than the number
    of input words exactly when the input has more zero words than the
    bitmap has words. *)
Theorem ZE_size_reduced bits check inp datasize dataout bmout :
  let N := Z.of_nat (length inp) in
  let num := (N + bits - 1) / bits in
  0 < bits → 1 <= N → N + bits < 2 ^ 31 →
  (length (ZE.dense inp) <= length dataout)%nat →
  (check = true → Z.of_nat (length (ZE.dense inp)) <= datasize) →
  num <= Z.of_nat (length bmout) →
  ZE_encoded_size bits check inp datasize dataout bmout = N - ZE.zeros inp + num
  ∧ (ZE_encoded_size bits check inp datasize dataout bmout < N
     ↔ num < ZE.zeros inp).
Proof.
  intros N num Hbits HN Hfit Hcap Hchk Hbm.
  destruct (ZEFacts.encode_run_spec bits check inp datasize dataout bmout
              Hbits Hfit Hcap Hchk Hbm HN)
    as (st & Hrun & Hp & _).
  assert (ZE_encoded_size bits check inp datasize dataout bmout
          = N - ZE.zeros inp + num) as E.
  { unfold ZE_encoded_size, ZE.h_ZEencode. fold N in Hrun |- *. rewrite Hrun.
    rewrite (ZEFacts.num_int_gen bits N Hbits ltac:(lia) Hfit). fold num.
    pose proof (ZEFacts.dense_zeros inp). lia. }
  split; [exact E|]. rewrite E. lia.
Qed.

Lemma ZE_size_reduced_witness :
  ZE_encoded_size 8 false [0;1;0;1;1;1;1;1] 0 (replicate 8 0) [0]
    = 8 - ZE.zeros [0;1;0;1;1;1;1;1] + 1
  ∧ (ZE_encoded_size 8 false [0;1;0;1;1;1;1;1] 0 (replicate 8 0) [0] < 8
     ↔ 1 < ZE.zeros [0;1;0;1;1;1;1;1]).
Proof.
  apply (ZE_size_reduced 8 false [0;1;0;1;1;1;1;1] 0 (replicate 8 0) [0]);
    by_compute.
Defined.



(** ** Bits of machine integers *)

Lemma byte_testbit_high b n : 0 <= b < 256 → 8 <= n → Z.testbit b n = false.
Proof.
  intros Hb Hn. rewrite <- (Z.mod_small b (2 ^ 8)) by lia.
  apply Z.mod_pow2_bits_high. lia.
Qed.

Lemma u8_testbit x n :
  0 <= n → Z.testbit (u8 x) n = (n <? 8) && Z.testbit x n.
Proof.
  intros Hn. unfold u8. destruct (Z.ltb_spec n 8).
  - rewrite Z.mod_pow2_bits_low by lia. reflexivity.
  - rewrite Z.mod_pow2_bits_high by lia. reflexivity.
Qed.

Lemma lor_disjoint_add a b : Z.land a b = 0 → Z.lor a b = a + b.
Proof.
  intros H. rewrite <- Z.lxor_lor by exact H.
  symmetry. apply Z.add_nocarry_lxor, H.
Qed.

(** [i32] keeps the low 31 bits and repeats bit 31 above them. *)
Lemma i32_testbit x n :
  0 <= n → Z.testbit (i32 x) n = Z.testbit x (Z.min n 31).
Proof.
  intros Hn.
  assert (i32 x = Z.lor (x mod 2 ^ 31)
                        (if Z.testbit x 31 then Z.shiftl (-1) 31 else 0)) as E.
  { rewrite lor_disjoint_add.
    - unfold i32.
      pose proof (Z.testbit_spec' x 31 ltac:(lia)) as Hb.
      pose proof (Z.div_mod x (2 ^ 31) ltac:(lia)) as E1.
      pose proof (Z.mod_pos_bound x (2 ^ 31) ltac:(lia)) as B1.
      pose proof (Z.div_mod (x / 2 ^ 31) 2 ltac:(lia)) as E2.
      pose proof (Z.mod_pos_bound (x / 2 ^ 31) 2 ltac:(lia)) as B2.
      assert ((x + 2 ^ 31) mod 2 ^ 32
              = x mod 2 ^ 31 + 2 ^ 31 * (1 - (x / 2 ^ 31) mod 2)) as ->.
      { symmetry. apply Z.mod_unique_pos
          with (q := x / 2 ^ 31 / 2 + (x / 2 ^ 31) mod 2); lia. }
      destruct (Z.testbit x 31); cbn [Z.b2z] in Hb; change (Z.shiftl (-1) 31)
        with (- 2 ^ 31); lia.
    - apply Z.bits_inj'. intros k Hk. rewrite Z.land_spec, Z.bits_0.
      destruct (Z.ltb_spec k 31).
      + destruct (Z.testbit x 31).
        * rewrite Z.shiftl_spec by lia. rewrite (Z.testbit_neg_r _ (k - 31)) by lia.
          apply andb_false_r.
        * rewrite Z.bits_0. apply andb_false_r.
      + rewrite Z.mod_pow2_bits_high by lia. reflexivity. }
  rewrite E, Z.lor_spec.
  destruct (Z.ltb_spec n 31).
  - rewrite Z.min_l by lia. rewrite Z.mod_pow2_bits_low by lia.
    destruct (Z.testbit x 31).
    + rewrite Z.shiftl_spec by lia. rewrite (Z.testbit_neg_r _ (n - 31)) by lia.
      apply orb_false_r.
    + rewrite Z.bits_0. apply orb_false_r.
  - rewrite Z.min_r by lia. rewrite Z.mod_pow2_bits_high by lia. cbn [orb].
    destruct (Z.testbit x 31).
    + rewrite Z.shiftl_spec by lia. apply Z.bits_m1. lia.
    + apply Z.bits_0.
Qed.

Lemma i32_i32 x : i32 (i32 x) = i32 x.
Proof. apply i32_id, i32_range. Qed.

Lemma i32_shift x k : i32 (x + k * 2 ^ 32) = i32 x.
Proof.
  unfold i32. f_equal.
  replace (x + k * 2 ^ 32 + 2 ^ 31) with (x + 2 ^ 31 + k * 2 ^ 32) by lia.
  apply Z.mod_add. lia.
Qed.

Lemma i32_wraps x : ∃ k, i32 x = x + k * 2 ^ 32.
Proof.
  exists (- ((x + 2 ^ 31) / 2 ^ 32)). unfold i32.
  pose proof (Z.div_mod (x + 2 ^ 31) (2 ^ 32) ltac:(lia)). lia.
Qed.

Lemma i32_add_l a b : i32 (i32 a + b) = i32 (a + b).
Proof.
  destruct (i32_wraps a) as [k ->].
  replace (a + k * 2 ^ 32 + b) with (a + b + k * 2 ^ 32) by lia.
  apply i32_shift.
Qed.

Lemma i32_add_r a b : i32 (a + i32 b) = i32 (a + b).
Proof. rewrite (Z.add_comm a), i32_add_l. f_equal. lia. Qed.

Lemma i32_sub_l a b : i32 (i32 a - b) = i32 (a - b).
Proof. unfold Z.sub. apply i32_add_l. Qed.

Lemma i32_sub_r a b : i32 (a - i32 b) = i32 (a - b).
Proof.
  destruct (i32_wraps b) as [k ->].
  replace (a - (b + k * 2 ^ 32)) with (a - b + (- k) * 2 ^ 32) by lia.
  apply i32_shift.
Qed.

Lemma u8_add_l a b : u8 (u8 a + b) = u8 (a + b).
Proof. unfold u8. apply Zplus_mod_idemp_l. Qed.

Lemma u8_add_r a b : u8 (a + u8 b) = u8 (a + b).
Proof. unfold u8. apply Zplus_mod_idemp_r. Qed.

Lemma u8_sub_l a b : u8 (u8 a - b) = u8 (a - b).
Proof. unfold u8. apply Zminus_mod_idemp_l. Qed.

Lemma u8_sub_r a b : u8 (a - u8 b) = u8 (a - b).
Proof. unfold u8. apply Zminus_mod_idemp_r. Qed.

(** ** The little-endian helpers *)

Lemma is_bytes_rd data i : is_bytes data → 0 <= rd data i < 256.
Proof.
  intros H. unfold rd. destruct (i <? 0); [lia|].
  destruct (data !! Z.to_nat i) as [b|] eqn:E; cbn; [|lia].
  unfold is_bytes in H. rewrite Forall_lookup in H. exact (H _ _ E).
Qed.

Lemma shl_testbit b k n :
  0 <= k → 0 <= n → Z.testbit (shl b k) n = Z.testbit b (Z.min n 31 - k).
Proof.
  intros Hk Hn. unfold shl. rewrite i32_testbit by lia.
  apply Z.shiftl_spec. lia.
Qed.

Lemma get4_testbit_low data o k i :
  byte_at data o → byte_at data (o + 1) → byte_at data (o + 2) →
  byte_at data (o + 3) →
  0 <= k < 4 → 0 <= i < 8 →
  Z.testbit (h_BMP_BIT_get4 data o) (8 * k + i) = Z.testbit (rd data (o + k)) i.
Proof.
  unfold byte_at. intros H0 H1 H2 H3 Hk Hi. unfold h_BMP_BIT_get4.
  rewrite !Z.lor_spec, !shl_testbit by lia.
  rewrite Z.min_l by lia.
  assert (k = 0 ∨ k = 1 ∨ k = 2 ∨ k = 3) as [->|[->|[->| ->]]] by lia.
  - rewrite !(Z.testbit_neg_r _ (_ - _)) by lia. cbn [orb].
    replace (o + 0) with o by lia. replace (8 * 0 + i) with i by lia.
    reflexivity.
  - rewrite !(Z.testbit_neg_r _ (8 * 1 + i - 24)) by lia.
    rewrite !(Z.testbit_neg_r _ (8 * 1 + i - 16)) by lia.
    rewrite (byte_testbit_high (rd data o)) by lia.
    cbn [orb]. rewrite orb_false_r.
    replace (8 * 1 + i - 8) with i by lia. reflexivity.
  - rewrite !(Z.testbit_neg_r _ (8 * 2 + i - 24)) by lia.
    rewrite (byte_testbit_high (rd data o)) by lia.
    rewrite (byte_testbit_high (rd data (o + 1))) by lia.
    cbn [orb]. rewrite !orb_false_r.
    replace (8 * 2 + i - 16) with i by lia. reflexivity.
  - rewrite (byte_testbit_high (rd data o)) by lia.
    rewrite (byte_testbit_high (rd data (o + 1))) by lia.
    rewrite (byte_testbit_high (rd data (o + 2))) by lia.
    rewrite !orb_false_r.
    replace (8 * 3 + i - 24) with i by lia. reflexivity.
Qed.

Lemma get4_testbit_high data o n :
  byte_at data o → byte_at data (o + 1) → byte_at data (o + 2) →
  byte_at data (o + 3) →
  31 <= n →
  Z.testbit (h_BMP_BIT_get4 data o) n = Z.testbit (rd data (o + 3)) 7.
Proof.
  unfold byte_at. intros H0 H1 H2 H3 Hn. unfold h_BMP_BIT_get4.
  rewrite !Z.lor_spec, !shl_testbit by lia.
  rewrite Z.min_r by lia.
  rewrite (byte_testbit_high (rd data o)) by lia.
  rewrite (byte_testbit_high (rd data (o + 1))) by lia.
  rewrite (byte_testbit_high (rd data (o + 2))) by lia.
  rewrite !orb_false_r. reflexivity.
Qed.

Lemma lor_in_range a b : in_range a → in_range b → in_range (Z.lor a b).
Proof.
  intros Ha Hb. rewrite <- (i32_id a Ha), <- (i32_id b Hb).
  replace (Z.lor (i32 a) (i32 b)) with (i32 (Z.lor a b)); [apply i32_range|].
  apply Z.bits_inj'. intros n Hn.
  rewrite Z.lor_spec, !i32_testbit, Z.lor_spec by lia. reflexivity.
Qed.

Lemma get4_range data o :
  byte_at data o → in_range (h_BMP_BIT_get4 data o).
Proof.
  unfold byte_at. intros H0. unfold h_BMP_BIT_get4, shl.
  repeat apply lor_in_range; try apply i32_range.
  unfold in_range. lia.
Qed.

(** Byte [k] of the value read is the byte at offset [k]. *)
Lemma get4_byte data o k :
  byte_at data o → byte_at data (o + 1) → byte_at data (o + 2) →
  byte_at data (o + 3) →
  0 <= k < 4 →
  u8 (shr (h_BMP_BIT_get4 data o) (8 * k)) = rd data (o + k).
Proof.
  intros H0 H1 H2 H3 Hk.
  assert (byte_at data (o + k)) as Hb.
  { assert (k = 0 ∨ k = 1 ∨ k = 2 ∨ k = 3) as [->|[->|[->| ->]]] by lia;
      [replace (o + 0) with o by lia|..]; assumption. }
  apply Z.bits_inj'. intros i Hi. unfold shr.
  rewrite u8_testbit by lia. rewrite Z.shiftr_spec by lia.
  destruct (Z.ltb_spec i 8); cbn [andb].
  - replace (i + 8 * k) with (8 * k + i) by lia.
    apply get4_testbit_low; assumption || lia.
  - symmetry. apply byte_testbit_high; [exact Hb|lia].
Qed.

(** What [h_BMP_BIT_get4] reads depends on four bytes only. *)
Lemma get4_ext a b o :
  (∀ k, 0 <= k < 4 → rd a (o + k) = rd b (o + k)) →
  h_BMP_BIT_get4 a o = h_BMP_BIT_get4 b o.
Proof.
  intros H. unfold h_BMP_BIT_get4.
  rewrite (H 1), (H 2), (H 3) by lia.
  pose proof (H 0 ltac:(lia)) as H0. rewrite Z.add_0_r in H0. rewrite H0.
  reflexivity.
Qed.

Lemma get2_ext a b o :
  (∀ k, 0 <= k < 2 → rd a (o + k) = rd b (o + k)) →
  h_BMP_BIT_get2 a o = h_BMP_BIT_get2 b o.
Proof.
  intros H. unfold h_BMP_BIT_get2.
  rewrite (H 1) by lia.
  pose proof (H 0 ltac:(lia)) as H0. rewrite Z.add_0_r in H0. rewrite H0.
  reflexivity.
Qed.

(** Reading back what [h_BMP_BIT_set4] stored gives the value stored. *)
Lemma get4_of_bytes data o v :
  rd data o = u8 v → rd data (o + 1) = u8 (shr v 8) →
  rd data (o + 2) = u8 (shr v 16) → rd data (o + 3) = u8 (shr v 24) →
  h_BMP_BIT_get4 data o = i32 v.
Proof.
  intros E0 E1 E2 E3.
  assert (byte_at data o) by (unfold byte_at; rewrite E0; apply u8_range).
  assert (byte_at data (o + 1)) by (unfold byte_at; rewrite E1; apply u8_range).
  assert (byte_at data (o + 2)) by (unfold byte_at; rewrite E2; apply u8_range).
  assert (byte_at data (o + 3)) by (unfold byte_at; rewrite E3; apply u8_range).
  apply Z.bits_inj'. intros n Hn. rewrite i32_testbit by lia.
  destruct (Z_lt_le_dec n 31) as [Hlt|Hge].
  - rewrite Z.min_l by lia.
    pose proof (Z.div_mod n 8 ltac:(lia)) as En.
    pose proof (Z.mod_pos_bound n 8 ltac:(lia)) as Bn.
    assert (0 <= n / 8 < 4) as Hk by lia.
    rewrite En at 1. rewrite get4_testbit_low by assumption.
    assert (n / 8 = 0 ∨ n / 8 = 1 ∨ n / 8 = 2 ∨ n / 8 = 3) as Hc by lia.
    unfold shr in *.
    destruct Hc as [Ek|[Ek|[Ek|Ek]]]; rewrite Ek in *;
      [replace (o + 0) with o by lia; rewrite E0
      |rewrite E1|rewrite E2|rewrite E3];
      rewrite u8_testbit by lia; rewrite ?Z.shiftr_spec by lia;
      (destruct (Z.ltb_spec (n mod 8) 8); [|lia]); cbn [andb]; f_equal; lia.
  - rewrite Z.min_r by lia. rewrite get4_testbit_high by assumption || lia.
    rewrite E3. unfold shr. rewrite u8_testbit, Z.shiftr_spec by lia.
    reflexivity.
Qed.

Lemma set4_length data o v : length (h_BMP_BIT_set4 data o v) = length data.
Proof. unfold h_BMP_BIT_set4. rewrite !wr_length. reflexivity. Qed.

Lemma set2_length data o v : length (h_BMP_BIT_set2 data o v) = length data.
Proof. unfold h_BMP_BIT_set2. rewrite !wr_length. reflexivity. Qed.

Lemma rd_set4_out data o v p :
  p < o ∨ o + 4 <= p → rd (h_BMP_BIT_set4 data o v) p = rd data p.
Proof. intros H. unfold h_BMP_BIT_set4. rewrite !rd_wr_other by lia. reflexivity. Qed.

Lemma rd_set2_out data o v p :
  p < o ∨ o + 2 <= p → rd (h_BMP_BIT_set2 data o v) p = rd data p.
Proof. intros H. unfold h_BMP_BIT_set2. rewrite !rd_wr_other by lia. reflexivity. Qed.

Lemma rd_set4_in data o v k :
  0 <= o → o + 3 < Z.of_nat (length data) → 0 <= k < 4 →
  rd (h_BMP_BIT_set4 data o v) (o + k) = u8 (shr v (8 * k)).
Proof.
  intros Ho Hl Hk. unfold h_BMP_BIT_set4.
  assert (k = 0 ∨ k = 1 ∨ k = 2 ∨ k = 3) as [->|[->|[->| ->]]] by lia.
  - rewrite !rd_wr_other by lia. rewrite Z.add_0_r, rd_wr_same by lia.
    unfold shr. rewrite Z.shiftr_0_r. reflexivity.
  - rewrite !rd_wr_other by lia. rewrite rd_wr_same by (rewrite ?wr_length; lia).
    reflexivity.
  - rewrite !rd_wr_other by lia. rewrite rd_wr_same by (rewrite ?wr_length; lia).
    reflexivity.
  - rewrite rd_wr_same by (rewrite ?wr_length; lia). reflexivity.
Qed.

Lemma rd_set2_in data o v k :
  0 <= o → o + 1 < Z.of_nat (length data) → 0 <= k < 2 →
  rd (h_BMP_BIT_set2 data o v) (o + k) = u8 (shr v (8 * k)).
Proof.
  intros Ho Hl Hk. unfold h_BMP_BIT_set2.
  assert (k = 0 ∨ k = 1) as [->| ->] by lia.
  - rewrite !rd_wr_other by lia. rewrite Z.add_0_r, rd_wr_same by lia.
    unfold shr. rewrite Z.shiftr_0_r. reflexivity.
  - rewrite rd_wr_same by (rewrite ?wr_length; lia). reflexivity.
Qed.

Lemma rd_set4_in0 data o v :
  0 <= o → o + 3 < Z.of_nat (length data) →
  rd (h_BMP_BIT_set4 data o v) o = u8 v.
Proof.
  intros Ho Hl. pose proof (rd_set4_in data o v 0 Ho Hl ltac:(lia)) as E.
  rewrite Z.add_0_r in E. rewrite E. unfold shr. rewrite Z.shiftr_0_r.
  reflexivity.
Qed.

Lemma rd_set2_in0 data o v :
  0 <= o → o + 1 < Z.of_nat (length data) →
  rd (h_BMP_BIT_set2 data o v) o = u8 v.
Proof.
  intros Ho Hl. pose proof (rd_set2_in data o v 0 Ho Hl ltac:(lia)) as E.
  rewrite Z.add_0_r in E. rewrite E. unfold shr. rewrite Z.shiftr_0_r.
  reflexivity.
Qed.

Lemma get4_set4_same data o v :
  0 <= o → o + 3 < Z.of_nat (length data) →
  h_BMP_BIT_get4 (h_BMP_BIT_set4 data o v) o = i32 v.
Proof.
  intros Ho Hl. apply get4_of_bytes.
  - apply rd_set4_in0; lia.
  - rewrite rd_set4_in by lia. reflexivity.
  - rewrite rd_set4_in by lia. reflexivity.
  - rewrite rd_set4_in by lia. reflexivity.
Qed.

Lemma get4_set4_other data o' v o :
  o' + 4 <= o ∨ o + 4 <= o' →
  h_BMP_BIT_get4 (h_BMP_BIT_set4 data o' v) o = h_BMP_BIT_get4 data o.
Proof. intros H. apply get4_ext. intros k Hk. apply rd_set4_out. lia. Qed.

Lemma get4_set2_other data o' v o :
  o' + 2 <= o ∨ o + 4 <= o' →
  h_BMP_BIT_get4 (h_BMP_BIT_set2 data o' v) o = h_BMP_BIT_get4 data o.
Proof. intros H. apply get4_ext. intros k Hk. apply rd_set2_out. lia. Qed.

Lemma get4_wr_other data p v o :
  p < o ∨ o + 4 <= p →
  h_BMP_BIT_get4 (wr data p v) o = h_BMP_BIT_get4 data o.
Proof. intros H. apply get4_ext. intros k Hk. apply rd_wr_other. lia. Qed.

Lemma get2_set4_other data o' v o :
  o' + 4 <= o ∨ o + 2 <= o' →
  h_BMP_BIT_get2 (h_BMP_BIT_set4 data o' v) o = h_BMP_BIT_get2 data o.
Proof. intros H. apply get2_ext. intros k Hk. apply rd_set4_out. lia. Qed.

Lemma get2_set2_other data o' v o :
  o' + 2 <= o ∨ o + 2 <= o' →
  h_BMP_BIT_get2 (h_BMP_BIT_set2 data o' v) o = h_BMP_BIT_get2 data o.
Proof. intros H. apply get2_ext. intros k Hk. apply rd_set2_out. lia. Qed.

Lemma get2_wr_other data p v o :
  p < o ∨ o + 2 <= p →
  h_BMP_BIT_get2 (wr data p v) o = h_BMP_BIT_get2 data o.
Proof. intros H. apply get2_ext. intros k Hk. apply rd_wr_other. lia. Qed.

Lemma get2_value data o :
  byte_at data o → byte_at data (o + 1) →
  h_BMP_BIT_get2 data o = rd data (o + 1) * 256 + rd data o.
Proof.
  unfold byte_at. intros H0 H1. unfold h_BMP_BIT_get2, shl.
  rewrite Z.lor_0_l.
  rewrite i32_id by (rewrite Z.shiftl_mul_pow2 by lia; unfold in_range; lia).
  rewrite lor_disjoint_add.
  - rewrite Z.shiftl_mul_pow2 by lia. reflexivity.
  - apply Z.bits_inj'. intros n Hn. rewrite Z.land_spec, Z.bits_0.
    rewrite Z.shiftl_spec by lia.
    destruct (Z_lt_le_dec n 8).
    + rewrite Z.testbit_neg_r by lia. reflexivity.
    + rewrite (byte_testbit_high (rd data o)) by lia. apply andb_false_r.
Qed.

(** ** Arrays that are a header followed by a pixel region *)

Lemma rd_app_l (a b : list Z) i :
  i < Z.of_nat (length a) → rd (a ++ b) i = rd a i.
Proof.
  intros H. unfold rd. destruct (Z.ltb_spec i 0); [reflexivity|].
  rewrite lookup_app_l by lia. reflexivity.
Qed.

Lemma rd_app_r (a b : list Z) i :
  Z.of_nat (length a) <= i → rd (a ++ b) i = rd b (i - Z.of_nat (length a)).
Proof.
  intros H. unfold rd.
  destruct (Z.ltb_spec i 0); [lia|].
  destruct (Z.ltb_spec (i - Z.of_nat (length a)) 0); [lia|].
  rewrite lookup_app_r by lia. do 2 f_equal. lia.
Qed.

Lemma wr_app_l (a b : list Z) i v :
  i < Z.of_nat (length a) → wr (a ++ b) i v = wr a i v ++ b.
Proof.
  intros H. unfold wr. destruct (Z.ltb_spec i 0); [reflexivity|].
  apply insert_app_l. lia.
Qed.

Lemma set4_app_l (a b : list Z) o v :
  o + 3 < Z.of_nat (length a) →
  h_BMP_BIT_set4 (a ++ b) o v = h_BMP_BIT_set4 a o v ++ b.
Proof.
  intros H. unfold h_BMP_BIT_set4.
  repeat (rewrite wr_app_l by (rewrite ?wr_length; lia)). reflexivity.
Qed.

Lemma set2_app_l (a b : list Z) o v :
  o + 1 < Z.of_nat (length a) →
  h_BMP_BIT_set2 (a ++ b) o v = h_BMP_BIT_set2 a o v ++ b.
Proof.
  intros H. unfold h_BMP_BIT_set2.
  repeat (rewrite wr_app_l by (rewrite ?wr_length; lia)). reflexivity.
Qed.

Lemma get4_app_l (a b : list Z) o :
  o + 3 < Z.of_nat (length a) →
  h_BMP_BIT_get4 (a ++ b) o = h_BMP_BIT_get4 a o.
Proof. intros H. apply get4_ext. intros k Hk. apply rd_app_l. lia. Qed.

Lemma get2_app_l (a b : list Z) o :
  o + 1 < Z.of_nat (length a) →
  h_BMP_BIT_get2 (a ++ b) o = h_BMP_BIT_get2 a o.
Proof. intros H. apply get2_ext. intros k Hk. apply rd_app_l. lia. Qed.

Ltac len_simpl :=
  repeat first [rewrite set4_length | rewrite set2_length | rewrite wr_length].

Lemma neutralise_length h width data :
  length (neutralise h width data) = length data.
Proof. unfold neutralise. len_simpl. reflexivity. Qed.

Lemma restore_length h width data :
  length (restore h width data) = length data.
Proof. unfold restore. len_simpl. reflexivity. Qed.

Lemma neutralise_app h width hd px :
  length hd = 54%nat →
  neutralise h width (hd ++ px) = neutralise h width hd ++ px.
Proof.
  intros Hl. unfold neutralise.
  repeat first
    [ rewrite wr_app_l by (len_simpl; lia)
    | rewrite rd_app_l by (len_simpl; lia)
    | rewrite get4_app_l by (len_simpl; lia)
    | rewrite get2_app_l by (len_simpl; lia)
    | rewrite set4_app_l by (len_simpl; lia)
    | rewrite set2_app_l by (len_simpl; lia) ].
  reflexivity.
Qed.

Lemma restore_app h width hd px :
  length hd = 54%nat →
  restore h width (hd ++ px) = restore h width hd ++ px.
Proof.
  intros Hl. unfold restore.
  repeat first
    [ rewrite wr_app_l by (len_simpl; lia)
    | rewrite rd_app_l by (len_simpl; lia)
    | rewrite get4_app_l by (len_simpl; lia)
    | rewrite get2_app_l by (len_simpl; lia)
    | rewrite set4_app_l by (len_simpl; lia)
    | rewrite set2_app_l by (len_simpl; lia) ].
  reflexivity.
Qed.

Lemma is_bytes_wr data i v : is_bytes data → is_bytes (wr data i (u8 v)).
Proof.
  intros H. unfold wr. destruct (i <? 0); [exact H|].
  unfold is_bytes. apply Forall_insert; [exact H|]. apply u8_range.
Qed.

Lemma is_bytes_set4 data o v : is_bytes data → is_bytes (h_BMP_BIT_set4 data o v).
Proof. intros H. unfold h_BMP_BIT_set4. repeat apply is_bytes_wr. exact H. Qed.

Lemma is_bytes_set2 data o v : is_bytes data → is_bytes (h_BMP_BIT_set2 data o v).
Proof. intros H. unfold h_BMP_BIT_set2. repeat apply is_bytes_wr. exact H. Qed.

Lemma is_bytes_neutralise h width data :
  is_bytes data → is_bytes (neutralise h width data).
Proof.
  intros H. unfold neutralise.
  repeat first [apply is_bytes_set4 | apply is_bytes_set2 | apply is_bytes_wr].
  exact H.
Qed.

Lemma is_bytes_restore h width data :
  is_bytes data → is_bytes (restore h width data).
Proof.
  intros H. unfold restore.
  repeat first [apply is_bytes_set4 | apply is_bytes_set2 | apply is_bytes_wr].
  exact H.
Qed.

Lemma is_bytes_app (a b : list Z) : is_bytes a → is_bytes b → is_bytes (a ++ b).
Proof. unfold is_bytes. intros Ha Hb. apply Forall_app. auto. Qed.

Lemma is_bytes_take n a : is_bytes a → is_bytes (take n a).
Proof. unfold is_bytes. apply Forall_take. Qed.

Lemma is_bytes_drop n a : is_bytes a → is_bytes (drop n a).
Proof. unfold is_bytes. apply Forall_drop. Qed.

Lemma byte_at_bytes data o : is_bytes data → byte_at data o.
Proof. intros H. apply is_bytes_rd, H. Qed.

(** Two byte arrays with the same field value have the same field bytes. *)
Lemma get4_bytes_eq a b o k :
  is_bytes a → is_bytes b → h_BMP_BIT_get4 a o = h_BMP_BIT_get4 b o →
  0 <= k < 4 → rd a (o + k) = rd b (o + k).
Proof.
  intros Ha Hb E Hk.
  rewrite <- (get4_byte a o k), <- (get4_byte b o k)
    by (auto using byte_at_bytes).
  rewrite E. reflexivity.
Qed.

Lemma get2_set2_same data o v :
  0 <= o → o + 1 < Z.of_nat (length data) →
  h_BMP_BIT_get2 (h_BMP_BIT_set2 data o v) o = v mod 2 ^ 16.
Proof.
  intros Ho Hl.
  rewrite get2_value.
  - rewrite rd_set2_in, rd_set2_in0 by lia. unfold shr, u8.
    rewrite Z.shiftr_div_pow2 by lia.
    change (8 * 1) with 8.
    pose proof (Z.div_mod v (2 ^ 8) ltac:(lia)).
    pose proof (Z.mod_pos_bound v (2 ^ 8) ltac:(lia)).
    pose proof (Z.mod_pos_bound (v / 2 ^ 8) (2 ^ 8) ltac:(lia)).
    pose proof (Z.div_mod (v / 2 ^ 8) (2 ^ 8) ltac:(lia)).
    apply Z.mod_unique_pos with (q := v / 2 ^ 8 / 2 ^ 8); lia.
  - unfold byte_at. rewrite rd_set2_in0 by lia. apply u8_range.
  - unfold byte_at. rewrite rd_set2_in by lia. apply u8_range.
Qed.

Lemma get2_bound data o :
  is_bytes data → 0 <= h_BMP_BIT_get2 data o < 2 ^ 16.
Proof.
  intros H. rewrite get2_value by (apply byte_at_bytes, H).
  pose proof (is_bytes_rd data o H). pose proof (is_bytes_rd data (o + 1) H).
  lia.
Qed.

Lemma get2_bytes_eq a b o k :
  is_bytes a → is_bytes b → h_BMP_BIT_get2 a o = h_BMP_BIT_get2 b o →
  0 <= k < 2 → rd a (o + k) = rd b (o + k).
Proof.
  intros Ha Hb E Hk.
  rewrite !get2_value in E by (auto using byte_at_bytes).
  pose proof (is_bytes_rd a o Ha). pose proof (is_bytes_rd a (o + 1) Ha).
  pose proof (is_bytes_rd b o Hb). pose proof (is_bytes_rd b (o + 1) Hb).
  assert (k = 0 ∨ k = 1) as [->| ->] by lia; rewrite ?Z.add_0_r; lia.
Qed.

(** Peeling the header writes that do not touch what is read. *)
Ltac peel :=
  repeat match goal with
    | |- context [h_BMP_BIT_get4 (h_BMP_BIT_set4 ?d ?o' ?v) ?o] =>
        rewrite (get4_set4_other d o' v o) by lia
    | |- context [h_BMP_BIT_get4 (h_BMP_BIT_set2 ?d ?o' ?v) ?o] =>
        rewrite (get4_set2_other d o' v o) by lia
    | |- context [h_BMP_BIT_get4 (wr ?d ?p ?v) ?o] =>
        rewrite (get4_wr_other d p v o) by lia
    | |- context [h_BMP_BIT_get2 (h_BMP_BIT_set4 ?d ?o' ?v) ?o] =>
        rewrite (get2_set4_other d o' v o) by lia
    | |- context [h_BMP_BIT_get2 (h_BMP_BIT_set2 ?d ?o' ?v) ?o] =>
        rewrite (get2_set2_other d o' v o) by lia
    | |- context [h_BMP_BIT_get2 (wr ?d ?p ?v) ?o] =>
        rewrite (get2_wr_other d p v o) by lia
    | |- context [rd (h_BMP_BIT_set4 ?d ?o' ?v) ?p] =>
        rewrite (rd_set4_out d o' v p) by lia
    | |- context [rd (h_BMP_BIT_set2 ?d ?o' ?v) ?p] =>
        rewrite (rd_set2_out d o' v p) by lia
    | |- context [rd (wr ?d ?q ?v) ?p] =>
        rewrite (rd_wr_other d q p v) by lia
    end.

Section Header.

Variables h width : Z.
Variable data : list Z.
Hypothesis Hlen : 54 <= Z.of_nat (length data).

Lemma neutralise_keep p :
  p < 0 ∨ 6 <= p < 10 ∨ 18 <= p < 26 ∨ 30 <= p < 34 ∨ 38 <= p < 42 ∨ 46 <= p →
  rd (neutralise h width data) p = rd data p.
Proof using Type. intros Hp. unfold neutralise. peel. reflexivity. Qed.

Lemma restore_keep p :
  p < 0 ∨ 6 <= p < 10 ∨ 18 <= p < 26 ∨ 30 <= p < 34 ∨ 38 <= p < 42 ∨ 46 <= p →
  rd (restore h width data) p = rd data p.
Proof using Type. intros Hp. unfold restore. peel. reflexivity. Qed.

Lemma neutralise_rd_0 : rd (neutralise h width data) 0 = u8 (rd data 0 -! 66).
Proof using Hlen.
  unfold neutralise. peel. rewrite rd_wr_same by lia. reflexivity.
Qed.

Lemma neutralise_rd_1 : rd (neutralise h width data) 1 = u8 (rd data 1 -! 77).
Proof using Hlen.
  unfold neutralise. peel. rewrite rd_wr_same by (len_simpl; lia).
  peel. reflexivity.
Qed.

Lemma restore_rd_0 : rd (restore h width data) 0 = u8 (rd data 0 +! 66).
Proof using Hlen.
  unfold restore. peel. rewrite rd_wr_same by lia. reflexivity.
Qed.

Lemma restore_rd_1 : rd (restore h width data) 1 = u8 (rd data 1 +! 77).
Proof using Hlen.
  unfold restore. peel. rewrite rd_wr_same by (len_simpl; lia).
  peel. reflexivity.
Qed.

Ltac field4 :=
  peel; rewrite get4_set4_same by (len_simpl; lia); peel;
  unfold Int.sub, Int.add; rewrite i32_i32; reflexivity.

Lemma neutralise_get4_2 :
  h_BMP_BIT_get4 (neutralise h width data) 2
  = h_BMP_BIT_get4 data 2 -! (h *! width +! 54).
Proof using Hlen. unfold neutralise. field4. Qed.

Lemma neutralise_get4_10 :
  h_BMP_BIT_get4 (neutralise h width data) 10 = h_BMP_BIT_get4 data 10 -! 54.
Proof using Hlen. unfold neutralise. field4. Qed.

Lemma neutralise_get4_14 :
  h_BMP_BIT_get4 (neutralise h width data) 14 = h_BMP_BIT_get4 data 14 -! 40.
Proof using Hlen. unfold neutralise. field4. Qed.

Lemma neutralise_get4_34 :
  h_BMP_BIT_get4 (neutralise h width data) 34
  = h_BMP_BIT_get4 data 34 -! h *! width.
Proof using Hlen. unfold neutralise. field4. Qed.

Lemma neutralise_get4_42 :
  h_BMP_BIT_get4 (neutralise h width data) 42
  = h_BMP_BIT_get4 data 42 -! h_BMP_BIT_get4 data 38.
Proof using Hlen. unfold neutralise. field4. Qed.

Lemma restore_get4_2 :
  h_BMP_BIT_get4 (restore h width data) 2
  = h_BMP_BIT_get4 data 2 +! (h *! width +! 54).
Proof using Hlen. unfold restore. field4. Qed.

Lemma restore_get4_10 :
  h_BMP_BIT_get4 (restore h width data) 10 = h_BMP_BIT_get4 data 10 +! 54.
Proof using Hlen. unfold restore. field4. Qed.

Lemma restore_get4_14 :
  h_BMP_BIT_get4 (restore h width data) 14 = h_BMP_BIT_get4 data 14 +! 40.
Proof using Hlen. unfold restore. field4. Qed.

Lemma restore_get4_34 :
  h_BMP_BIT_get4 (restore h width data) 34
  = h_BMP_BIT_get4 data 34 +! h *! width.
Proof using Hlen. unfold restore. field4. Qed.

Lemma restore_get4_42 :
  h_BMP_BIT_get4 (restore h width data) 42
  = h_BMP_BIT_get4 data 42 +! h_BMP_BIT_get4 data 38.
Proof using Hlen. unfold restore. field4. Qed.

Ltac field2 :=
  peel; rewrite get2_set2_same by (len_simpl; lia); peel; reflexivity.

Lemma neutralise_get2_26 :
  h_BMP_BIT_get2 (neutralise h width data) 26
  = (h_BMP_BIT_get2 data 26 -! 1) mod 2 ^ 16.
Proof using Hlen. unfold neutralise. field2. Qed.

Lemma neutralise_get2_28 :
  h_BMP_BIT_get2 (neutralise h width data) 28
  = (h_BMP_BIT_get2 data 28 -! 24) mod 2 ^ 16.
Proof using Hlen. unfold neutralise. field2. Qed.

Lemma restore_get2_26 :
  h_BMP_BIT_get2 (restore h width data) 26
  = (h_BMP_BIT_get2 data 26 +! 1) mod 2 ^ 16.
Proof using Hlen. unfold restore. field2. Qed.

Lemma restore_get2_28 :
  h_BMP_BIT_get2 (restore h width data) 28
  = (h_BMP_BIT_get2 data 28 +! 24) mod 2 ^ 16.
Proof using Hlen. unfold restore. field2. Qed.

End Header.

Lemma rd_take n (a : list Z) p :
  p < Z.of_nat n → rd (take n a) p = rd a p.
Proof.
  intros Hp. unfold rd. destruct (Z.ltb_spec p 0); [reflexivity|].
  rewrite lookup_take_lt by lia. reflexivity.
Qed.

Lemma rd_drop n (a : list Z) p :
  0 <= p → rd (drop n a) p = rd a (Z.of_nat n + p).
Proof.
  intros Hp. unfold rd.
  destruct (Z.ltb_spec p 0); [lia|].
  destruct (Z.ltb_spec (Z.of_nat n + p) 0); [lia|].
  rewrite lookup_drop. do 2 f_equal. lia.
Qed.

Lemma pixels_neutralise h width data :
  pixels (neutralise h width data) = pixels data.
Proof.
  unfold pixels. apply array_eq.
  - rewrite !length_drop, neutralise_length. reflexivity.
  - intros i Hi. rewrite !rd_drop by lia. apply neutralise_keep. lia.
Qed.

Lemma header_split data : data = header data ++ pixels data.
Proof. unfold header, pixels. symmetry. apply take_drop. Qed.

Lemma header_length data :
  54 <= Z.of_nat (length data) → length (header data) = 54%nat.
Proof. intros H. unfold header. rewrite length_take. lia. Qed.

Lemma header_neutralise h width data :
  54 <= Z.of_nat (length data) →
  header (neutralise h width data) = neutralise h width (header data).
Proof.
  intros Hl. rewrite (header_split data) at 1.
  rewrite neutralise_app by (apply header_length, Hl).
  unfold header at 1. rewrite take_app_length'; [reflexivity|].
  rewrite neutralise_length. symmetry. apply header_length, Hl.
Qed.

(** Restoring the header undoes its neutralisation, whatever the fields
    hold. *)
Lemma restore_neutralise h width data :
  is_bytes data → 54 <= Z.of_nat (length data) →
  restore h width (neutralise h width data) = data.
Proof.
  intros Hb Hl.
  pose proof (is_bytes_neutralise h width data Hb) as HbN.
  pose proof (is_bytes_restore h width _ HbN) as HbR.
  assert (54 <= Z.of_nat (length (neutralise h width data))) as HlN
    by (rewrite neutralise_length; exact Hl).
  assert (∀ x c, in_range x → x -! c +! c = x) as Hsub.
  { intros x c Hx. unfold Int.sub, Int.add.
    rewrite i32_add_l. replace (x - c + c) with x by lia. apply i32_id, Hx. }
  assert (∀ o, is_bytes data → in_range (h_BMP_BIT_get4 data o)) as Hr
    by (intros; apply get4_range, byte_at_bytes; assumption).
  apply array_eq.
  - rewrite restore_length, neutralise_length. reflexivity.
  - intros p Hp. rewrite restore_length, neutralise_length in Hp.
    assert (p = 0 ∨ p = 1 ∨ 2 <= p < 6 ∨ 10 <= p < 14 ∨ 14 <= p < 18
            ∨ 26 <= p < 28 ∨ 28 <= p < 30 ∨ 34 <= p < 38 ∨ 42 <= p < 46
            ∨ (6 <= p < 10 ∨ 18 <= p < 26 ∨ 30 <= p < 34 ∨ 38 <= p < 42
               ∨ 46 <= p)) as Hc by lia.
    destruct Hc as [->|[->|[H|[H|[H|[H|[H|[H|[H|H]]]]]]]]].
    + rewrite restore_rd_0, neutralise_rd_0 by assumption.
      unfold Int.sub, Int.add. rewrite u8_i32, u8_add_l.
      rewrite <- u8_add_l, u8_i32, u8_add_l.
      replace (rd data 0 - 66 + 66) with (rd data 0) by lia.
      apply u8_id, is_bytes_rd, Hb.
    + rewrite restore_rd_1, neutralise_rd_1 by assumption.
      unfold Int.sub, Int.add. rewrite u8_i32, u8_add_l.
      rewrite <- u8_add_l, u8_i32, u8_add_l.
      replace (rd data 1 - 77 + 77) with (rd data 1) by lia.
      apply u8_id, is_bytes_rd, Hb.
    + replace p with (2 + (p - 2)) by lia.
      apply get4_bytes_eq; [assumption|assumption| |lia].
      rewrite restore_get4_2, neutralise_get4_2 by assumption. auto.
    + replace p with (10 + (p - 10)) by lia.
      apply get4_bytes_eq; [assumption|assumption| |lia].
      rewrite restore_get4_10, neutralise_get4_10 by assumption. auto.
    + replace p with (14 + (p - 14)) by lia.
      apply get4_bytes_eq; [assumption|assumption| |lia].
      rewrite restore_get4_14, neutralise_get4_14 by assumption. auto.
    + replace p with (26 + (p - 26)) by lia.
      apply get2_bytes_eq; [assumption|assumption| |lia].
      rewrite restore_get2_26, neutralise_get2_26 by assumption.
      pose proof (get2_bound data 26 Hb). unfold Int.sub, Int.add, i32.
      Z.div_mod_to_equations. lia.
    + replace p with (28 + (p - 28)) by lia.
      apply get2_bytes_eq; [assumption|assumption| |lia].
      rewrite restore_get2_28, neutralise_get2_28 by assumption.
      pose proof (get2_bound data 28 Hb). unfold Int.sub, Int.add, i32.
      Z.div_mod_to_equations. lia.
    + replace p with (34 + (p - 34)) by lia.
      apply get4_bytes_eq; [assumption|assumption| |lia].
      rewrite restore_get4_34, neutralise_get4_34 by assumption. auto.
    + replace p with (42 + (p - 42)) by lia.
      apply get4_bytes_eq; [assumption|assumption| |lia].
      rewrite restore_get4_42, neutralise_get4_42 by assumption.
      replace (h_BMP_BIT_get4 (neutralise h width data) 38)
        with (h_BMP_BIT_get4 data 38); [auto|].
      apply get4_ext. intros k Hk. symmetry. apply neutralise_keep. lia.
    + rewrite restore_keep, neutralise_keep by lia. reflexivity.
Qed.

Lemma accepted_checked size data :
  accepted size data = true ↔ checked size data.
Proof.
  unfold accepted, unsupported.
  rewrite andb_true_iff, !negb_true_iff, !orb_false_iff, !negb_false_iff.
  rewrite !Z.eqb_eq, !Z.ltb_ge.
  split.
  - intros (? & (((((((((((((? & ?) & ?) & ?) & ?) & ?) & ?) & ?) & ?) & ?) & ?) & ?) & ?) & ?)).
    constructor; assumption.
  - intros []. repeat split; assumption.
Qed.

(** The result of [h_BMP_BIT] on an accepted buffer: the neutralised header
    followed by the transformed pixel region. *)
Lemma h_BMP_BIT_accepted junk size data :
  accepted size data = true →
  h_BMP_BIT junk size data
  = (size,
     header (neutralise (h_BMP_BIT_get4 data 22)
                        (row_width (h_BMP_BIT_get4 data 18)) data)
     ++ forward_pixels junk (h_BMP_BIT_get4 data 18) (h_BMP_BIT_get4 data 22)
                       (row_width (h_BMP_BIT_get4 data 18)) (pixels data)).
Proof.
  intros H. unfold accepted in H. apply andb_true_iff in H as [H1 H2].
  apply negb_true_iff in H1, H2.
  unfold h_BMP_BIT. rewrite H1, H2. rewrite pixels_neutralise. reflexivity.
Qed.

Lemma h_BMP_BIT_rejected junk size data :
  accepted size data = false → h_BMP_BIT junk size data = (size, data).
Proof.
  intros H. unfold accepted in H. unfold h_BMP_BIT.
  destruct (size <? 54); [reflexivity|]. cbn in H.
  apply negb_false_iff in H. rewrite H. reflexivity.
Qed.

Lemma rd_header data p :
  p < 54 → rd (header data) p = rd data p.
Proof. intros H. unfold header. apply rd_take. lia. Qed.

(** The header bytes of the result of [h_BMP_BIT] on an accepted buffer. *)
Lemma h_BMP_BIT_header junk size data p :
  accepted size data = true → size = Z.of_nat (length data) → p < 54 →
  rd (snd (h_BMP_BIT junk size data)) p
  = rd (neutralise (h_BMP_BIT_get4 data 22)
                   (row_width (h_BMP_BIT_get4 data 18)) data) p.
Proof.
  intros Ha Hs Hp. rewrite h_BMP_BIT_accepted by exact Ha. cbn [snd].
  apply accepted_checked in Ha. destruct Ha.
  rewrite rd_app_l.
  - apply rd_header, Hp.
  - rewrite header_length; [lia|]. rewrite neutralise_length. lia.
Qed.

Lemma get4_zero_bytes data o k :
  is_bytes data → h_BMP_BIT_get4 data o = 0 → 0 <= k < 4 → rd data (o + k) = 0.
Proof.
  intros Hb E Hk. rewrite <- (get4_byte data o k) by (auto using byte_at_bytes).
  rewrite E. unfold shr. rewrite Z.shiftr_0_l. reflexivity.
Qed.

Lemma get2_zero_bytes data o k :
  is_bytes data → h_BMP_BIT_get2 data o = 0 → 0 <= k < 2 → rd data (o + k) = 0.
Proof.
  intros Hb E Hk. rewrite get2_value in E by (auto using byte_at_bytes).
  pose proof (is_bytes_rd data o Hb). pose proof (is_bytes_rd data (o + 1) Hb).
  assert (k = 0 ∨ k = 1) as [->| ->] by lia; rewrite ?Z.add_0_r; lia.
Qed.

Lemma sub_self x : x -! x = 0.
Proof. unfold Int.sub. rewrite Z.sub_diag. reflexivity. Qed.

Lemma add_comm32 a b : a +! b = b +! a.
Proof. unfold Int.add. f_equal. lia. Qed.

(** On an accepted buffer the neutralised fields are zero. *)
Lemma neutralise_zero size data :
  checked size data → is_bytes data → size = Z.of_nat (length data) →
  let N := neutralise (h_BMP_BIT_get4 data 22)
                      (row_width (h_BMP_BIT_get4 data 18)) data in
  rd N 0 = 0 ∧ rd N 1 = 0
  ∧ h_BMP_BIT_get4 N 2 = 0 ∧ h_BMP_BIT_get4 N 10 = 0 ∧ h_BMP_BIT_get4 N 14 = 0
  ∧ h_BMP_BIT_get2 N 26 = 0 ∧ h_BMP_BIT_get2 N 28 = 0
  ∧ h_BMP_BIT_get4 N 30 = 0 ∧ h_BMP_BIT_get4 N 34 = 0
  ∧ h_BMP_BIT_get4 N 46 = 0 ∧ h_BMP_BIT_get4 N 50 = 0
  ∧ h_BMP_BIT_get4 N 18 = h_BMP_BIT_get4 data 18
  ∧ h_BMP_BIT_get4 N 22 = h_BMP_BIT_get4 data 22.
Proof.
  intros [] Hb Hs N. subst N.
  assert (54 <= Z.of_nat (length data)) as Hl by lia.
  set (h := h_BMP_BIT_get4 data 22) in *.
  set (width := row_width (h_BMP_BIT_get4 data 18)) in *.
  assert (∀ o, 6 <= o < 7 ∨ 18 <= o < 23 ∨ 30 <= o < 31 ∨ 38 <= o < 39 ∨ 46 <= o →
               h_BMP_BIT_get4 (neutralise h width data) o
               = h_BMP_BIT_get4 data o) as Hkeep.
  { intros o Ho. apply get4_ext. intros k Hk. apply neutralise_keep. lia. }
  rewrite neutralise_rd_0, neutralise_rd_1 by exact Hl.
  rewrite neutralise_get4_2, neutralise_get4_10, neutralise_get4_14,
    neutralise_get4_34, neutralise_get2_26, neutralise_get2_28 by exact Hl.
  rewrite !Hkeep by lia. fold h.
  rewrite ck_B0, ck_M0, ck_file_size0, ck_offset0, ck_dib0, ck_planes0,
    ck_bpp0, ck_compression0, ck_image_size0, ck_colors0, ck_important0.
  rewrite (add_comm32 _ 54), !sub_self.
  repeat split; reflexivity.
Qed.

(** ** The header stage *)

(** C8. On a buffer the forward validator accepts, [h_BMP_BIT] leaves the
    header fields at offsets 0-5, 10-17, 26-29, 34-37 and 46-53 zero, leaves
    the bytes of the reserved field (6-9), of width and height (18-25), of
    the compression field (30-33) and of the x resolution (38-41) as they
    were, and leaves in the y-resolution field (42-45) the 32-bit difference
    of the original y and x resolutions. *)
Theorem header_neutralised junk size data :
  is_bytes data → size = Z.of_nat (length data) → accepted size data = true →
  (∀ p, 0 <= p < 6 ∨ 10 <= p < 18 ∨ 26 <= p < 30 ∨ 34 <= p < 38 ∨ 46 <= p < 54 →
        rd (snd (h_BMP_BIT junk size data)) p = 0)
  ∧ (∀ p, 6 <= p < 10 ∨ 18 <= p < 26 ∨ 30 <= p < 34 ∨ 38 <= p < 42 →
          rd (snd (h_BMP_BIT junk size data)) p = rd data p)
  ∧ h_BMP_BIT_get4 (snd (h_BMP_BIT junk size data)) 42
    = i32 (h_BMP_BIT_get4 data 42 - h_BMP_BIT_get4 data 38).
Proof.
  intros Hb Hs Ha.
  pose proof Ha as Hc. apply accepted_checked in Hc.
  pose proof (neutralise_zero size data Hc Hb Hs) as Hz. cbv zeta in Hz.
  destruct Hz as (Z0 & Z1 & Z2 & Z10 & Z14 & Z26 & Z28 & Z30 & Z34 & Z46 & Z50 & _).
  pose proof (ck_size _ _ Hc) as Hsz.
  set (N := neutralise (h_BMP_BIT_get4 data 22)
                       (row_width (h_BMP_BIT_get4 data 18)) data) in *.
  assert (is_bytes N) as HbN by (apply is_bytes_neutralise, Hb).
  assert (∀ p, p < 54 → rd (snd (h_BMP_BIT junk size data)) p = rd N p) as Hhd
    by (intros p Hp; apply h_BMP_BIT_header; assumption).
  split; [|split].
  - intros p Hp. rewrite Hhd by lia.
    assert (p = 0 ∨ p = 1 ∨ 2 <= p < 6 ∨ 10 <= p < 14 ∨ 14 <= p < 18
            ∨ 26 <= p < 28 ∨ 28 <= p < 30 ∨ 34 <= p < 38
            ∨ 46 <= p < 50 ∨ 50 <= p < 54) as Hcase by lia.
    destruct Hcase as [->|[->|[H|[H|[H|[H|[H|[H|[H|H]]]]]]]]];
      [exact Z0 | exact Z1
      | replace p with (2 + (p - 2)) by lia; apply get4_zero_bytes
      | replace p with (10 + (p - 10)) by lia; apply get4_zero_bytes
      | replace p with (14 + (p - 14)) by lia; apply get4_zero_bytes
      | replace p with (26 + (p - 26)) by lia; apply get2_zero_bytes
      | replace p with (28 + (p - 28)) by lia; apply get2_zero_bytes
      | replace p with (34 + (p - 34)) by lia; apply get4_zero_bytes
      | replace p with (46 + (p - 46)) by lia; apply get4_zero_bytes
      | replace p with (50 + (p - 50)) by lia; apply get4_zero_bytes ];
      (assumption || lia).
  - intros p Hp. rewrite Hhd by lia. apply neutralise_keep. lia.
  - replace (h_BMP_BIT_get4 (snd (h_BMP_BIT junk size data)) 42)
      with (h_BMP_BIT_get4 N 42)
      by (apply get4_ext; intros k Hk; symmetry; apply Hhd; lia).
    apply neutralise_get4_42. lia.
Qed.

Lemma header_neutralised_witness :
  (∀ p, 0 <= p < 6 ∨ 10 <= p < 18 ∨ 26 <= p < 30 ∨ 34 <= p < 38 ∨ 46 <= p < 54 →
        rd (snd (h_BMP_BIT (λ _, 0) 58 (bmp_1x1 7 10 20 30 0))) p = 0)
  ∧ (∀ p, 6 <= p < 10 ∨ 18 <= p < 26 ∨ 30 <= p < 34 ∨ 38 <= p < 42 →
          rd (snd (h_BMP_BIT (λ _, 0) 58 (bmp_1x1 7 10 20 30 0))) p
          = rd (bmp_1x1 7 10 20 30 0) p)
  ∧ h_BMP_BIT_get4 (snd (h_BMP_BIT (λ _, 0) 58 (bmp_1x1 7 10 20 30 0))) 42
    = i32 (h_BMP_BIT_get4 (bmp_1x1 7 10 20 30 0) 42
           - h_BMP_BIT_get4 (bmp_1x1 7 10 20 30 0) 38).
Proof.
  apply (header_neutralised (λ _, 0) 58 (bmp_1x1 7 10 20 30 0)).
  - unfold is_bytes, bmp_1x1. repeat (constructor; [lia|]). constructor.
  - reflexivity.
  - reflexivity.
Defined.




(** ** Geometry of an image that fits *)

Lemma land_lnot_3 x : Z.land x (Z.lnot 3) = 4 * (x / 4).
Proof.
  rewrite <- Z.ldiff_land. change 3 with (Z.ones 2).
  rewrite Z.ldiff_ones_r by lia.
  rewrite Z.shiftl_mul_pow2, Z.shiftr_div_pow2 by lia.
  change (2 ^ 2) with 4. lia.
Qed.

Lemma row_stride_bounds W :
  W * 3 <= row_stride W <= W * 3 + 3 ∧ row_stride W = 4 * ((W * 3 + 3) / 4).
Proof.
  unfold row_stride. rewrite land_lnot_3.
  pose proof (Z.div_mod (W * 3 + 3) 4 ltac:(lia)).
  pose proof (Z.mod_pos_bound (W * 3 + 3) 4 ltac:(lia)). lia.
Qed.

Section Geometry.

Variables w h : Z.
Hypothesis Hw : 1 <= w.
Hypothesis Hh : 1 <= h.
Hypothesis Hfit : 54 + h * row_stride w < 2 ^ 31.

Let width := row_stride w.
Let N := w * h.

Lemma geometry :
  w * 3 <= width <= w * 3 + 3 ∧ 0 < width ∧ width < 2 ^ 31 - 54
  ∧ 1 <= N ∧ 3 * N <= h * width ∧ h * width < 2 ^ 31 - 54
  ∧ h <= h * width.
Proof using Hw Hh Hfit.
  pose proof (row_stride_bounds w) as [Hs _]. fold width in Hs.
  unfold N. fold width in Hfit. repeat split; try lia; nia.
Qed.

Lemma row_width_stride : row_width w = width.
Proof using Hw Hh Hfit.
  pose proof geometry as (Hs & Hp & Hlt & _).
  unfold row_width, row_pad. fold (row_stride w).
  unfold Int.mul, Int.add, Int.sub.
  rewrite (i32_id (w * 3)) by (unfold in_range; lia).
  rewrite (i32_id (w * 3 + 3)) by (unfold in_range; lia).
  fold (row_stride w). fold width.
  rewrite (i32_id (width - w * 3)) by (unfold in_range; lia).
  replace (w * 3 + (width - w * 3)) with width by lia.
  apply i32_id. unfold in_range. lia.
Qed.

Lemma row_pad_stride : row_pad w = width - w * 3.
Proof using Hw Hh Hfit.
  pose proof geometry as (Hs & Hp & Hlt & _).
  unfold row_pad. unfold Int.mul, Int.add, Int.sub.
  rewrite (i32_id (w * 3)) by (unfold in_range; lia).
  rewrite (i32_id (w * 3 + 3)) by (unfold in_range; lia).
  fold (row_stride w). fold width.
  apply i32_id. unfold in_range. lia.
Qed.

Lemma newsize_eq : w *! h *! 1 = N.
Proof using Hw Hh Hfit.
  pose proof geometry as (Hs & Hp & Hlt & HN & H3 & Hhw & Hhb).
  unfold Int.mul. fold N. rewrite (i32_id N) by (unfold in_range; lia).
  rewrite Z.mul_1_r. apply i32_id. unfold in_range. lia.
Qed.

(** Index of channel [c] of the pixel at row [y], column [x]. *)
Lemma pixel_index y x c :
  0 <= y < h → 0 <= x < w → 0 <= c < 3 →
  0 <= y * width ∧ y * width + x * 3 + c < h * width
  ∧ y * width + x * 3 + c < y * width + width.
Proof using Hw Hh Hfit.
  intros Hy Hx Hc. pose proof geometry as (Hs & Hp & Hlt & HN & H3 & Hhw & Hhb).
  repeat split; nia.
Qed.

(** Index in a plane of the residual of the pixel at row [y], column [x]. *)
Lemma plane_index y x :
  0 <= y < h → 0 <= x < w → 0 <= x * h ∧ 0 <= y + x * h < N.
Proof using Hw Hh Hfit. intros Hy Hx. unfold N. repeat split; nia. Qed.

Lemma plane_index_inj y x y' x' :
  0 <= y < h → 0 <= x < w → 0 <= y' < h → 0 <= x' < w →
  y + x * h = y' + x' * h → y = y' ∧ x = x'.
Proof using Hw Hh Hfit.
  intros Hy Hx Hy' Hx' E.
  assert (x = x') as -> by nia. split; [lia|reflexivity].
Qed.

Lemma scratch_index_inj k y x k' y' x' :
  0 <= k < 3 → 0 <= k' < 3 →
  0 <= y < h → 0 <= x < w → 0 <= y' < h → 0 <= x' < w →
  k * N + y + x * h = k' * N + y' + x' * h → k = k' ∧ y = y' ∧ x = x'.
Proof using Hw Hh Hfit.
  intros Hk Hk' Hy Hx Hy' Hx' E.
  pose proof (plane_index y x Hy Hx) as (_ & B).
  pose proof (plane_index y' x' Hy' Hx') as (_ & B').
  assert (k = k') as -> by nia.
  split; [reflexivity|]. apply plane_index_inj; (assumption || lia).
Qed.

End Geometry.

(** ** The loop "encode" *)

Lemma new_uint64_length junk n :
  0 <= n → Z.of_nat (length (new_uint64 junk n)) = 8 * n.
Proof.
  intros Hn. unfold new_uint64, range.
  rewrite length_fmap, length_seqZ. lia.
Qed.

Section StageC.

Variables w h : Z.
Variable bmp : list Z.
Hypothesis Hw : 1 <= w.
Hypothesis Hh : 1 <= h.
Hypothesis Hfit : 54 + h * row_stride w < 2 ^ 31.
Hypothesis Hbytes : is_bytes bmp.

Let width := row_stride w.
Let N := w * h.
Let B (y x c : Z) : Z := rd bmp (y * width + x * 3 + c).
Let sigma (y x : Z) : px :=
  Px (predictor B y x 0) (predictor B y x 1) (predictor B y x 2).

Lemma B_byte y x c : 0 <= B y x c < 256.
Proof using Hbytes. apply is_bytes_rd, Hbytes. Qed.

Lemma predictor_byte y x c : 0 <= predictor B y x c < 256.
Proof using All.
  unfold predictor. destruct (x =? 0); [destruct (y =? 0)|];
    try apply B_byte. lia.
Qed.

Lemma residual_byte y x k : 0 <= residual B y x k < 256.
Proof using All. unfold residual. pose proof (TCMS_byte
  (if k =? 0
   then B y x 0 - predictor B y x 0 - (B y x 1 - predictor B y x 1)
   else if k =? 1 then B y x 1 - predictor B y x 1
        else B y x 2 - predictor B y x 2 - (B y x 1 - predictor B y x 1))).
  cbv zeta. lia.
Qed.

Lemma encode_pixel_eq y x tmp :
  0 <= y < h → 0 <= x < w →
  encode_pixel h width N bmp y (sigma y x, tmp) x
  = (sigma y (x + 1),
     wr (wr (wr tmp (0 * N + y + x * h) (residual B y x 0))
            (1 * N + y + x * h) (residual B y x 1))
        (2 * N + y + x * h) (residual B y x 2)).
Proof using All.
  intros Hy Hx.
  pose proof (geometry w h Hw Hh Hfit) as (Hs & Hp & Hlt & HN & H3 & Hhw & Hhb).
  fold width in Hs, Hp, Hlt, H3, Hhw, Hhb. fold N in HN, H3.
  pose proof (pixel_index w h Hw Hh Hfit y x 0 Hy Hx ltac:(lia)) as (I1 & I2 & _).
  pose proof (pixel_index w h Hw Hh Hfit y x 2 Hy Hx ltac:(lia)) as (_ & I3 & _).
  fold width in I1, I2, I3.
  pose proof (plane_index w h Hw Hh Hfit y x Hy Hx) as (J1 & J2). fold N in J2.
  pose proof (B_byte y x 0). pose proof (B_byte y x 1). pose proof (B_byte y x 2).
  pose proof (predictor_byte y x 0). pose proof (predictor_byte y x 1).
  pose proof (predictor_byte y x 2).
  unfold encode_pixel, sigma. cbn [c0 c1 c2].
  unfold Int.add, Int.sub, Int.mul.
  rewrite (i32_id (y * width)), (i32_id (x * 3)) by (unfold in_range; lia).
  rewrite (i32_id (y * width + x * 3)) by (unfold in_range; lia).
  rewrite (i32_id (y * width + x * 3 + 0)),
          (i32_id (y * width + x * 3 + 1)),
          (i32_id (y * width + x * 3 + 2)) by (unfold in_range; lia).
  fold (B y x 0). fold (B y x 1). fold (B y x 2).
  rewrite (i32_id (B y x 0 - _)), (i32_id (B y x 1 - _)), (i32_id (B y x 2 - _))
    by (unfold in_range; lia).
  rewrite (i32_id (B y x 0 - _ - _)), (i32_id (B y x 2 - _ - _))
    by (unfold in_range; lia).
  rewrite (i32_id (0 * N)), (i32_id (1 * N)), (i32_id (2 * N)),
          (i32_id (x * h)) by (unfold in_range; lia).
  rewrite (i32_id (0 * N + y)), (i32_id (1 * N + y)), (i32_id (2 * N + y))
    by (unfold in_range; lia).
  rewrite (i32_id (0 * N + y + x * h)), (i32_id (1 * N + y + x * h)),
          (i32_id (2 * N + y + x * h)) by (unfold in_range; lia).
  rewrite !u8_id by (pose proof (TCMS_byte) as T;
                     match goal with |- 0 <= TCMS ?v < 256 =>
                       specialize (T v); lia end).
  f_equal. unfold predictor.
  destruct (Z.eqb_spec (x + 1) 0); [lia|].
  replace (x + 1 - 1) with x by lia. reflexivity.
Qed.

Local Abbreviation row_writes := (scratch_row_writes w h B).

Lemma encode_row_spec y tmp :
  0 <= y < h → 3 * N <= Z.of_nat (length tmp) →
  length (encode_row w h width N bmp tmp y) = length tmp
  ∧ (∀ p v, row_writes y p v → rd (encode_row w h width N bmp tmp y) p = v)
  ∧ (∀ p, (∀ v, ¬ row_writes y p v) →
          rd (encode_row w h width N bmp tmp y) p = rd tmp p).
Proof using All.
  intros Hy Hlen.
  pose proof (geometry w h Hw Hh Hfit) as (Hs & Hp & Hlt & HN & H3 & Hhw & Hhb).
  fold width in Hs, Hp, Hlt, H3, Hhw, Hhb. fold N in HN, H3.
  unfold encode_row.
  assert ((if 0 <? y
           then Px (rd bmp ((y -! 1) *! width +! 0))
                   (rd bmp ((y -! 1) *! width +! 1))
                   (rd bmp ((y -! 1) *! width +! 2))
           else Px 0 0 0) = sigma y 0) as ->.
  { unfold sigma, predictor. cbn [Z.eqb].
    destruct (Z.ltb_spec 0 y), (Z.eqb_spec y 0); try lia; [|reflexivity].
    pose proof (pixel_index w h Hw Hh Hfit (y - 1) 0 2 ltac:(lia) ltac:(lia)
                  ltac:(lia)) as (I1 & I2 & _). fold width in I1, I2.
    unfold Int.add, Int.sub, Int.mul.
    rewrite (i32_id (y - 1)) by (unfold in_range; lia).
    rewrite (i32_id ((y - 1) * width)) by (unfold in_range; lia).
    rewrite !i32_id by (unfold in_range; lia).
    unfold B. do 2 f_equal; f_equal; lia. }
  destruct (loop_writes (encode_pixel h width N bmp y) (λ x s, s = sigma y x)
              (λ x p v, ∃ k, 0 <= k < 3 ∧ p = k * N + y + x * h
                             ∧ v = residual B y x k)
              0 w (sigma y 0) tmp ltac:(lia) eq_refl)
    as (s' & tmp' & E & _ & Hl & Hwr & Hfr).
  - intros x s a Hx -> Hla _. rewrite encode_pixel_eq by assumption.
    pose proof (plane_index w h Hw Hh Hfit y x Hy Hx) as (J1 & J2). fold N in J2.
    eexists. eexists. split; [reflexivity|]. split; [reflexivity|].
    rewrite !wr_length.
    split; [exact Hla|]. split.
    + intros p v (k & Hk & -> & ->).
      assert (k = 0 ∨ k = 1 ∨ k = 2) as [->|[->| ->]] by lia.
      * rewrite !rd_wr_other by lia. apply rd_wr_same. lia.
      * rewrite rd_wr_other by lia. apply rd_wr_same. rewrite wr_length. lia.
      * apply rd_wr_same. rewrite !wr_length. lia.
    + intros p Hnw.
      rewrite !rd_wr_other; [reflexivity|..];
        intros <-; [apply (Hnw (residual B y x 0)); exists 0
                   |apply (Hnw (residual B y x 1)); exists 1
                   |apply (Hnw (residual B y x 2)); exists 2];
        (split; [lia|split; reflexivity]).
  - intros x x' p v v' Hx Hx' (k & Hk & -> & _) (k' & Hk' & E & _).
    apply (scratch_index_inj w h Hw Hh Hfit k y x k' y x') in E;
      (lia || assumption).
  - rewrite E. cbn [snd]. split; [exact Hl|]. split.
    + intros p v (x & k & Hx & Hk & -> & ->). apply (Hwr x); [lia|].
      exists k. auto.
    + intros p Hnw. apply Hfr. intros x v Hx (k & Hk & -> & ->).
      apply (Hnw (residual B y x k)). exists x, k. auto.
Qed.

(** Every residual is where the specification puts it: plane [k], place
    [y + x * h]. *)
Lemma encode_rows_spec tmp :
  3 * N <= Z.of_nat (length tmp) →
  length (encode_rows w h width N bmp tmp) = length tmp
  ∧ (∀ y x k, 0 <= y < h → 0 <= x < w → 0 <= k < 3 →
       rd (encode_rows w h width N bmp tmp) (k * N + y + x * h)
       = residual B y x k).
Proof using All.
  intros Hlen. unfold encode_rows.
  destruct (loop_writes0 (encode_row w h width N bmp) row_writes 0 h tmp
              ltac:(lia)) as (Hl & Hwr & _).
  - intros y a Hy Hla _. rewrite <- Hla. apply encode_row_spec; [lia|].
    rewrite Hla. exact Hlen.
  - intros y y' p v v' Hy Hy' (x & k & Hx & Hk & -> & _) (x' & k' & Hx' & Hk' & E & _).
    apply (scratch_index_inj w h Hw Hh Hfit k y x k' y' x') in E;
      (lia || assumption).
  - split; [exact Hl|]. intros y x k Hy Hx Hk. apply (Hwr y); [lia|].
    exists x, k. auto.
Qed.

End StageC.

Lemma residual_ext B1 B2 y x k :
  (∀ y x c, B1 y x c = B2 y x c) → residual B1 y x k = residual B2 y x k.
Proof.
  intros E. unfold residual, predictor. rewrite !E.
  destruct (x =? 0), (y =? 0); rewrite ?E; reflexivity.
Qed.

Lemma raw_pixels data y x c :
  0 <= y * row_stride (h_BMP_BIT_get4 data 18) + x * 3 + c →
  rd (pixels data) (y * row_stride (h_BMP_BIT_get4 data 18) + x * 3 + c)
  = raw data y x c.
Proof.
  intros H. unfold pixels, raw. rewrite rd_drop by exact H.
  f_equal. lia.
Qed.

(** What acceptance and the true sizes give. *)
Lemma image_fits size data :
  accepted size data = true → holds_image size data →
  1 <= h_BMP_BIT_get4 data 18 ∧ 1 <= h_BMP_BIT_get4 data 22
  ∧ 54 + h_BMP_BIT_get4 data 22 * row_stride (h_BMP_BIT_get4 data 18) < 2 ^ 31
  ∧ Z.of_nat (length (pixels data))
    = h_BMP_BIT_get4 data 22 * row_stride (h_BMP_BIT_get4 data 18).
Proof.
  intros Ha [Hs1 Hs2]. apply accepted_checked in Ha.
  pose proof (ck_w _ _ Ha) as Hw. pose proof (ck_h _ _ Ha) as Hh.
  pose proof (ck_size _ _ Ha) as H54.
  assert (size < 2 ^ 31) as Hr.
  { rewrite (ck_length _ _ Ha). unfold Int.add. apply i32_range. }
  clear Ha.
  split; [exact Hw|]. split; [exact Hh|]. split; [lia|].
  unfold pixels. rewrite length_drop. lia.
Qed.

Section Scratch.

Variables w h : Z.
Hypothesis Hw : 1 <= w.
Hypothesis Hh : 1 <= h.
Hypothesis Hfit : 54 + h * row_stride w < 2 ^ 31.

Lemma csize_facts :
  w *! h *! 1 *! 3 = 3 * (w * h)
  ∧ Int.div (w *! h *! 1 *! 3 +! 7) 8 = (3 * (w * h) + 7) / 8
  ∧ 3 * (w * h) <= 8 * ((3 * (w * h) + 7) / 8) < 3 * (w * h) + 8.
Proof using All.
  pose proof (geometry w h Hw Hh Hfit) as (Hs & Hp & Hlt & HN & H3 & Hhw & Hhb).
  rewrite (newsize_eq w h Hw Hh Hfit).
  pose proof (Z.div_mod (3 * (w * h) + 7) 8 ltac:(lia)).
  pose proof (Z.mod_pos_bound (3 * (w * h) + 7) 8 ltac:(lia)).
  assert (w * h *! 3 = 3 * (w * h)) as E.
  { unfold Int.mul. rewrite i32_id by (unfold in_range; lia). lia. }
  rewrite E. split; [reflexivity|]. split; [|lia].
  unfold Int.add, Int.div. rewrite (i32_id (_ + 7)) by (unfold in_range; lia).
  rewrite Z.quot_div_nonneg by lia. apply i32_id. unfold in_range. lia.
Qed.

Lemma scratch_length junk :
  Z.of_nat (length (new_uint64 junk (Int.div (w *! h *! 1 *! 3 +! 7) 8)))
  = 8 * ((3 * (w * h) + 7) / 8).
Proof using All.
  destruct csize_facts as (_ & -> & Hb).
  apply new_uint64_length. lia.
Qed.

Lemma forward_scratch_spec junk bmp :
  is_bytes bmp →
  Z.of_nat (length (forward_scratch junk w h (row_width w) bmp))
  = 8 * ((3 * (w * h) + 7) / 8)
  ∧ (∀ y x k, 0 <= y < h → 0 <= x < w → 0 <= k < 3 →
       rd (forward_scratch junk w h (row_width w) bmp) (k * (w * h) + y + x * h)
       = residual (λ y x c, rd bmp (y * row_stride w + x * 3 + c)) y x k).
Proof using All.
  intros Hb. unfold forward_scratch.
  pose proof (scratch_length junk) as Hl.
  destruct csize_facts as (_ & _ & Hcs).
  rewrite (row_width_stride w h Hw Hh Hfit).
  rewrite (newsize_eq w h Hw Hh Hfit) in *.
  destruct (encode_rows_spec w h bmp Hw Hh Hfit Hb
              (new_uint64 junk (Int.div (w * h *! 3 +! 7) 8)))
    as (Hl' & Hrd); [lia|].
  split; [rewrite Hl'; exact Hl | exact Hrd].
Qed.

End Scratch.

(** C6.  On an accepted image, for every pixel [(y, x)] and channel [k],
    the byte the loop "encode" leaves at scratch index [k W H + y + x H] is
    the TCMS value of [v_k], where [v] are the differences [n_c - p_c] of
    the pixel to its predictor, with [v_1] then subtracted from [v_0] and
    [v_2]; the predictor of column 0 is zero in row 0 and otherwise the raw
    pixel at [(y - 1, 0)], and the predictor of a later column is the raw
    pixel to its left.  The buffer is one of bytes that holds the image its
    header announces ([holds_image]): the size tests of the validator are
    made in 32-bit arithmetic, and a header that passes them only by
    wrap-around makes the source read outside the buffer. *)
Theorem scratch_residuals junk size data y x k :
  is_bytes data → accepted size data = true → holds_image size data →
  0 <= y < h_BMP_BIT_get4 data 22 →
  0 <= x < h_BMP_BIT_get4 data 18 →
  0 <= k < 3 →
  let W := h_BMP_BIT_get4 data 18 in
  let H := h_BMP_BIT_get4 data 22 in
  let p c := if x =? 0 then (if y =? 0 then 0 else raw data (y - 1) 0 c)
             else raw data y (x - 1) c in
  let n c := raw data y x c in
  let v0 := n 0 - p 0 - (n 1 - p 1) in
  let v1 := n 1 - p 1 in
  let v2 := n 2 - p 2 - (n 1 - p 1) in
  rd (forward_scratch junk W H (row_width W) (pixels data))
     (k * W * H + y + x * H)
  = TCMS (if k =? 0 then v0 else if k =? 1 then v1 else v2).
Proof.
  intros Hb Ha Hi Hy Hx Hk W H p n v0 v1 v2.
  destruct (image_fits size data Ha Hi) as (Hw & Hh & Hfit & Hlen).
  fold W in Hw, Hfit, Hlen, Hx. fold H in Hh, Hfit, Hlen, Hy.
  destruct (forward_scratch_spec W H Hw Hh Hfit junk (pixels data)
              (is_bytes_drop _ _ Hb)) as (_ & Hrd).
  replace (k * W * H) with (k * (W * H)) by lia.
  rewrite Hrd by assumption.
  assert (∀ y' x' c, 0 <= y' → 0 <= x' → 0 <= c →
            rd (pixels data) (y' * row_stride W + x' * 3 + c) = raw data y' x' c)
    as Hraw.
  { intros y' x' c Hy' Hx' Hc. apply raw_pixels.
    pose proof (row_stride_bounds W) as [Hsb _]. fold W.
    assert (0 <= y' * row_stride W) by (apply Z.mul_nonneg_nonneg; lia). lia. }
  unfold residual, predictor. subst v0 v1 v2 n p. cbv beta.
  rewrite !Hraw by lia.
  destruct (Z.eqb_spec x 0), (Z.eqb_spec y 0); rewrite ?Hraw by lia;
    reflexivity.
Qed.

Lemma bmp_3x2_bytes : is_bytes bmp_3x2.
Proof. unfold is_bytes, bmp_3x2. repeat constructor; lia. Qed.

Lemma bmp_3x2_image : holds_image 78 bmp_3x2.
Proof. split; reflexivity. Qed.

Lemma bmp_3x2_padding : padding_zero bmp_3x2.
Proof.
  unfold padding_zero.
  change (h_BMP_BIT_get4 bmp_3x2 18) with 3.
  change (h_BMP_BIT_get4 bmp_3x2 22) with 2.
  change (row_stride 3) with 12.
  intros y x Hy Hx.
  assert (y = 0 ∨ y = 1) as [-> | ->] by lia;
    (assert (x = 9 ∨ x = 10 ∨ x = 11) as [-> | [-> | ->]] by lia);
    reflexivity.
Qed.

(** The last pixel of the second row of the 3x2 image: blue channel. *)
Lemma scratch_residuals_witness :
  rd (forward_scratch (λ i, i) 3 2 (row_width 3) (pixels bmp_3x2))
     (0 * 3 * 2 + 1 + 2 * 2)
  = TCMS (255 - 0 - (0 - 255)).
Proof.
  apply (scratch_residuals (λ i, i) 78 bmp_3x2 1 2 0).
  - exact bmp_3x2_bytes.
  - reflexivity.
  - exact bmp_3x2_image.
  - change (h_BMP_BIT_get4 bmp_3x2 22) with 2. lia.
  - change (h_BMP_BIT_get4 bmp_3x2 18) with 3. lia.
  - lia.
Defined.

(** ** Words and their bytes *)

Lemma range_0_8 : range 0 8 = [0; 1; 2; 3; 4; 5; 6; 7].
Proof. reflexivity. Qed.

Lemma foldl_lor_testbit (f : Z → Z) l x0 n :
  0 <= n →
  Z.testbit (foldl (λ x i, Z.lor x (Z.shiftl (f i) (8 * i))) x0 l) n
  = Z.testbit x0 n || existsb (λ i, Z.testbit (f i) (n - 8 * i)) l.
Proof.
  intros Hn. revert x0. induction l as [|i l IH]; intros x0; cbn [foldl existsb].
  - rewrite orb_false_r. reflexivity.
  - rewrite IH, Z.lor_spec, Z.shiftl_spec by lia. symmetry. apply orb_assoc.
Qed.

Lemma pack8_testbit f n :
  0 <= n →
  Z.testbit (pack8 f) n
  = existsb (λ i, Z.testbit (f i) (n - 8 * i)) [0; 1; 2; 3; 4; 5; 6; 7].
Proof.
  intros Hn. unfold pack8. rewrite range_0_8, foldl_lor_testbit by lia.
  rewrite Z.bits_0. reflexivity.
Qed.

(** Settles the bits of the bytes [f i] at the indices other than [m]:
    they lie below bit 0 or above bit 7, or the index is [m] in disguise. *)
Ltac byte_bits f m Hf :=
  repeat match goal with
    | |- context [Z.testbit (f ?i) ?n] =>
        lazymatch n with m => fail | _ => idtac end;
        first [ rewrite (Z.testbit_neg_r (f i) n) by lia
              | rewrite (byte_testbit_high (f i) n) by (try apply Hf; lia)
              | replace n with m by lia ]
    end;
  cbn [orb]; rewrite ?orb_false_r.

Lemma pack8_byte f j :
  (∀ i, 0 <= f i < 256) → 0 <= j < 8 → byte_of (pack8 f) j = f j.
Proof.
  intros Hf Hj. apply Z.bits_inj'. intros m Hm.
  unfold byte_of. rewrite u8_testbit, Z.shiftr_spec by lia.
  destruct (Z.ltb_spec m 8); cbn [andb].
  - rewrite pack8_testbit by lia. cbn [existsb].
    destruct (below_8 j Hj) as [->|[->|[->|[->|[->|[->|[->| ->]]]]]]];
      byte_bits f m Hf; reflexivity.
  - symmetry. apply byte_testbit_high; [apply Hf|lia].
Qed.

Lemma pack8_u64 f : (∀ i, 0 <= f i < 256) → is_u64 (pack8 f).
Proof.
  intros Hf. apply is_u64_bits.
  - unfold pack8. rewrite range_0_8. cbn [foldl].
    repeat (apply Z.lor_nonneg; split); try lia;
      apply Z.shiftl_nonneg, Hf.
  - intros n Hn. rewrite pack8_testbit by lia. cbn [existsb].
    repeat match goal with
      | |- context [Z.testbit (f ?i) ?k] =>
          rewrite (byte_testbit_high (f i) k) by (try apply Hf; lia)
      end.
    reflexivity.
Qed.

Lemma byte_of_range x i : 0 <= byte_of x i < 256.
Proof. apply u8_range. Qed.

Lemma byte_of_bit x i m :
  0 <= i → 0 <= m →
  Z.testbit (byte_of x i) m = (m <? 8) && Z.testbit x (8 * i + m).
Proof.
  intros Hi Hm. unfold byte_of. rewrite u8_testbit, Z.shiftr_spec by lia.
  do 2 f_equal. lia.
Qed.

(** A 64-bit word is the word of its bytes. *)
Lemma pack8_byte_of x : is_u64 x → pack8 (byte_of x) = x.
Proof.
  intros Hx. apply Z.bits_inj'. intros n Hn.
  rewrite pack8_testbit by lia. cbn [existsb].
  assert (∀ i, 0 <= i < 8 →
            Z.testbit (byte_of x i) (n - 8 * i)
            = (8 * i <=? n) && (n <? 8 * i + 8) && Z.testbit x n) as Hb.
  { intros i Hi. destruct (Z.leb_spec (8 * i) n); cbn [andb].
    - rewrite byte_of_bit by lia.
      replace (8 * i + (n - 8 * i)) with n by lia.
      destruct (Z.ltb_spec (n - 8 * i) 8), (Z.ltb_spec n (8 * i + 8));
        try lia; reflexivity.
    - apply Z.testbit_neg_r. lia. }
  rewrite !Hb by lia.
  destruct (Z_lt_le_dec n 64) as [Hlt|Hge].
  - destruct (Z.testbit x n); rewrite ?andb_false_r; [|reflexivity].
    rewrite !andb_true_r.
    pose proof (Z.div_mod n 8 ltac:(lia)) as En.
    pose proof (Z.mod_pos_bound n 8 ltac:(lia)) as Bn.
    assert (0 <= n / 8 < 8) as Hq by lia.
    destruct (below_8 (n / 8) Hq) as [E|[E|[E|[E|[E|[E|[E|E]]]]]]];
      rewrite E in En;
      repeat match goal with
        | |- context [?a <=? n] => destruct (Z.leb_spec a n); try lia
        | |- context [n <? ?a] => destruct (Z.ltb_spec n a); try lia
        end; reflexivity.
  - rewrite (testbit_u64_high x n Hx Hge). rewrite !andb_false_r. reflexivity.
Qed.

Lemma u64_byte_shift b i :
  0 <= b < 256 → 0 <= i < 8 → u64 (Z.shiftl b (i * 8)) = Z.shiftl b (8 * i).
Proof.
  intros Hb Hi. replace (i * 8) with (8 * i) by lia. unfold u64.
  apply Z.mod_small. rewrite Z.shiftl_mul_pow2 by lia.
  assert (2 ^ (8 * i) <= 2 ^ 56) by (apply Z.pow_le_mono_r; lia).
  assert (0 < 2 ^ (8 * i)) by (apply Z.pow_pos_nonneg; lia).
  split; [lia|]. change (2 ^ 64) with (256 * 2 ^ 56). nia.
Qed.

(** ** The loops "BIT_1" and "iBIT_1" *)

Lemma ld64_pack8 T g : ld64 T g = pack8 (λ i, rd T (8 * g + i)).
Proof. reflexivity. Qed.

Section Transpose.

Variable T : list Z.
Variable M : Z.
Hypothesis HM : 0 <= M.
Hypothesis HM31 : M + 8 < 2 ^ 31.
Hypothesis HT : is_bytes T.

Let extra := M mod 8.
Let esize := M - extra.
Let G := esize / 8.

Lemma group_facts :
  0 <= extra < 8 ∧ esize = 8 * G ∧ 0 <= G ∧ esize <= M ∧ M = esize + extra.
Proof using HM.
  unfold G, esize, extra.
  pose proof (Z.div_mod M 8 ltac:(lia)) as E.
  pose proof (Z.mod_pos_bound M 8 ltac:(lia)) as B.
  assert ((M - M mod 8) / 8 = M / 8) as ->.
  { symmetry. apply Z.div_unique_exact; lia. }
  assert (0 <= M / 8) by (apply Z.div_pos; lia).
  lia.
Qed.

Lemma group_ints :
  Int.rem M 8 = extra ∧ M -! extra = esize ∧ Int.div esize 8 = G
  ∧ steps8 esize = (λ g, 8 * g) <$> range 0 G.
Proof using HM HM31.
  destruct group_facts as (He & Hes & HG & Hle & HMe).
  unfold Int.rem, Int.sub, Int.div.
  rewrite Z.rem_mod_nonneg by lia. fold extra.
  rewrite (i32_id (M - extra)) by (unfold in_range; lia). fold esize.
  rewrite Z.quot_div_nonneg by lia. fold G.
  rewrite (i32_id G) by (unfold in_range; lia).
  repeat split. unfold steps8. do 2 f_equal.
  rewrite Hes. symmetry. apply Z.div_unique with 7; lia.
Qed.

Lemma group_index_inj g i g' i' :
  0 <= g < G → 0 <= g' < G → 0 <= i → 0 <= i' →
  g + i * G = g' + i' * G → g = g' ∧ i = i'.
Proof using Type.
  intros Hg Hg' Hi Hi' E. assert (i = i') as -> by nia. split; [lia|reflexivity].
Qed.

Lemma transpose_group_eq g bmp :
  0 <= g < G →
  transpose_group esize T bmp (8 * g)
  = foldl (λ b i, wr b (g + i * G) (byte_of (butterfly (ld64 T g)) i))
          bmp (range 0 8).
Proof using HM HM31.
  intros Hg. destruct group_facts as (He & Hes & HG & Hle & HMe).
  destruct group_ints as (_ & _ & EG & _).
  unfold transpose_group. rewrite EG.
  assert (Int.div (8 * g) 8 = g) as ->.
  { unfold Int.div. rewrite Z.quot_div_nonneg by lia.
    rewrite Z.mul_comm, Z.div_mul by lia. apply i32_id. unfold in_range. lia. }
  apply foldl_ext_in. intros i b Hi. apply elem_of_range in Hi.
  unfold Int.add, Int.mul.
  assert (0 <= i * G <= 7 * G) by nia.
  rewrite (i32_id (i * G)) by (unfold in_range; lia).
  rewrite i32_id by (unfold in_range; lia). reflexivity.
Qed.

(** The transposed words, byte [i] of group [g] at index [g + i * G]. *)
Lemma transpose_spec bmp :
  esize <= Z.of_nat (length bmp) →
  length (foldl (transpose_group esize T) bmp (steps8 esize)) = length bmp
  ∧ (∀ g i, 0 <= g < G → 0 <= i < 8 →
       rd (foldl (transpose_group esize T) bmp (steps8 esize)) (g + i * G)
       = byte_of (butterfly (ld64 T g)) i)
  ∧ (∀ p, esize <= p →
       rd (foldl (transpose_group esize T) bmp (steps8 esize)) p = rd bmp p).
Proof using HM HM31.
  intros Hlb. destruct group_facts as (He & Hes & HG & Hle & HMe).
  destruct group_ints as (_ & _ & _ & ->). rewrite foldl_fmap.
  destruct (loop_writes0 (λ b g, transpose_group esize T b (8 * g))
              (λ g p v, ∃ i, 0 <= i < 8 ∧ p = g + i * G
                             ∧ v = byte_of (butterfly (ld64 T g)) i)
              0 G bmp HG) as (Hl & Hw & Hf).
  - intros g a Hg Hla _. rewrite transpose_group_eq by exact Hg.
    destruct (scatter (λ i, g + i * G)
                (λ i, byte_of (butterfly (ld64 T g)) i) 0 8 a ltac:(lia))
      as (Hl' & Hw' & Hf').
    + intros i Hi. rewrite Hla. nia.
    + intros i i' Hi Hi' E.
      apply (group_index_inj g i g i') in E; lia.
    + split; [rewrite Hl'; exact Hla|]. split.
      * intros p v (i & Hi & -> & ->). apply Hw', Hi.
      * intros p Hnw. apply Hf'. intros i Hi <-.
        apply (Hnw (byte_of (butterfly (ld64 T g)) i)). exists i. auto.
  - intros g g' p v v' Hg Hg' (i & Hi & -> & _) (i' & Hi' & E & _).
    apply (group_index_inj g i g' i') in E; lia.
  - split; [exact Hl|]. split.
    + intros g i Hg Hi. apply (Hw g); [exact Hg|]. exists i. auto.
    + intros p Hp. apply Hf. intros g v Hg (i & Hi & -> & _). nia.
Qed.

Lemma copy_leftover_spec from to :
  M <= Z.of_nat (length to) →
  length (copy_leftover M extra from to) = length to
  ∧ (∀ p, esize <= p < M → rd (copy_leftover M extra from to) p = rd from p)
  ∧ (∀ p, p < esize ∨ M <= p → rd (copy_leftover M extra from to) p = rd to p).
Proof using HM HM31.
  intros Hl. destruct group_facts as (He & Hes & HG & Hle & HMe).
  unfold copy_leftover.
  rewrite (foldl_ext_in _ (λ to i, wr to (esize + i) (rd from (esize + i)))).
  2:{ intros i a Hi. apply elem_of_range in Hi.
      assert (M -! extra +! i = esize + i) as ->; [|reflexivity].
      unfold Int.sub, Int.add.
      rewrite (i32_id (M - extra)) by (unfold in_range; lia). fold esize.
      apply i32_id. unfold in_range. lia. }
  destruct (scatter (λ i, esize + i) (λ i, rd from (esize + i)) 0 extra to
              ltac:(lia)) as (Hl' & Hw' & Hf').
  - intros i Hi. lia.
  - intros i i' _ _ E. lia.
  - split; [exact Hl'|]. split.
    + intros p Hp. replace p with (esize + (p - esize)) by lia.
      apply (Hw' (p - esize)). lia.
    + intros p Hp. apply Hf'. intros i Hi. lia.
Qed.

Lemma ld64_u64 g : is_u64 (ld64 T g).
Proof using HT. rewrite ld64_pack8. apply pack8_u64. intros i. apply is_bytes_rd, HT. Qed.

Lemma ld64_byte g i : 0 <= i < 8 → byte_of (ld64 T g) i = rd T (8 * g + i).
Proof using HT.
  intros Hi. rewrite ld64_pack8.
  apply (pack8_byte (λ i, rd T (8 * g + i))); [|exact Hi].
  intros j. apply is_bytes_rd, HT.
Qed.

Lemma st64_spec tmp g x :
  0 <= g → 8 * g + 8 <= Z.of_nat (length tmp) →
  length (st64 tmp g x) = length tmp
  ∧ (∀ i, 0 <= i < 8 → rd (st64 tmp g x) (8 * g + i) = byte_of x i)
  ∧ (∀ p, p < 8 * g ∨ 8 * g + 8 <= p → rd (st64 tmp g x) p = rd tmp p).
Proof using All.
  intros Hg Hl. unfold st64.
  destruct (scatter (λ i, 8 * g + i) (λ i, byte_of x i) 0 8 tmp ltac:(lia))
    as (Hl' & Hw' & Hf').
  - intros i Hi. lia.
  - intros i i' _ _ E. lia.
  - split; [exact Hl'|]. split; [exact Hw'|].
    intros p Hp. apply Hf'. intros i Hi. lia.
Qed.

Lemma untranspose_group_eq D tmp g x :
  0 <= g < G → is_u64 x →
  (∀ i, 0 <= i < 8 → rd D (g + i * G) = byte_of x i) →
  untranspose_group esize D tmp (8 * g) = st64 tmp g (butterfly x).
Proof using HM HM31.
  intros Hg Hx HD. destruct group_facts as (He & Hes & HG & Hle & HMe).
  destruct group_ints as (_ & _ & EG & _).
  unfold untranspose_group. rewrite EG.
  assert (Int.div (8 * g) 8 = g) as ->.
  { unfold Int.div. rewrite Z.quot_div_nonneg by lia.
    rewrite Z.mul_comm, Z.div_mul by lia. apply i32_id. unfold in_range. lia. }
  do 2 f_equal.
  rewrite <- (pack8_byte_of x Hx). unfold pack8.
  apply foldl_ext_in. intros i a Hi. apply elem_of_range in Hi.
  unfold Int.add, Int.mul.
  assert (0 <= i * G <= 7 * G) by nia.
  rewrite (i32_id (i * G)) by (unfold in_range; lia).
  rewrite (i32_id (g + i * G)) by (unfold in_range; lia).
  rewrite HD by exact Hi.
  rewrite u64_byte_shift by (apply byte_of_range || lia). reflexivity.
Qed.

(** Undoing the transposition of [T] gives the first [esize] bytes of [T]
    back. *)
Lemma untranspose_spec D tmp :
  esize <= Z.of_nat (length tmp) →
  (∀ g i, 0 <= g < G → 0 <= i < 8 →
     rd D (g + i * G) = byte_of (butterfly (ld64 T g)) i) →
  length (foldl (untranspose_group esize D) tmp (steps8 esize)) = length tmp
  ∧ (∀ p, 0 <= p < esize →
       rd (foldl (untranspose_group esize D) tmp (steps8 esize)) p = rd T p)
  ∧ (∀ p, esize <= p →
       rd (foldl (untranspose_group esize D) tmp (steps8 esize)) p = rd tmp p).
Proof using HM HM31 HT.
  intros Hl HD. destruct group_facts as (He & Hes & HG & Hle & HMe).
  destruct group_ints as (_ & _ & _ & ->). rewrite foldl_fmap.
  destruct (loop_writes0 (λ a g, untranspose_group esize D a (8 * g))
              (λ g p v, 8 * g <= p < 8 * g + 8 ∧ v = rd T p)
              0 G tmp HG) as (Hl' & Hw & Hf).
  - intros g a Hg Hla _.
    rewrite (untranspose_group_eq D a g (butterfly (ld64 T g)) Hg
               (butterfly_u64 _ (ld64_u64 g)) (λ i Hi, HD g i Hg Hi)).
    rewrite butterfly_involutive by apply ld64_u64.
    destruct (st64_spec a g (ld64 T g)) as (Hls & Hws & Hfs); [lia|lia|].
    split; [rewrite Hls; exact Hla|]. split.
    + intros p v [Hp ->]. replace p with (8 * g + (p - 8 * g)) by lia.
      rewrite Hws by lia. apply ld64_byte. lia.
    + intros p Hnw. apply Hfs.
      destruct (Z_lt_le_dec p (8 * g)); [lia|].
      destruct (Z_lt_le_dec p (8 * g + 8)); [|lia].
      exfalso. apply (Hnw (rd T p)). split; [lia|reflexivity].
  - intros g g' p v v' Hg Hg' [Hp _] [Hp' _]. lia.
  - split; [exact Hl'|]. split.
    + intros p Hp. apply (Hw (p / 8)).
      * split; [apply Z.div_pos; lia|]. apply Z.div_lt_upper_bound; lia.
      * pose proof (Z.div_mod p 8 ltac:(lia)).
        pose proof (Z.mod_pos_bound p 8 ltac:(lia)).
        split; [lia|reflexivity].
    + intros p Hp. apply Hf. intros g v Hg [Hpg _]. lia.
Qed.

End Transpose.

(** ** The loops "decode" *)

Lemma u8_i32_add a b : u8 (a +! b) = u8 (a + b).
Proof. unfold Int.add. apply u8_i32. Qed.

Lemma u8_add_cong a a' b b' :
  u8 a = u8 a' → u8 b = u8 b' → u8 (a + b) = u8 (a' + b').
Proof.
  intros Ea Eb. rewrite <- u8_add_l, <- u8_add_r, Ea, Eb, u8_add_l, u8_add_r.
  reflexivity.
Qed.

Lemma row_index_inj width y q y' q' :
  0 <= q < width → 0 <= q' < width →
  y * width + q = y' * width + q' → y = y' ∧ q = q'.
Proof. intros Hq Hq' E. assert (y = y') as -> by nia. split; [reflexivity|lia]. Qed.

Section Decode.

Variables w h : Z.
Variable bmp0 : list Z.
Variable tmp : list Z.
Hypothesis Hw : 1 <= w.
Hypothesis Hh : 1 <= h.
Hypothesis Hfit : 54 + h * row_stride w < 2 ^ 31.
Hypothesis Hbytes : is_bytes bmp0.

Let width := row_stride w.
Let N := w * h.
Let B (y x c : Z) : Z := rd bmp0 (y * width + x * 3 + c).

Hypothesis Htmp : ∀ y x k, 0 <= y < h → 0 <= x < w → 0 <= k < 3 →
  rd tmp (k * N + y + x * h) = residual B y x k.

Local Abbreviation carries := (predictor_carried B).

Lemma decode_values_spec y x idx prev :
  0 <= y < h → 0 <= x < w →
  (∀ k, 0 <= k < 3 → idx k = k * N + y + x * h) →
  carries y x prev →
  u8 (c0 (decode_values tmp idx prev)) = B y x 0
  ∧ u8 (c1 (decode_values tmp idx prev)) = B y x 1
  ∧ u8 (c2 (decode_values tmp idx prev)) = B y x 2.
Proof using All.
  intros Hy Hx Hidx (P0 & P1 & P2).
  unfold decode_values. cbn [c0 c1 c2].
  rewrite !Hidx, !Htmp by lia.
  unfold residual. cbn [Z.eqb].
  set (d0 := B y x 0 - predictor B y x 0).
  set (d1 := B y x 1 - predictor B y x 1).
  set (d2 := B y x 2 - predictor B y x 2).
  assert (∀ c, 0 <= B y x c < 256) as HB by (intros; apply is_bytes_rd, Hbytes).
  assert (∀ c, 0 <= predictor B y x c < 256) as HP.
  { intros c. unfold predictor. destruct (x =? 0); [destruct (y =? 0)|];
      try (apply is_bytes_rd, Hbytes). lia. }
  pose proof (HB 0). pose proof (HB 1). pose proof (HB 2).
  pose proof (HP 0). pose proof (HP 1). pose proof (HP 2).
  pose proof (iTCMS_TCMS_residual (d0 - d1) ltac:(subst d0 d1; lia)) as E0.
  pose proof (iTCMS_TCMS_residual d1 ltac:(subst d1; lia)) as E1.
  pose proof (iTCMS_TCMS_residual (d2 - d1) ltac:(subst d2 d1; lia)) as E2.
  rewrite !u8_i32_add.
  split; [|split].
  - rewrite (u8_add_cong _ (d0 - d1 + d1) _ (predictor B y x 0)).
    + replace (d0 - d1 + d1 + predictor B y x 0) with (B y x 0)
        by (subst d0; lia).
      apply u8_id, HB.
    + rewrite u8_i32_add. apply u8_add_cong; assumption.
    + rewrite P0. symmetry. apply u8_id, HP.
  - rewrite (u8_add_cong _ d1 _ (predictor B y x 1)).
    + replace (d1 + predictor B y x 1) with (B y x 1) by (subst d1; lia).
      apply u8_id, HB.
    + exact E1.
    + rewrite P1. symmetry. apply u8_id, HP.
  - rewrite (u8_add_cong _ (d2 - d1 + d1) _ (predictor B y x 2)).
    + replace (d2 - d1 + d1 + predictor B y x 2) with (B y x 2)
        by (subst d2; lia).
      apply u8_id, HB.
    + rewrite u8_i32_add. apply u8_add_cong; assumption.
    + rewrite P2. symmetry. apply u8_id, HP.
Qed.

Lemma store_pixel_spec a o v :
  0 <= o → o + 2 < Z.of_nat (length a) → o + 2 < 2 ^ 31 →
  length (store_pixel a o v) = length a
  ∧ rd (store_pixel a o v) o = u8 (c0 v)
  ∧ rd (store_pixel a o v) (o + 1) = u8 (c1 v)
  ∧ rd (store_pixel a o v) (o + 2) = u8 (c2 v)
  ∧ (∀ p, p < o ∨ o + 3 <= p → rd (store_pixel a o v) p = rd a p).
Proof using All.
  intros Ho Hl H31. unfold store_pixel. unfold Int.add.
  rewrite !i32_id by (unfold in_range; lia). rewrite Z.add_0_r.
  rewrite !wr_length. split; [reflexivity|].
  split; [rewrite !rd_wr_other by lia; apply rd_wr_same; lia|].
  split; [rewrite rd_wr_other by lia; apply rd_wr_same; rewrite wr_length; lia|].
  split; [apply rd_wr_same; rewrite !wr_length; lia|].
  intros p Hp. rewrite !rd_wr_other by lia. reflexivity.
Qed.

Lemma carries_next y x v :
  0 <= x →
  u8 (c0 v) = B y x 0 → u8 (c1 v) = B y x 1 → u8 (c2 v) = B y x 2 →
  carries y (x + 1) v.
Proof using All.
  intros Hx E0 E1 E2. unfold predictor_carried, predictor.
  destruct (Z.eqb_spec (x + 1) 0); [lia|].
  replace (x + 1 - 1) with x by lia. auto.
Qed.

Lemma carries_down y v :
  0 <= y →
  u8 (c0 v) = B y 0 0 → u8 (c1 v) = B y 0 1 → u8 (c2 v) = B y 0 2 →
  carries (y + 1) 0 v.
Proof using All.
  intros Hy E0 E1 E2. unfold predictor_carried, predictor. cbn [Z.eqb].
  destruct (Z.eqb_spec (y + 1) 0); [lia|].
  replace (y + 1 - 1) with y by lia. auto.
Qed.

(** The first loop: column 0 of every row. *)
Lemma decode_first_spec a0 :
  Z.of_nat (length a0) = h * width →
  ∃ prev A1,
    foldl (decode_first width N tmp) (Px 0 0 0, a0) (range 0 h) = (prev, A1)
    ∧ length A1 = length a0
    ∧ (∀ y k, 0 <= y < h → 0 <= k < 3 → rd A1 (y * width + k) = B y 0 k)
    ∧ (∀ p, (∀ y k, 0 <= y < h → 0 <= k < 3 → p ≠ y * width + k) →
            rd A1 p = rd a0 p).
Proof using All.
  intros Hl.
  pose proof (geometry w h Hw Hh Hfit) as (Hs & Hp & Hlt & HN & H3 & Hhw & Hhb).
  fold width in Hs, Hp, Hlt, H3, Hhw, Hhb. fold N in HN, H3.
  destruct (loop_writes (decode_first width N tmp)
              (λ y prev, carries y 0 prev)
              (λ y p v, ∃ k, 0 <= k < 3 ∧ p = y * width + k ∧ v = B y 0 k)
              0 h (Px 0 0 0) a0 ltac:(lia))
    as (prev & A1 & E & _ & Hl1 & Hw1 & Hf1).
  - unfold predictor_carried, predictor. cbn. auto.
  - intros y prev a Hy Hc Hla _.
    pose proof (pixel_index w h Hw Hh Hfit y 0 2 Hy ltac:(lia) ltac:(lia))
      as (I1 & I2 & _). fold width in I1, I2.
    pose proof (plane_index w h Hw Hh Hfit y 0 Hy ltac:(lia)) as (_ & J2).
    fold N in J2.
    unfold decode_first.
    destruct (decode_values_spec y 0 (λ k, k *! N +! y) prev Hy ltac:(lia))
      as (E0 & E1 & E2); [|exact Hc|].
    { intros k Hk. unfold Int.add, Int.mul.
      assert (0 <= k * N <= 2 * N)
        by (split; [apply Z.mul_nonneg_nonneg | apply Z.mul_le_mono_nonneg_r]; lia).
      rewrite (i32_id (k * N)) by (unfold in_range; lia).
      rewrite i32_id by (unfold in_range; lia). lia. }
    assert (y *! width = y * width) as ->
      by (unfold Int.mul; apply i32_id; unfold in_range; lia).
    destruct (store_pixel_spec a (y * width)
                (decode_values tmp (λ k, k *! N +! y) prev))
      as (Sl & S0 & S1 & S2 & Sf); [lia|lia|lia|].
    eexists. eexists. split; [reflexivity|].
    split; [apply carries_down; (lia || assumption)|].
    split; [rewrite Sl; exact Hla|]. split.
    + intros p v (k & Hk & -> & ->). unfold B.
      assert (k = 0 ∨ k = 1 ∨ k = 2) as [->|[->| ->]] by lia.
      * rewrite Z.add_0_r, S0. exact E0.
      * rewrite S1. exact E1.
      * rewrite S2. exact E2.
    + intros p Hnw. apply Sf.
      destruct (Z_lt_le_dec p (y * width)); [lia|].
      destruct (Z_lt_le_dec p (y * width + 3)); [|lia].
      exfalso. apply (Hnw (B y 0 (p - y * width))).
      exists (p - y * width). split; [lia|]. split; [lia|reflexivity].
  - intros y y' p v v' Hy Hy' (k & Hk & -> & _) (k' & Hk' & E & _).
    apply (row_index_inj width y k y' k') in E; lia.
  - exists prev, A1. split; [exact E|]. split; [exact Hl1|]. split.
    + intros y k Hy Hk. apply (Hw1 y); [exact Hy|]. exists k. auto.
    + intros p Hp'. apply Hf1. intros y v Hy (k & Hk & -> & _).
      apply (Hp' y k Hy Hk). reflexivity.
Qed.

(** The inner loop of the second loop: the rest of row [y]. *)
Lemma decode_row_spec y a :
  0 <= y < h → Z.of_nat (length a) = h * width →
  (∀ k, 0 <= k < 3 → rd a (y * width + k) = B y 0 k) →
  length (decode_row w h width N tmp a y) = length a
  ∧ (∀ x k, 1 <= x < w → 0 <= k < 3 →
       rd (decode_row w h width N tmp a y) (y * width + x * 3 + k) = B y x k)
  ∧ (∀ p, (∀ x k, 1 <= x < w → 0 <= k < 3 → p ≠ y * width + x * 3 + k) →
          rd (decode_row w h width N tmp a y) p = rd a p).
Proof using All.
  intros Hy Hl Hcol.
  pose proof (geometry w h Hw Hh Hfit) as (Hs & Hp & Hlt & HN & H3 & Hhw & Hhb).
  fold width in Hs, Hp, Hlt, H3, Hhw, Hhb. fold N in HN, H3.
  pose proof (pixel_index w h Hw Hh Hfit y 0 2 Hy ltac:(lia) ltac:(lia))
    as (I1 & I2 & _). fold width in I1, I2.
  assert (∀ c, 0 <= B y 0 c < 256) as HB by (intros; apply is_bytes_rd, Hbytes).
  unfold decode_row.
  assert (y *! width = y * width) as Eyw
    by (unfold Int.mul; apply i32_id; unfold in_range; lia).
  pose proof (Hcol 0 ltac:(lia)) as Hcol0. rewrite Z.add_0_r in Hcol0.
  assert (Px (rd a (y *! width +! 0)) (rd a (y *! width +! 1))
             (rd a (y *! width +! 2))
          = Px (B y 0 0) (B y 0 1) (B y 0 2)) as ->.
  { rewrite Eyw. unfold Int.add. rewrite !i32_id by (unfold in_range; lia).
    rewrite Z.add_0_r, Hcol0, (Hcol 1), (Hcol 2) by lia. reflexivity. }
  destruct (loop_writes (decode_pixel h width N tmp y)
              (λ x prev, carries y x prev)
              (λ x p v, ∃ k, 0 <= k < 3 ∧ p = y * width + x * 3 + k
                             ∧ v = B y x k)
              1 w (Px (B y 0 0) (B y 0 1) (B y 0 2)) a ltac:(lia))
    as (prev & A & E & _ & Hl1 & Hw1 & Hf1).
  - apply (carries_next y 0); cbn [c0 c1 c2]; try lia; apply u8_id, HB.
  - intros x prev a' Hx Hc Hla _.
    pose proof (pixel_index w h Hw Hh Hfit y x 2 Hy ltac:(lia) ltac:(lia))
      as (_ & I3 & _). fold width in I3.
    pose proof (plane_index w h Hw Hh Hfit y x Hy ltac:(lia)) as (J1 & J2).
    fold N in J2.
    unfold decode_pixel.
    destruct (decode_values_spec y x (λ k, k *! N +! y +! x *! h) prev Hy
                ltac:(lia)) as (E0 & E1 & E2); [|exact Hc|].
    { intros k Hk. unfold Int.add, Int.mul.
      assert (0 <= k * N <= 2 * N)
        by (split; [apply Z.mul_nonneg_nonneg | apply Z.mul_le_mono_nonneg_r]; lia).
      rewrite (i32_id (k * N)), (i32_id (x * h)) by (unfold in_range; lia).
      rewrite (i32_id (k * N + y)) by (unfold in_range; lia).
      apply i32_id. unfold in_range. lia. }
    assert (y *! width +! x *! 3 = y * width + x * 3) as ->.
    { unfold Int.add, Int.mul.
      rewrite (i32_id (y * width)), (i32_id (x * 3)) by (unfold in_range; lia).
      apply i32_id. unfold in_range. lia. }
    destruct (store_pixel_spec a' (y * width + x * 3)
                (decode_values tmp (λ k, k *! N +! y +! x *! h) prev))
      as (Sl & S0 & S1 & S2 & Sf); [lia|lia|lia|].
    eexists. eexists. split; [reflexivity|].
    split; [apply carries_next; (lia || assumption)|].
    split; [rewrite Sl; exact Hla|]. split.
    + intros p v (k & Hk & -> & ->).
      assert (k = 0 ∨ k = 1 ∨ k = 2) as [->|[->| ->]] by lia.
      * rewrite Z.add_0_r, S0. exact E0.
      * rewrite S1. exact E1.
      * rewrite S2. exact E2.
    + intros p Hnw. apply Sf.
      destruct (Z_lt_le_dec p (y * width + x * 3)); [lia|].
      destruct (Z_lt_le_dec p (y * width + x * 3 + 3)); [|lia].
      exfalso. apply (Hnw (B y x (p - (y * width + x * 3)))).
      exists (p - (y * width + x * 3)). split; [lia|]. split; [lia|reflexivity].
  - intros x x' p v v' Hx Hx' (k & Hk & -> & _) (k' & Hk' & E & _). lia.
  - rewrite E. cbn [snd]. split; [exact Hl1|]. split.
    + intros x k Hx Hk. apply (Hw1 x); [exact Hx|]. exists k. auto.
    + intros p Hp'. apply Hf1. intros x v Hx (k & Hk & -> & _).
      apply (Hp' x k Hx Hk). reflexivity.
Qed.

(** The second loop: the columns from 1 on of every row. *)
Lemma decode_rows_spec A1 :
  Z.of_nat (length A1) = h * width →
  (∀ y k, 0 <= y < h → 0 <= k < 3 → rd A1 (y * width + k) = B y 0 k) →
  length (foldl (decode_row w h width N tmp) A1 (range 0 h)) = length A1
  ∧ (∀ y x k, 0 <= y < h → 1 <= x < w → 0 <= k < 3 →
       rd (foldl (decode_row w h width N tmp) A1 (range 0 h))
          (y * width + x * 3 + k) = B y x k)
  ∧ (∀ p, (∀ y x k, 0 <= y < h → 1 <= x < w → 0 <= k < 3 →
                    p ≠ y * width + x * 3 + k) →
          rd (foldl (decode_row w h width N tmp) A1 (range 0 h)) p = rd A1 p).
Proof using All.
  intros Hl Hcol.
  pose proof (geometry w h Hw Hh Hfit) as (Hs & Hp & Hlt & HN & H3 & Hhw & Hhb).
  fold width in Hs, Hp, Hlt, H3, Hhw, Hhb. fold N in HN, H3.
  destruct (loop_writes0 (decode_row w h width N tmp)
              (λ y p v, ∃ x k, 1 <= x < w ∧ 0 <= k < 3
                               ∧ p = y * width + x * 3 + k ∧ v = B y x k)
              0 h A1 ltac:(lia)) as (Hl2 & Hw2 & Hf2).
  - intros y a Hy Hla Hfr.
    destruct (decode_row_spec y a Hy ltac:(lia)) as (Rl & Rw & Rf).
    + intros k Hk. rewrite Hfr; [apply Hcol; assumption|].
      intros y' v Hy' (x' & k' & Hx' & Hk' & E & _).
      replace (y' * width + x' * 3 + k') with (y' * width + (x' * 3 + k')) in E
        by lia.
      apply (row_index_inj width y k y' (x' * 3 + k')) in E; lia.
    + split; [rewrite Rl; exact Hla|]. split.
      * intros p v (x & k & Hx & Hk & -> & ->). apply Rw; assumption.
      * intros p Hnw. apply Rf. intros x k Hx Hk ->.
        apply (Hnw (B y x k)). exists x, k. auto.
  - intros y y' p v v' Hy Hy' (x & k & Hx & Hk & -> & _)
      (x' & k' & Hx' & Hk' & E & _).
    replace (y * width + x * 3 + k) with (y * width + (x * 3 + k)) in E by lia.
    replace (y' * width + x' * 3 + k') with (y' * width + (x' * 3 + k')) in E
      by lia.
    apply (row_index_inj width y (x * 3 + k) y' (x' * 3 + k')) in E; lia.
  - split; [exact Hl2|]. split.
    + intros y x k Hy Hx Hk. apply (Hw2 y); [exact Hy|]. exists x, k. auto.
    + intros p Hp'. apply Hf2. intros y v Hy (x & k & Hx & Hk & -> & _).
      apply (Hp' y x k Hy Hx Hk). reflexivity.
Qed.

(** "set padding bytes (if any) to zero" *)
Lemma zero_padding_spec a :
  Z.of_nat (length a) = h * width →
  length (zero_padding w h width (row_pad w) a) = length a
  ∧ (∀ y q, 0 <= y < h → w * 3 <= q < width →
       rd (zero_padding w h width (row_pad w) a) (y * width + q) = 0)
  ∧ (∀ p, (∀ y q, 0 <= y < h → w * 3 <= q < width → p ≠ y * width + q) →
          rd (zero_padding w h width (row_pad w) a) p = rd a p).
Proof using Hw Hh Hfit.
  intros Hl.
  pose proof (geometry w h Hw Hh Hfit) as (Hs & Hp & Hlt & HN & H3 & Hhw & Hhb).
  fold width in Hs, Hp, Hlt, H3, Hhw, Hhb. fold N in HN, H3.
  unfold zero_padding. rewrite (row_pad_stride w h Hw Hh Hfit). fold width.
  destruct (Z.ltb_spec 0 (width - w * 3)) as [Hpad|Hpad].
  2:{ split; [reflexivity|]. split; [intros; lia|reflexivity]. }
  assert (w *! 3 = w * 3) as ->
    by (unfold Int.mul; apply i32_id; unfold in_range; lia).
  destruct (loop_writes0
              (λ b y, foldl (λ b x, wr b (y *! width +! x) 0) b
                            (range (w * 3) width))
              (λ y p v, ∃ q, w * 3 <= q < width ∧ p = y * width + q ∧ v = 0)
              0 h a ltac:(lia)) as (Hl2 & Hw2 & Hf2).
  - intros y b Hy Hlb _.
    rewrite (foldl_ext_in _ (λ b x, wr b (y * width + x) 0)).
    2:{ intros x c Hx. apply elem_of_range in Hx.
        assert (y *! width +! x = y * width + x) as ->; [|reflexivity].
        assert (0 <= y * width ∧ y * width + width <= h * width) by nia.
        unfold Int.add, Int.mul.
        rewrite (i32_id (y * width)) by (unfold in_range; lia).
        apply i32_id. unfold in_range. lia. }
    destruct (scatter (λ x, y * width + x) (λ _, 0) (w * 3) width b ltac:(lia))
      as (Sl & Sw & Sf).
    + intros x Hx. assert (0 <= y * width ∧ y * width + width <= h * width) by nia.
      lia.
    + intros x x' _ _ E. lia.
    + split; [rewrite Sl; exact Hlb|]. split.
      * intros p v (q & Hq & -> & ->). apply (Sw q Hq).
      * intros p Hnw. apply Sf. intros x Hx <-. apply (Hnw 0). exists x. auto.
  - intros y y' p v v' Hy Hy' (q & Hq & -> & _) (q' & Hq' & E & _).
    apply (row_index_inj width y q y' q') in E; lia.
  - split; [exact Hl2|]. split.
    + intros y q Hy Hq. apply (Hw2 y); [exact Hy|]. exists q. auto.
    + intros p Hp'. apply Hf2. intros y v Hy (q & Hq & -> & _).
      apply (Hp' y q Hy Hq). reflexivity.
Qed.

(** The three loops together rebuild every pixel and zero the padding. *)
Lemma decode_spec a0 :
  Z.of_nat (length a0) = h * width →
  let A := zero_padding w h width (row_pad w)
             (foldl (decode_row w h width N tmp)
                    (snd (foldl (decode_first width N tmp) (Px 0 0 0, a0)
                                (range 0 h)))
                    (range 0 h)) in
  length A = length a0
  ∧ (∀ y x k, 0 <= y < h → 0 <= x < w → 0 <= k < 3 →
       rd A (y * width + x * 3 + k) = B y x k)
  ∧ (∀ y q, 0 <= y < h → w * 3 <= q < width → rd A (y * width + q) = 0).
Proof using All.
  intros Hl.
  pose proof (geometry w h Hw Hh Hfit) as (Hs & Hp & Hlt & HN & H3 & Hhw & Hhb).
  fold width in Hs, Hp, Hlt, H3, Hhw, Hhb. fold N in HN, H3.
  destruct (decode_first_spec a0 Hl) as (prev & A1 & E1 & L1 & W1 & _).
  rewrite E1. cbn [snd].
  destruct (decode_rows_spec A1 ltac:(lia) W1) as (L2 & W2 & F2).
  destruct (zero_padding_spec
              (foldl (decode_row w h width N tmp) A1 (range 0 h)) ltac:(lia))
    as (L3 & W3 & F3).
  cbv zeta. split; [lia|]. split; [|exact W3].
  intros y x k Hy Hx Hk.
  rewrite F3.
  2:{ intros y' q Hy' Hq E.
      replace (y * width + x * 3 + k) with (y * width + (x * 3 + k)) in E by lia.
      apply (row_index_inj width y (x * 3 + k) y' q) in E; lia. }
  destruct (Z.eq_dec x 0) as [->|Hx0].
  - rewrite F2.
    + replace (y * width + 0 * 3 + k) with (y * width + k) by lia.
      rewrite W1 by assumption. reflexivity.
    + intros y' x' k' Hy' Hx' Hk' E.
      replace (y * width + 0 * 3 + k) with (y * width + k) in E by lia.
      replace (y' * width + x' * 3 + k') with (y' * width + (x' * 3 + k')) in E
        by lia.
      apply (row_index_inj width y k y' (x' * 3 + k')) in E; lia.
  - apply W2; (assumption || lia).
Qed.

End Decode.

(** ** The pixel region, forward and back *)

Lemma is_bytes_new_uint64 junk n : is_bytes (new_uint64 junk n).
Proof.
  unfold is_bytes, new_uint64. apply Forall_fmap, Forall_forall.
  intros x _. apply u8_range.
Qed.

Lemma is_bytes_encode_rows w h width newsize bmp tmp :
  is_bytes tmp → is_bytes (encode_rows w h width newsize bmp tmp).
Proof.
  unfold encode_rows. apply foldl_keeps. clear tmp. intros tmp y Ht.
  unfold encode_row.
  apply (foldl_keeps (λ s : px * list Z, is_bytes (snd s))); [|exact Ht].
  intros [p a] x Ha. cbn [snd] in *. unfold encode_pixel. cbn [snd].
  repeat apply is_bytes_wr. exact Ha.
Qed.

Lemma is_bytes_forward_scratch junk w h width bmp :
  is_bytes (forward_scratch junk w h width bmp).
Proof. apply is_bytes_encode_rows, is_bytes_new_uint64. Qed.

Section Pixels.

Variables w h : Z.
Variable bmp : list Z.
Variables junk1 junk2 : Z → Z.
Hypothesis Hw : 1 <= w.
Hypothesis Hh : 1 <= h.
Hypothesis Hfit : 54 + h * row_stride w < 2 ^ 31.
Hypothesis Hbytes : is_bytes bmp.
Hypothesis Hlen : Z.of_nat (length bmp) = h * row_stride w.

Let width := row_stride w.
Let N := w * h.
Let M := 3 * N.
Let extra := M mod 8.
Let esize := M - extra.
Let G := esize / 8.
Let T := forward_scratch junk1 w h (row_width w) bmp.
Let F := forward_pixels junk1 w h (row_width w) bmp.

Lemma M_facts : 0 <= M ∧ M + 8 < 2 ^ 31 ∧ M <= h * width.
Proof using All.
  pose proof (geometry w h Hw Hh Hfit) as (Hs & Hp & Hlt & HN & H3 & Hhw & Hhb).
  fold width in Hs, Hp, Hlt, H3, Hhw, Hhb. fold N in HN, H3. unfold M. lia.
Qed.

Lemma csize_int : w *! h *! 1 *! 3 = M ∧ row_width w *! h = h * width.
Proof using All.
  destruct M_facts as (M0 & M31 & Mle).
  destruct (csize_facts w h Hw Hh Hfit) as (-> & _).
  split; [reflexivity|].
  rewrite (row_width_stride w h Hw Hh Hfit). fold width.
  unfold Int.mul. rewrite Z.mul_comm. apply i32_id. unfold in_range.
  pose proof (geometry w h Hw Hh Hfit) as (Hs & Hp & Hlt & HN & H3 & Hhw & Hhb).
  fold width in Hhw, Hhb. lia.
Qed.

Lemma groups :
  (0 <= extra < 8 ∧ esize = 8 * G ∧ 0 <= G ∧ esize <= M ∧ M = esize + extra)
  ∧ (Int.rem M 8 = extra ∧ M -! extra = esize ∧ Int.div esize 8 = G
     ∧ steps8 esize = (λ g, 8 * g) <$> range 0 G).
Proof using All.
  destruct M_facts as (M0 & M31 & Mle).
  split; [exact (group_facts M M0) | exact (group_ints M M0 M31)].
Qed.

(** The pixel region after [h_BMP_BIT]: the transposed groups, then the
    residuals left over, then zeros. *)
Lemma forward_pixels_spec :
  length F = length bmp
  ∧ (∀ g i, 0 <= g < G → 0 <= i < 8 →
       rd F (g + i * G) = byte_of (butterfly (ld64 T g)) i)
  ∧ (∀ p, esize <= p < M → rd F p = rd T p)
  ∧ (∀ p, M <= p < h * width → rd F p = 0).
Proof using All.
  destruct M_facts as (M0 & M31 & Mle).
  destruct groups as ((He & Hes & HG & Hle & HMe) & (Erem & Esub & Ediv & Esteps)).
  destruct csize_int as (Ecs & Ewh).
  unfold F, forward_pixels. fold T. rewrite Ecs, Erem, Esub, Ewh.
  destruct (transpose_spec T M M0 M31 bmp) as (L1 & W1 & F1);
    [fold extra; fold esize; lia|].
  fold extra in L1, W1, F1. fold esize in L1, W1, F1. fold G in W1.
  set (D := foldl (transpose_group esize T) bmp (steps8 esize)) in *.
  destruct (copy_leftover_spec M M0 M31 T D) as (L2 & W2 & F2); [lia|].
  fold extra in L2, W2, F2. fold esize in W2, F2.
  set (C := copy_leftover M extra T D) in *.
  destruct (scatter (λ i, i) (λ _, 0) M (h * width) C Mle) as (L3 & W3 & F3).
  - intros i Hi. lia.
  - intros i i' _ _ E. exact E.
  - split; [lia|]. split; [|split].
    + intros g i Hg Hi.
      assert (0 <= i * G <= 7 * G)
        by (split; [apply Z.mul_nonneg_nonneg|apply Z.mul_le_mono_nonneg_r]; lia).
      assert (0 <= g + i * G < esize) by lia.
      rewrite F3 by (intros j Hj; lia). rewrite F2 by lia. apply W1; assumption.
    + intros p Hp. rewrite F3 by (intros j Hj; lia). apply W2, Hp.
    + intros p Hp. apply (W3 p Hp).
Qed.

Hypothesis Hpad : ∀ y q, 0 <= y < h → w * 3 <= q < width →
  rd bmp (y * width + q) = 0.

(** The scratch array of [h_iBMP_BIT] holds the residuals again. *)
Lemma inverse_scratch_spec tmp0 :
  M <= Z.of_nat (length tmp0) →
  ∀ p, 0 <= p < M →
    rd (copy_leftover M extra F
          (foldl (untranspose_group esize F) tmp0 (steps8 esize))) p
    = rd T p.
Proof using All.
  intros Hl0 p Hp.
  destruct M_facts as (M0 & M31 & Mle).
  destruct groups as ((He & Hes & HG & Hle & HMe) & _).
  destruct forward_pixels_spec as (LF & WF & CF & _).
  destruct (untranspose_spec T M M0 M31 (is_bytes_forward_scratch _ _ _ _ _)
              F tmp0 ltac:(fold extra; fold esize; lia) WF) as (L1 & W1 & F1).
  fold extra in L1, W1, F1. fold esize in L1, W1, F1.
  destruct (copy_leftover_spec M M0 M31 F
              (foldl (untranspose_group esize F) tmp0 (steps8 esize)))
    as (L2 & W2 & F2).
  { rewrite L1. exact Hl0. }
  fold extra in L2, W2, F2. fold esize in W2, F2.
  destruct (Z_lt_le_dec p esize) as [Hlt|Hge].
  - rewrite F2 by (left; exact Hlt). apply W1. lia.
  - rewrite W2 by (split; [exact Hge|lia]). apply CF. lia.
Qed.

(** The inverse transform of the pixel region undoes the forward one when
    the padding bytes are zero. *)
Lemma inverse_forward_pixels :
  inverse_pixels junk2 w h (row_pad w) (row_width w) F = bmp.
Proof using All.
  destruct M_facts as (M0 & M31 & Mle).
  destruct groups as ((He & Hes & HG & Hle & HMe) & (Erem & Esub & Ediv & Esteps)).
  destruct csize_int as (Ecs & Ewh).
  pose proof (geometry w h Hw Hh Hfit) as (Hs & Hp & Hlt & HN & H3 & Hhw & Hhb).
  fold width in Hs, Hp, Hlt, H3, Hhw, Hhb. fold N in HN, H3.
  destruct forward_pixels_spec as (LF & _).
  unfold inverse_pixels.
  replace (Int.div (8 *! 8) 8) with 8 by reflexivity.
  rewrite Ecs, Erem, Esub.
  rewrite (newsize_eq w h Hw Hh Hfit), (row_width_stride w h Hw Hh Hfit).
  fold N. fold width.
  set (tmp0 := new_uint64 junk2 (Int.div (M +! 7) 8)).
  assert (M <= Z.of_nat (length tmp0)) as Hl0.
  { unfold tmp0.
    destruct (csize_facts w h Hw Hh Hfit) as (_ & Ed & Hb).
    rewrite Ecs in Ed. rewrite Ed.
    rewrite new_uint64_length by (apply Z.div_pos; lia).
    fold N in Hb |- *. unfold M. lia. }
  pose proof (inverse_scratch_spec tmp0 Hl0) as Hscr.
  set (tmp2 := copy_leftover M extra F
                 (foldl (untranspose_group esize F) tmp0 (steps8 esize))) in *.
  destruct (forward_scratch_spec w h Hw Hh Hfit junk1 bmp Hbytes) as (_ & HT).
  fold T in HT. fold N in HT. fold width in HT.
  assert (∀ y x k, 0 <= y < h → 0 <= x < w → 0 <= k < 3 →
            rd tmp2 (k * N + y + x * h)
            = residual (λ y x c, rd bmp (y * width + x * 3 + c)) y x k) as Htmp.
  { intros y x k Hy Hx Hk. rewrite Hscr; [apply HT; assumption|].
    pose proof (plane_index w h Hw Hh Hfit y x Hy Hx) as (_ & J). fold N in J.
    unfold M. nia. }
  destruct (decode_spec w h bmp tmp2 Hw Hh Hfit Hbytes Htmp F) as (LA & WA & PA).
  { rewrite LF. exact Hlen. }
  fold width in LA, WA, PA. fold N in LA, WA, PA.
  apply array_eq; [lia|].
  intros p Hp'. rewrite LA, LF, Hlen in Hp'. fold width in Hp'.
  pose proof (Z.div_mod p width ltac:(lia)) as Ep.
  pose proof (Z.mod_pos_bound p width ltac:(lia)) as Bq.
  assert (0 <= p / width < h) as Hy.
  { split; [apply Z.div_pos; lia|]. apply Z.div_lt_upper_bound; lia. }
  set (y := p / width) in *. set (q := p mod width) in *.
  replace p with (y * width + q) by lia.
  destruct (Z_lt_le_dec q (w * 3)) as [Hq|Hq].
  - pose proof (Z.div_mod q 3 ltac:(lia)) as Eq.
    pose proof (Z.mod_pos_bound q 3 ltac:(lia)) as Bk.
    assert (0 <= q / 3 < w) as Hx.
    { split; [apply Z.div_pos; lia|]. apply Z.div_lt_upper_bound; lia. }
    replace (y * width + q) with (y * width + q / 3 * 3 + q mod 3) by lia.
    apply WA; assumption.
  - rewrite PA by (assumption || lia). symmetry. apply Hpad; (assumption || lia).
Qed.

End Pixels.

(** ** The whole transform, forward and back *)

Lemma header_app_l (hd px : list Z) : length hd = 54%nat → header (hd ++ px) = hd.
Proof. intros H. unfold header. apply take_app_length'. auto. Qed.

Lemma pixels_app_l (hd px : list Z) : length hd = 54%nat → pixels (hd ++ px) = px.
Proof. intros H. unfold pixels. apply drop_app_length'. auto. Qed.

Lemma get4_header_app data px o :
  54 <= Z.of_nat (length data) → 0 <= o → o + 3 < 54 →
  h_BMP_BIT_get4 (header data ++ px) o = h_BMP_BIT_get4 data o.
Proof.
  intros Hl Ho Ho'. pose proof (header_length data Hl).
  rewrite get4_app_l by lia.
  apply get4_ext. intros k Hk. apply rd_header. lia.
Qed.

Lemma get2_header_app data px o :
  54 <= Z.of_nat (length data) → 0 <= o → o + 1 < 54 →
  h_BMP_BIT_get2 (header data ++ px) o = h_BMP_BIT_get2 data o.
Proof.
  intros Hl Ho Ho'. pose proof (header_length data Hl).
  rewrite get2_app_l by lia.
  apply get2_ext. intros k Hk. apply rd_header. lia.
Qed.

Lemma rd_header_app data px p :
  54 <= Z.of_nat (length data) → p < 54 → rd (header data ++ px) p = rd data p.
Proof.
  intros Hl Hp. pose proof (header_length data Hl).
  rewrite rd_app_l by lia. apply rd_header, Hp.
Qed.

(** [h_iBMP_BIT] accepts what [h_BMP_BIT] produces. *)
Lemma neutralised_supported size data px :
  checked size data → is_bytes data → size = Z.of_nat (length data) →
  unsupported_inv (h_BMP_BIT_get4 data 18) (h_BMP_BIT_get4 data 22)
    (header (neutralise (h_BMP_BIT_get4 data 22)
                        (row_width (h_BMP_BIT_get4 data 18)) data) ++ px)
  = false.
Proof.
  intros Hc Hb Hs.
  pose proof (neutralise_zero size data Hc Hb Hs) as Hz. cbv zeta in Hz.
  destruct Hz as (Z0 & Z1 & Z2 & Z10 & Z14 & Z26 & Z28 & Z30 & Z34 & Z46 & Z50 & _).
  pose proof (ck_size _ _ Hc) as H54. pose proof (ck_w _ _ Hc) as Hw.
  pose proof (ck_h _ _ Hc) as Hh.
  set (N := neutralise (h_BMP_BIT_get4 data 22)
              (row_width (h_BMP_BIT_get4 data 18)) data) in *.
  assert (54 <= Z.of_nat (length N)) as HlN
    by (unfold N; rewrite neutralise_length; lia).
  unfold unsupported_inv.
  rewrite !rd_header_app by lia.
  rewrite !get4_header_app, !get2_header_app by lia.
  rewrite Z0, Z1, Z2, Z10, Z14, Z26, Z28, Z30, Z34, Z46, Z50.
  cbn [Z.eqb negb orb].
  destruct (Z.ltb_spec (h_BMP_BIT_get4 data 18) 1); [lia|].
  destruct (Z.ltb_spec (h_BMP_BIT_get4 data 22) 1); [lia|]. reflexivity.
Qed.

(** C1 (as stated, refuted).  A 1x1 image whose padding byte is not zero is
    accepted, and does not come back: the inverse transform sets the padding
    byte to zero. *)
Lemma padding_not_restored :
  accepted 58 (bmp_1x1 0 10 20 30 255) = true
  ∧ h_iBMP_BIT (λ _, 0) (fst (h_BMP_BIT (λ _, 0) 58 (bmp_1x1 0 10 20 30 255)))
               (snd (h_BMP_BIT (λ _, 0) 58 (bmp_1x1 0 10 20 30 255)))
    ≠ (58, bmp_1x1 0 10 20 30 255).
Proof. split; [reflexivity|]. vm_compute. discriminate. Qed.

(** C1 (amended).  For every buffer of bytes that the forward validator
    accepts, that holds the image its header announces and whose row-padding
    bytes are zero, [h_BMP_BIT] followed by [h_iBMP_BIT] gives the buffer
    back, byte for byte, whatever the scratch arrays held when allocated. *)
Theorem roundtrip junk1 junk2 size data :
  is_bytes data → accepted size data = true → holds_image size data →
  padding_zero data →
  h_iBMP_BIT junk2 (fst (h_BMP_BIT junk1 size data))
                   (snd (h_BMP_BIT junk1 size data))
  = (size, data).
Proof.
  intros Hb Ha Hi Hpad.
  destruct (image_fits size data Ha Hi) as (Hw & Hh & Hfit & Hlen).
  pose proof Ha as Hc. apply accepted_checked in Hc.
  pose proof (ck_size _ _ Hc) as H54. destruct Hi as [Hs _].
  rewrite h_BMP_BIT_accepted by exact Ha. cbn [fst snd].
  set (W := h_BMP_BIT_get4 data 18) in *.
  set (H := h_BMP_BIT_get4 data 22) in *.
  set (N := neutralise H (row_width W) data).
  set (F := forward_pixels junk1 W H (row_width W) (pixels data)).
  assert (54 <= Z.of_nat (length data)) as Hl by lia.
  assert (54 <= Z.of_nat (length N)) as HlN
    by (unfold N; rewrite neutralise_length; lia).
  pose proof (neutralise_zero size data Hc Hb Hs) as Hz. cbv zeta in Hz.
  destruct Hz as (_ & _ & _ & _ & _ & _ & _ & _ & _ & _ & _ & E18 & E22).
  fold W in E18, E22. fold H in E18, E22. fold N in E18, E22.
  unfold h_iBMP_BIT.
  destruct (Z.ltb_spec size 54); [lia|].
  rewrite !get4_header_app by lia. rewrite E18, E22.
  unfold N at 1. unfold W at 1 2. unfold H at 1 2.
  rewrite (neutralised_supported size data F Hc Hb Hs).
  fold W. fold H. fold N.
  pose proof (header_length N HlN) as HlhN.
  rewrite restore_app by exact HlhN.
  unfold N at 1 2. rewrite header_neutralise by exact Hl.
  rewrite restore_neutralise
    by (try (apply is_bytes_take, Hb); rewrite header_length; lia).
  pose proof (header_length data Hl) as Hlh.
  rewrite header_app_l, pixels_app_l by exact Hlh.
  unfold F.
  rewrite (inverse_forward_pixels W H (pixels data) junk1 junk2 Hw Hh Hfit
             (is_bytes_drop _ _ Hb) Hlen).
  - rewrite <- header_split. reflexivity.
  - intros y q Hy Hq. unfold pixels. rewrite rd_drop.
    + unfold padding_zero in Hpad. fold W in Hpad. fold H in Hpad.
      rewrite <- (Hpad y q Hy Hq). f_equal. lia.
    + pose proof (row_stride_bounds W) as [Hsb _].
      assert (0 <= y * row_stride W) by (apply Z.mul_nonneg_nonneg; lia). lia.
Qed.

(** The 3x2 image comes back, the scratch arrays holding arbitrary words
    when allocated. *)
Lemma roundtrip_witness :
  h_iBMP_BIT (λ i, 255 - i) (fst (h_BMP_BIT (λ i, i) 78 bmp_3x2))
                            (snd (h_BMP_BIT (λ i, i) 78 bmp_3x2))
  = (78, bmp_3x2).
Proof.
  apply (roundtrip (λ i, i) (λ i, 255 - i) 78 bmp_3x2).
  - exact bmp_3x2_bytes.
  - reflexivity.
  - exact bmp_3x2_image.
  - exact bmp_3x2_padding.
Defined.

(** * Further properties of the code *)

(** ** TCMS on arbitrary differences *)

(** The forward map looks at the low eight bits of its argument only. *)
Lemma TCMS_u8 v : TCMS v = TCMS (u8 v).
Proof.
  unfold TCMS. apply Z.bits_inj'. intros n Hn.
  rewrite !Z.land_spec, !Z.lxor_spec. unfold shr.
  rewrite !Z.shiftr_spec, !shl_testbit by lia.
  destruct (Z.ltb_spec n 8) as [Hlt|Hge].
  - rewrite !(Z.min_l n 31), !(Z.min_r (n + 31) 31) by lia.
    replace (31 - 24) with 7 by lia.
    destruct (Z.eq_dec n 0) as [->|Hn0].
    + rewrite (Z.testbit_neg_r v (0 - 1)), (Z.testbit_neg_r (u8 v) (0 - 1))
        by lia.
      rewrite u8_testbit by lia. reflexivity.
    + rewrite !u8_testbit by lia.
      destruct (Z.ltb_spec (n - 1) 8); [|lia]. reflexivity.
  - replace (Z.testbit 255 n) with false; [rewrite !andb_false_r; reflexivity|].
    symmetry. apply (byte_testbit_high 255); lia.
Qed.

Lemma iTCMS_TCMS_byte u : 0 <= u < 256 → u8 (iTCMS (TCMS u)) = u.
Proof.
  intros Hu.
  assert (forallb (λ u, u8 (iTCMS (TCMS u)) =? u) (seqZ 0 256) = true) as Hall
    by (vm_compute; reflexivity).
  apply Z.eqb_eq.
  apply (forall_range (λ u, u8 (iTCMS (TCMS u)) =? u) 0 256 Hall). lia.
Qed.

(** X1.  Whatever 32-bit difference [v] the forward stage folds, the
    inverse map gives back its low eight bits: [TCMS v] is a byte that
    depends on [v] modulo 256 only, and [iTCMS (TCMS v)] is congruent to [v]
    modulo 256.  The differences of the encoder range over [-510, 510], not
    over the signed bytes, and lose nothing by it. *)
Theorem TCMS_wraps (v v' : Z) :
  0 <= TCMS v <= 255
  ∧ u8 (iTCMS (TCMS v)) = u8 v
  ∧ (TCMS v = TCMS v' ↔ u8 v = u8 v').
Proof.
  split; [apply TCMS_byte|]. split.
  - rewrite TCMS_u8. apply iTCMS_TCMS_byte, u8_range.
  - split.
    + intros E.
      rewrite <- (iTCMS_TCMS_byte (u8 v)), <- (iTCMS_TCMS_byte (u8 v'))
        by apply u8_range.
      rewrite <- !TCMS_u8, E. reflexivity.
    + intros E. rewrite (TCMS_u8 v), (TCMS_u8 v'), E. reflexivity.
Qed.

(** X2.  On a signed byte the forward map is the zigzag code: [2 s] for
    [s >= 0] and [-2 s - 1] for [s < 0], so that differences of small
    magnitude become small bytes. *)
Theorem TCMS_zigzag (s : Z) :
  -128 <= s <= 127 → TCMS s = if 0 <=? s then 2 * s else -2 * s - 1.
Proof.
  intros Hs.
  assert (forallb (λ s, TCMS s =? (if 0 <=? s then 2 * s else -2 * s - 1))
                  (seqZ (-128) 256) = true) as Hall
    by (vm_compute; reflexivity).
  apply Z.eqb_eq.
  apply (forall_range
           (λ s, TCMS s =? (if 0 <=? s then 2 * s else -2 * s - 1))
           (-128) 256 Hall). lia.
Qed.

Lemma TCMS_zigzag_witness : TCMS (-3) = if 0 <=? -3 then 2 * -3 else -2 * -3 - 1.
Proof. apply (TCMS_zigzag (-3)). lia. Defined.

(** ** The little-endian helpers *)

(** X3.  [h_BMP_BIT_get4] reads a little-endian two's-complement number:
    on bytes [b0 .. b3] its value is [b0 + 2^8 b1 + 2^16 b2 + 2^24 b3], less
    [2^32] when the top bit of [b3] is set; [h_BMP_BIT_get2] reads the
    unsigned number [b0 + 2^8 b1]. *)
Theorem get4_value data o :
  is_bytes data →
  h_BMP_BIT_get4 data o
  = rd data o + 2 ^ 8 * rd data (o + 1) + 2 ^ 16 * rd data (o + 2)
    + 2 ^ 24 * rd data (o + 3)
    - (if 128 <=? rd data (o + 3) then 2 ^ 32 else 0)
  ∧ h_BMP_BIT_get2 data o = rd data o + 2 ^ 8 * rd data (o + 1).
Proof.
  intros Hb.
  pose proof (is_bytes_rd data o Hb) as B0.
  pose proof (is_bytes_rd data (o + 1) Hb) as B1.
  pose proof (is_bytes_rd data (o + 2) Hb) as B2.
  pose proof (is_bytes_rd data (o + 3) Hb) as B3.
  split.
  - set (v := rd data o + 2 ^ 8 * rd data (o + 1) + 2 ^ 16 * rd data (o + 2)
              + 2 ^ 24 * rd data (o + 3)).
    assert (0 <= v < 2 ^ 32) as Hv by (unfold v; lia).
    rewrite (get4_of_bytes data o v).
    + unfold i32. destruct (Z.leb_spec 128 (rd data (o + 3))).
      * replace (v + 2 ^ 31) with (v - 2 ^ 31 + 1 * 2 ^ 32) by lia.
        rewrite Z.mod_add by lia. rewrite Z.mod_small by (unfold v; lia). lia.
      * rewrite Z.mod_small by (unfold v; lia). lia.
    + unfold u8. apply Z.mod_unique_pos
        with (q := rd data (o + 1) + 2 ^ 8 * rd data (o + 2)
                   + 2 ^ 16 * rd data (o + 3)); unfold v; lia.
    + unfold shr. rewrite Z.shiftr_div_pow2 by lia. unfold u8.
      assert (v / 2 ^ 8 = rd data (o + 1) + 2 ^ 8 * rd data (o + 2)
                                + 2 ^ 16 * rd data (o + 3)) as ->.
      { symmetry. apply Z.div_unique_pos with (r := rd data o); unfold v; lia. }
      apply Z.mod_unique_pos
        with (q := rd data (o + 2) + 2 ^ 8 * rd data (o + 3)); lia.
    + unfold shr. rewrite Z.shiftr_div_pow2 by lia. unfold u8.
      assert (v / 2 ^ 16 = rd data (o + 2) + 2 ^ 8 * rd data (o + 3)) as ->.
      { symmetry. apply Z.div_unique_pos
          with (r := rd data o + 2 ^ 8 * rd data (o + 1)); unfold v; lia. }
      apply Z.mod_unique_pos with (q := rd data (o + 3)); lia.
    + unfold shr. rewrite Z.shiftr_div_pow2 by lia. unfold u8. symmetry.
      assert (v / 2 ^ 24 = rd data (o + 3)) as ->.
      { symmetry. apply Z.div_unique_pos
          with (r := rd data o + 2 ^ 8 * rd data (o + 1)
                     + 2 ^ 16 * rd data (o + 2)); unfold v; lia. }
      apply Z.mod_small. lia.
  - rewrite get2_value by (apply byte_at_bytes, Hb). lia.
Qed.

Lemma get4_value_witness :
  h_BMP_BIT_get4 [1; 2; 3; 254] 0
  = rd [1; 2; 3; 254] 0 + 2 ^ 8 * rd [1; 2; 3; 254] (0 + 1)
    + 2 ^ 16 * rd [1; 2; 3; 254] (0 + 2) + 2 ^ 24 * rd [1; 2; 3; 254] (0 + 3)
    - (if 128 <=? rd [1; 2; 3; 254] (0 + 3) then 2 ^ 32 else 0)
  ∧ h_BMP_BIT_get2 [1; 2; 3; 254] 0
    = rd [1; 2; 3; 254] 0 + 2 ^ 8 * rd [1; 2; 3; 254] (0 + 1).
Proof.
  apply (get4_value [1; 2; 3; 254] 0).
  unfold is_bytes. repeat constructor; lia.
Defined.

(** X4.  [h_BMP_BIT_set4] followed by [h_BMP_BIT_get4] at the same place
    gives the 32-bit value back, and [h_BMP_BIT_set2] followed by
    [h_BMP_BIT_get2] its low 16 bits; the stores change the four, or two,
    bytes at the offset and nothing else. *)
Theorem set_get data o v :
  0 <= o → o + 3 < Z.of_nat (length data) → in_range v →
  h_BMP_BIT_get4 (h_BMP_BIT_set4 data o v) o = v
  ∧ h_BMP_BIT_get2 (h_BMP_BIT_set2 data o v) o = v mod 2 ^ 16
  ∧ length (h_BMP_BIT_set4 data o v) = length data
  ∧ length (h_BMP_BIT_set2 data o v) = length data
  ∧ (∀ p, p < o ∨ o + 4 <= p → rd (h_BMP_BIT_set4 data o v) p = rd data p)
  ∧ (∀ p, p < o ∨ o + 2 <= p → rd (h_BMP_BIT_set2 data o v) p = rd data p).
Proof.
  intros Ho Hl Hv.
  split; [rewrite get4_set4_same by lia; apply i32_id, Hv|].
  split; [apply get2_set2_same; lia|].
  split; [apply set4_length|]. split; [apply set2_length|].
  split; intros p Hp; [apply rd_set4_out | apply rd_set2_out]; exact Hp.
Qed.

Lemma set_get_witness :
  h_BMP_BIT_get4 (h_BMP_BIT_set4 [9; 9; 9; 9; 9; 9] 1 (-70000)) 1 = -70000
  ∧ h_BMP_BIT_get2 (h_BMP_BIT_set2 [9; 9; 9; 9; 9; 9] 1 (-70000)) 1
    = (-70000) mod 2 ^ 16
  ∧ length (h_BMP_BIT_set4 [9; 9; 9; 9; 9; 9] 1 (-70000))
    = length [9; 9; 9; 9; 9; 9]
  ∧ length (h_BMP_BIT_set2 [9; 9; 9; 9; 9; 9] 1 (-70000))
    = length [9; 9; 9; 9; 9; 9]
  ∧ (∀ p, p < 1 ∨ 1 + 4 <= p →
          rd (h_BMP_BIT_set4 [9; 9; 9; 9; 9; 9] 1 (-70000)) p
          = rd [9; 9; 9; 9; 9; 9] p)
  ∧ (∀ p, p < 1 ∨ 1 + 2 <= p →
          rd (h_BMP_BIT_set2 [9; 9; 9; 9; 9; 9] 1 (-70000)) p
          = rd [9; 9; 9; 9; 9; 9] p).
Proof.
  apply (set_get [9; 9; 9; 9; 9; 9] 1 (-70000)).
  - lia.
  - cbn. lia.
  - unfold in_range. lia.
Defined.

(** X5.  Storing what was read changes nothing: on an array of bytes
    [h_BMP_BIT_set4] of the value [h_BMP_BIT_get4] reads at the same offset
    leaves the array as it was, and so does [h_BMP_BIT_set2] of what
    [h_BMP_BIT_get2] reads. *)
Theorem get_set data o :
  is_bytes data → 0 <= o → o + 3 < Z.of_nat (length data) →
  h_BMP_BIT_set4 data o (h_BMP_BIT_get4 data o) = data
  ∧ h_BMP_BIT_set2 data o (h_BMP_BIT_get2 data o) = data.
Proof.
  intros Hb Ho Hl. split.
  - apply array_eq; [apply set4_length|].
    intros p Hp. rewrite set4_length in Hp.
    destruct (Z_lt_le_dec p o) as [H1|H1];
      [apply rd_set4_out; lia|].
    destruct (Z_lt_le_dec p (o + 4)) as [H2|H2];
      [|apply rd_set4_out; lia].
    replace p with (o + (p - o)) by lia.
    rewrite rd_set4_in by lia.
    apply get4_byte; try (apply byte_at_bytes, Hb). lia.
  - apply array_eq; [apply set2_length|].
    intros p Hp. rewrite set2_length in Hp.
    destruct (Z_lt_le_dec p o) as [H1|H1];
      [apply rd_set2_out; lia|].
    destruct (Z_lt_le_dec p (o + 2)) as [H2|H2];
      [|apply rd_set2_out; lia].
    replace p with (o + (p - o)) by lia.
    apply get2_bytes_eq; [apply is_bytes_set2, Hb | exact Hb | | lia].
    rewrite get2_set2_same by lia.
    apply Z.mod_small. apply get2_bound, Hb.
Qed.

Lemma get_set_witness :
  h_BMP_BIT_set4 [7; 1; 2; 3; 254; 8] 1 (h_BMP_BIT_get4 [7; 1; 2; 3; 254; 8] 1)
  = [7; 1; 2; 3; 254; 8]
  ∧ h_BMP_BIT_set2 [7; 1; 2; 3; 254; 8] 1 (h_BMP_BIT_get2 [7; 1; 2; 3; 254; 8] 1)
    = [7; 1; 2; 3; 254; 8].
Proof.
  apply (get_set [7; 1; 2; 3; 254; 8] 1).
  - unfold is_bytes. repeat constructor; lia.
  - lia.
  - cbn. lia.
Defined.

(** ** Rows *)

(** X6.  For a width [w >= 0] whose row fits in 32 bits, the padding both
    transforms compute is [w mod 4] bytes, and the row width [w * 3 + pad]
    is the multiple of 4 next to [3 w]. *)
Theorem row_pad_mod4 w :
  0 <= w → w * 3 + 3 < 2 ^ 31 →
  row_pad w = w mod 4
  ∧ row_width w = 3 * w + w mod 4
  ∧ row_width w mod 4 = 0
  ∧ row_width w = row_stride w.
Proof.
  intros Hw Hfit.
  pose proof (Z.div_mod w 4 ltac:(lia)) as Ew.
  pose proof (Z.mod_pos_bound w 4 ltac:(lia)) as Bw.
  assert (4 * ((w * 3 + 3) / 4) = 3 * w + w mod 4) as E4.
  { assert ((w * 3 + 3) / 4 = 3 * (w / 4) + w mod 4) as ->; [|lia].
    symmetry. apply Z.div_unique_pos with (r := 3 - w mod 4); lia. }
  assert (row_pad w = w mod 4) as Ep.
  { unfold row_pad, Int.mul, Int.add, Int.sub.
    rewrite (i32_id (w * 3)) by (unfold in_range; lia).
    rewrite (i32_id (w * 3 + 3)) by (unfold in_range; lia).
    rewrite land_lnot_3, E4. rewrite i32_id by (unfold in_range; lia). lia. }
  assert (row_width w = 3 * w + w mod 4) as Ewd.
  { unfold row_width. rewrite Ep. unfold Int.mul, Int.add.
    rewrite (i32_id (w * 3)) by (unfold in_range; lia).
    rewrite i32_id by (unfold in_range; lia). lia. }
  split; [exact Ep|]. split; [exact Ewd|]. split.
  - rewrite Ewd, <- E4. rewrite Z.mul_comm. apply Z.mod_mul. lia.
  - rewrite Ewd. unfold row_stride. rewrite land_lnot_3. lia.
Qed.

Lemma row_pad_mod4_witness :
  row_pad 3 = 3 mod 4
  ∧ row_width 3 = 3 * 3 + 3 mod 4
  ∧ row_width 3 mod 4 = 0
  ∧ row_width 3 = row_stride 3.
Proof. apply (row_pad_mod4 3); lia. Defined.

(** ** The validator of the inverse transform *)

Lemma accepted_inv_checked size data :
  accepted_inv size data = true ↔ checked_inv size data.
Proof.
  unfold accepted_inv, unsupported_inv.
  rewrite andb_true_iff, !negb_true_iff, !orb_false_iff, !negb_false_iff.
  rewrite !Z.eqb_eq, !Z.ltb_ge.
  split.
  - intros (? & ((((((((((((? & ?) & ?) & ?) & ?) & ?) & ?) & ?) & ?) & ?) & ?) & ?) & ?)).
    constructor; assumption.
  - intros []. repeat split; assumption.
Qed.

Lemma pixels_restore h width data :
  pixels (restore h width data) = pixels data.
Proof.
  unfold pixels. apply array_eq.
  - rewrite !length_drop, restore_length. reflexivity.
  - intros i Hi. rewrite !rd_drop by lia. apply restore_keep. lia.
Qed.

(** The result of [h_iBMP_BIT] on an accepted buffer: the restored header
    followed by the decoded pixel region. *)
Lemma h_iBMP_BIT_accepted junk size data :
  accepted_inv size data = true →
  h_iBMP_BIT junk size data
  = (size,
     header (restore (h_BMP_BIT_get4 data 22)
                     (row_width (h_BMP_BIT_get4 data 18)) data)
     ++ inverse_pixels junk (h_BMP_BIT_get4 data 18) (h_BMP_BIT_get4 data 22)
                       (row_pad (h_BMP_BIT_get4 data 18))
                       (row_width (h_BMP_BIT_get4 data 18)) (pixels data)).
Proof.
  intros H. unfold accepted_inv in H. apply andb_true_iff in H as [H1 H2].
  apply negb_true_iff in H1, H2.
  unfold h_iBMP_BIT. rewrite H1, H2. rewrite pixels_restore. reflexivity.
Qed.

Lemma h_iBMP_BIT_rejected junk size data :
  accepted_inv size data = false → h_iBMP_BIT junk size data = (size, data).
Proof.
  intros H. unfold accepted_inv in H. unfold h_iBMP_BIT.
  destruct (size <? 54); [reflexivity|].
  cbn [negb andb] in H. apply negb_false_iff in H. rewrite H. reflexivity.
Qed.

Lemma h_iBMP_BIT_header junk size data p :
  accepted_inv size data = true → size = Z.of_nat (length data) → p < 54 →
  rd (snd (h_iBMP_BIT junk size data)) p
  = rd (restore (h_BMP_BIT_get4 data 22)
                (row_width (h_BMP_BIT_get4 data 18)) data) p.
Proof.
  intros Ha Hs Hp. rewrite h_iBMP_BIT_accepted by exact Ha. cbn [snd].
  apply accepted_inv_checked in Ha. destruct Ha as [c54 _ _ _ _ _ _ _ _ _ _ _ _ _].
  rewrite rd_app_l.
  - apply rd_header, Hp.
  - rewrite header_length; [lia|]. rewrite restore_length. lia.
Qed.

(** X7.  [h_iBMP_BIT] changes the buffer exactly when the conditions of its
    validator hold: at least 54 bytes, the fields that [h_BMP_BIT]
    neutralises all zero, and a width and a height of at least 1.  When one
    of them fails it returns the buffer and the size as they were; the size
    it never changes. *)
Theorem h_iBMP_BIT_mutates_iff junk size data :
  size = Z.of_nat (length data) →
  fst (h_iBMP_BIT junk size data) = size
  ∧ (snd (h_iBMP_BIT junk size data) ≠ data ↔ checked_inv size data)
  ∧ (¬ checked_inv size data → h_iBMP_BIT junk size data = (size, data)).
Proof.
  intros Hs.
  destruct (accepted_inv size data) eqn:Ha.
  - pose proof Ha as Hc. apply accepted_inv_checked in Hc.
    split; [rewrite h_iBMP_BIT_accepted by exact Ha; reflexivity|].
    split; [|intros Hn; contradiction].
    split; [intros _; exact Hc|]. intros _ E.
    assert (rd (snd (h_iBMP_BIT junk size data)) 0 = rd data 0) as E0
      by (rewrite E; reflexivity).
    rewrite h_iBMP_BIT_header in E0 by (assumption || lia).
    destruct Hc as [c54 cB _ _ _ _ _ _ _ _ _ _ _ _].
    rewrite restore_rd_0 in E0 by lia.
    rewrite cB in E0. vm_compute in E0. discriminate.
  - rewrite h_iBMP_BIT_rejected by exact Ha. cbn [fst snd].
    assert (¬ checked_inv size data) as Hn.
    { intros Hc. apply accepted_inv_checked in Hc. congruence. }
    split; [reflexivity|]. split; [|reflexivity].
    split; [intros H; exfalso; apply H; reflexivity | intros Hc; contradiction].
Qed.

Lemma h_iBMP_BIT_mutates_iff_witness :
  fst (h_iBMP_BIT (λ _, 0) 58 (neutral_1x1 7 20 40 60 0)) = 58
  ∧ (snd (h_iBMP_BIT (λ _, 0) 58 (neutral_1x1 7 20 40 60 0))
       ≠ neutral_1x1 7 20 40 60 0
     ↔ checked_inv 58 (neutral_1x1 7 20 40 60 0))
  ∧ (¬ checked_inv 58 (neutral_1x1 7 20 40 60 0) →
     h_iBMP_BIT (λ _, 0) 58 (neutral_1x1 7 20 40 60 0)
     = (58, neutral_1x1 7 20 40 60 0)).
Proof.
  apply (h_iBMP_BIT_mutates_iff (λ _, 0) 58 (neutral_1x1 7 20 40 60 0)).
  reflexivity.
Defined.

(** X8.  On a buffer of bytes its validator accepts, [h_iBMP_BIT] leaves in
    the header the magic 'B', 'M', the file size [54 + h * width], the
    offset 54, the header size 40, one plane, 24 bits per pixel, the image
    size [h * width] and, as y resolution, the 32-bit sum of the stored
    field and the x resolution; the bytes of the reserved field, of width
    and height, of the compression field, of the x resolution and of the two
    colour counts stay as they were. *)
Theorem header_restored junk size data :
  is_bytes data → size = Z.of_nat (length data) →
  accepted_inv size data = true →
  let out := snd (h_iBMP_BIT junk size data) in
  let h := h_BMP_BIT_get4 data 22 in
  let width := row_width (h_BMP_BIT_get4 data 18) in
  rd out 0 = 66 ∧ rd out 1 = 77
  ∧ h_BMP_BIT_get4 out 2 = h *! width +! 54
  ∧ h_BMP_BIT_get4 out 10 = 54
  ∧ h_BMP_BIT_get4 out 14 = 40
  ∧ h_BMP_BIT_get2 out 26 = 1
  ∧ h_BMP_BIT_get2 out 28 = 24
  ∧ h_BMP_BIT_get4 out 34 = h *! width
  ∧ h_BMP_BIT_get4 out 42 = h_BMP_BIT_get4 data 42 +! h_BMP_BIT_get4 data 38
  ∧ (∀ p, 6 <= p < 10 ∨ 18 <= p < 26 ∨ 30 <= p < 34 ∨ 38 <= p < 42
          ∨ 46 <= p < 54 → rd out p = rd data p).
Proof.
  intros Hb Hs Ha out h width.
  pose proof Ha as Hc. apply accepted_inv_checked in Hc.
  destruct Hc as [c54 cB cM c2 c10 c14 c26 c28 _ c34 _ _ _ _].
  assert (54 <= Z.of_nat (length data)) as Hl by lia.
  set (R := restore h width data).
  assert (∀ p, p < 54 → rd out p = rd R p) as Hhd
    by (intros p Hp; apply h_iBMP_BIT_header; assumption).
  assert (∀ o, 0 <= o → o + 3 < 54 → h_BMP_BIT_get4 out o = h_BMP_BIT_get4 R o)
    as H4 by (intros o Ho Ho'; apply get4_ext; intros k Hk; apply Hhd; lia).
  assert (∀ o, 0 <= o → o + 1 < 54 → h_BMP_BIT_get2 out o = h_BMP_BIT_get2 R o)
    as H2 by (intros o Ho Ho'; apply get2_ext; intros k Hk; apply Hhd; lia).
  assert (∀ x, 0 +! x = i32 x) as Hz by (intros x; unfold Int.add; f_equal).
  rewrite !Hhd, !H4, !H2 by lia. unfold R.
  rewrite restore_rd_0, restore_rd_1, restore_get4_2, restore_get4_10,
    restore_get4_14, restore_get2_26, restore_get2_28, restore_get4_34,
    restore_get4_42 by exact Hl.
  rewrite cB, cM, c2, c10, c14, c26, c28, c34.
  repeat split; try reflexivity.
  - rewrite Hz. apply i32_id, i32_range.
  - rewrite Hz. apply i32_id, i32_range.
  - intros p Hp. rewrite Hhd by lia. apply restore_keep. lia.
Qed.

Lemma header_restored_witness :
  let out := snd (h_iBMP_BIT (λ _, 0) 58 (neutral_1x1 7 20 40 60 0)) in
  let h := h_BMP_BIT_get4 (neutral_1x1 7 20 40 60 0) 22 in
  let width := row_width (h_BMP_BIT_get4 (neutral_1x1 7 20 40 60 0) 18) in
  rd out 0 = 66 ∧ rd out 1 = 77
  ∧ h_BMP_BIT_get4 out 2 = h *! width +! 54
  ∧ h_BMP_BIT_get4 out 10 = 54
  ∧ h_BMP_BIT_get4 out 14 = 40
  ∧ h_BMP_BIT_get2 out 26 = 1
  ∧ h_BMP_BIT_get2 out 28 = 24
  ∧ h_BMP_BIT_get4 out 34 = h *! width
  ∧ h_BMP_BIT_get4 out 42
    = h_BMP_BIT_get4 (neutral_1x1 7 20 40 60 0) 42
      +! h_BMP_BIT_get4 (neutral_1x1 7 20 40 60 0) 38
  ∧ (∀ p, 6 <= p < 10 ∨ 18 <= p < 26 ∨ 30 <= p < 34 ∨ 38 <= p < 42
          ∨ 46 <= p < 54 → rd out p = rd (neutral_1x1 7 20 40 60 0) p).
Proof.
  apply (header_restored (λ _, 0) 58 (neutral_1x1 7 20 40 60 0)).
  - unfold is_bytes, neutral_1x1. repeat (constructor; [lia|]). constructor.
  - reflexivity.
  - reflexivity.
Defined.

(** ** The two validators exclude each other *)

Lemma not_B_rejected size data : rd data 0 ≠ 66 → accepted size data = false.
Proof.
  intros H. destruct (accepted size data) eqn:Ha; [|reflexivity].
  apply accepted_checked in Ha. destruct Ha as [_ cB _ _ _ _ _ _ _ _ _ _ _ _ _].
  contradiction.
Qed.

Lemma not_neutral_rejected size data :
  rd data 0 ≠ 0 → accepted_inv size data = false.
Proof.
  intros H. destruct (accepted_inv size data) eqn:Ha; [|reflexivity].
  apply accepted_inv_checked in Ha.
  destruct Ha as [_ cB _ _ _ _ _ _ _ _ _ _ _ _]. contradiction.
Qed.

(** X9.  No buffer is transformed by both functions: whatever the buffer
    and the size, [h_BMP_BIT] or [h_iBMP_BIT] returns it as it was.  The
    forward validator asks for 'B' in the first byte and the inverse one
    for 0, so a bitmap is never decoded and a transformed buffer is never
    transformed again. *)
Theorem transforms_exclusive junk1 junk2 size data :
  h_BMP_BIT junk1 size data = (size, data)
  ∨ h_iBMP_BIT junk2 size data = (size, data).
Proof.
  destruct (Z.eq_dec (rd data 0) 66) as [E|E].
  - right. apply h_iBMP_BIT_rejected, not_neutral_rejected. lia.
  - left. apply h_BMP_BIT_rejected, not_B_rejected, E.
Qed.

(** X10.  Each transform applied to its own result changes nothing more:
    [h_BMP_BIT] leaves 0 where it found 'B' and [h_iBMP_BIT] leaves 'B'
    where it found 0, so the second application is refused by the
    validator. *)
Theorem transforms_idempotent junk junk' size data :
  size = Z.of_nat (length data) →
  h_BMP_BIT junk' (fst (h_BMP_BIT junk size data))
                  (snd (h_BMP_BIT junk size data))
  = h_BMP_BIT junk size data
  ∧ h_iBMP_BIT junk' (fst (h_iBMP_BIT junk size data))
                     (snd (h_iBMP_BIT junk size data))
    = h_iBMP_BIT junk size data.
Proof.
  intros Hs. split.
  - destruct (accepted size data) eqn:Ha.
    + assert (rd (snd (h_BMP_BIT junk size data)) 0 = 0) as E0.
      { rewrite h_BMP_BIT_header by (assumption || lia).
        apply accepted_checked in Ha.
        destruct Ha as [c54 cB _ _ _ _ _ _ _ _ _ _ _ _ _].
        rewrite neutralise_rd_0 by lia. rewrite cB. reflexivity. }
      rewrite (h_BMP_BIT_accepted junk size data Ha) in E0 |- *. cbn [fst snd] in *.
      apply h_BMP_BIT_rejected, not_B_rejected. lia.
    + rewrite (h_BMP_BIT_rejected junk size data Ha). cbn [fst snd].
      apply h_BMP_BIT_rejected, Ha.
  - destruct (accepted_inv size data) eqn:Ha.
    + assert (rd (snd (h_iBMP_BIT junk size data)) 0 = 66) as E0.
      { rewrite h_iBMP_BIT_header by (assumption || lia).
        apply accepted_inv_checked in Ha.
        destruct Ha as [c54 cB _ _ _ _ _ _ _ _ _ _ _ _].
        rewrite restore_rd_0 by lia. rewrite cB. reflexivity. }
      rewrite (h_iBMP_BIT_accepted junk size data Ha) in E0 |- *. cbn [fst snd] in *.
      apply h_iBMP_BIT_rejected, not_neutral_rejected. lia.
    + rewrite (h_iBMP_BIT_rejected junk size data Ha). cbn [fst snd].
      apply h_iBMP_BIT_rejected, Ha.
Qed.

Lemma transforms_idempotent_witness :
  h_BMP_BIT (λ i, i) (fst (h_BMP_BIT (λ _, 0) 78 bmp_3x2))
                     (snd (h_BMP_BIT (λ _, 0) 78 bmp_3x2))
  = h_BMP_BIT (λ _, 0) 78 bmp_3x2
  ∧ h_iBMP_BIT (λ i, i) (fst (h_iBMP_BIT (λ _, 0) 78 bmp_3x2))
                        (snd (h_iBMP_BIT (λ _, 0) 78 bmp_3x2))
    = h_iBMP_BIT (λ _, 0) 78 bmp_3x2.
Proof. apply (transforms_idempotent (λ _, 0) (λ i, i) 78 bmp_3x2). reflexivity. Defined.

(** ** The transformed pixel region *)

Lemma ld64_ext T T' g :
  (∀ i, 0 <= i < 8 → rd T (8 * g + i) = rd T' (8 * g + i)) →
  ld64 T g = ld64 T' g.
Proof.
  intros H. unfold ld64. apply foldl_ext_in.
  intros i x Hi. apply elem_of_range in Hi. rewrite H by lia. reflexivity.
Qed.

(** The residuals of a pixel depend on the pixels of the image only. *)
Lemma residual_ext_in w h B1 B2 y x k :
  (∀ y x c, 0 <= y < h → 0 <= x < w → 0 <= c < 3 → B1 y x c = B2 y x c) →
  0 <= y < h → 0 <= x < w →
  residual B1 y x k = residual B2 y x k.
Proof.
  intros E Hy Hx.
  assert (∀ c, 0 <= c < 3 → predictor B1 y x c = predictor B2 y x c) as Ep.
  { intros c Hc. unfold predictor.
    destruct (Z.eqb_spec x 0); [destruct (Z.eqb_spec y 0)|];
      [reflexivity | apply E; lia | apply E; lia]. }
  unfold residual.
  rewrite (Ep 0), (Ep 1), (Ep 2), (E y x 0), (E y x 1), (E y x 2) by lia.
  reflexivity.
Qed.

Section Padding.

Variables w h : Z.
Variable bmp : list Z.
Hypothesis Hw : 1 <= w.
Hypothesis Hh : 1 <= h.
Hypothesis Hfit : 54 + h * row_stride w < 2 ^ 31.
Hypothesis Hbytes : is_bytes bmp.
Hypothesis Hlen : Z.of_nat (length bmp) = h * row_stride w.

Let width := row_stride w.
Let N := w * h.
Let M := 3 * N.
Let P := zero_padding w h width (row_pad w) bmp.

Lemma is_bytes_zero_padding : is_bytes P.
Proof using Hbytes.
  unfold P, zero_padding. destruct (0 <? row_pad w); [|exact Hbytes].
  apply foldl_keeps; [|exact Hbytes]. intros a y Ha.
  apply foldl_keeps; [|exact Ha]. intros b x Hb.
  change 0 with (u8 0). apply is_bytes_wr, Hb.
Qed.

Lemma zero_padding_pixel y x c :
  0 <= y < h → 0 <= x < w → 0 <= c < 3 →
  rd P (y * width + x * 3 + c) = rd bmp (y * width + x * 3 + c).
Proof using Hw Hh Hfit Hlen.
  intros Hy Hx Hc.
  destruct (zero_padding_spec w h Hw Hh Hfit bmp Hlen) as (_ & _ & Hf).
  apply Hf. intros y' q Hy' Hq E.
  pose proof (geometry w h Hw Hh Hfit) as (Hs & Hp & _). fold width in Hs, Hp.
  replace (y * width + x * 3 + c) with (y * width + (x * 3 + c)) in E by lia.
  apply (row_index_inj width y (x * 3 + c) y' q) in E; lia.
Qed.

(** The scratch array does not depend on the padding bytes. *)
Lemma scratch_ignores_padding junk q :
  0 <= q < M →
  rd (forward_scratch junk w h (row_width w) bmp) q
  = rd (forward_scratch junk w h (row_width w) P) q.
Proof using All.
  intros Hq.
  destruct (forward_scratch_spec w h Hw Hh Hfit junk bmp Hbytes) as (_ & H1).
  destruct (forward_scratch_spec w h Hw Hh Hfit junk P is_bytes_zero_padding)
    as (_ & H2).
  fold N in H1, H2. fold width in H1, H2.
  assert (1 <= N) as HN by (unfold N; nia).
  pose proof (Z.div_mod q N ltac:(lia)) as Eq.
  pose proof (Z.mod_pos_bound q N ltac:(lia)) as Bq.
  assert (0 <= q / N < 3) as Hk.
  { split; [apply Z.div_pos; lia|].
    apply Z.div_lt_upper_bound; unfold M in Hq; lia. }
  set (r := q mod N) in *.
  pose proof (Z.div_mod r h ltac:(lia)) as Er.
  pose proof (Z.mod_pos_bound r h ltac:(lia)) as Br.
  assert (0 <= r / h < w) as Hx.
  { split; [apply Z.div_pos; lia|].
    apply Z.div_lt_upper_bound; [lia|]. unfold N in Bq. lia. }
  replace q with (q / N * N + r mod h + r / h * h) by lia.
  rewrite H1, H2 by assumption.
  apply (residual_ext_in w h); [|assumption|assumption].
  intros y x c Hy' Hx' Hc. symmetry. apply zero_padding_pixel; assumption.
Qed.

(** The forward transform of the pixel region does not depend on the
    padding bytes either. *)
Lemma forward_ignores_padding junk :
  forward_pixels junk w h (row_width w) bmp
  = forward_pixels junk w h (row_width w) P.
Proof using All.
  destruct (zero_padding_spec w h Hw Hh Hfit bmp Hlen) as (LP & _).
  fold width in LP. fold P in LP.
  assert (Z.of_nat (length P) = h * row_stride w) as HlP by (rewrite LP; exact Hlen).
  destruct (forward_pixels_spec w h bmp junk junk Hw Hh Hfit Hbytes Hlen)
    as (L1 & W1 & C1 & Z1).
  destruct (forward_pixels_spec w h P junk junk Hw Hh Hfit
              is_bytes_zero_padding HlP) as (L2 & W2 & C2 & Z2).
  destruct (groups w h bmp junk junk Hw Hh Hfit Hbytes Hlen)
    as ((He & Hes & HG & Hle & HMe) & _).
  fold N in W1, C1, Z1, W2, C2, Z2, He, Hes, HG, Hle, HMe.
  fold M in W1, C1, Z1, W2, C2, Z2, He, Hes, HG, Hle, HMe.
  set (esize := M - M mod 8) in *. set (G := esize / 8) in *.
  pose proof (geometry w h Hw Hh Hfit) as (_ & _ & _ & _ & H3 & _).
  fold N in H3. fold M in H3.
  apply array_eq; [rewrite L1, L2, LP; reflexivity|].
  intros p Hp. rewrite L1, Hlen in Hp.
  destruct (Z_lt_le_dec p esize) as [Ha|Ha].
  - assert (0 < G) as HG0 by lia.
    pose proof (Z.div_mod p G ltac:(lia)) as Ep.
    pose proof (Z.mod_pos_bound p G ltac:(lia)) as Bp.
    assert (0 <= p / G < 8) as Hi.
    { split; [apply Z.div_pos; lia|]. apply Z.div_lt_upper_bound; lia. }
    replace p with (p mod G + p / G * G) by lia.
    rewrite W1, W2 by assumption. f_equal. f_equal.
    apply ld64_ext. intros i Hi'. apply scratch_ignores_padding. lia.
  - destruct (Z_lt_le_dec p M) as [Hb|Hb].
    + rewrite C1, C2 by lia. apply scratch_ignores_padding. lia.
    + rewrite Z1, Z2 by lia. reflexivity.
Qed.

(** The inverse transform of the transformed pixel region is the pixel
    region with its padding bytes set to zero. *)
Lemma inverse_forward_padding junk1 junk2 :
  inverse_pixels junk2 w h (row_pad w) (row_width w)
    (forward_pixels junk1 w h (row_width w) bmp) = P.
Proof using All.
  destruct (zero_padding_spec w h Hw Hh Hfit bmp Hlen) as (LP & ZP & _).
  fold width in LP, ZP. fold P in LP, ZP.
  rewrite forward_ignores_padding.
  apply (inverse_forward_pixels w h P junk1 junk2 Hw Hh Hfit
           is_bytes_zero_padding).
  - rewrite LP. exact Hlen.
  - exact ZP.
Qed.

End Padding.

(** X11.  On an accepted buffer that holds the image its header announces,
    whatever its padding bytes, [h_BMP_BIT] followed by [h_iBMP_BIT] gives
    the buffer with its row padding set to zero: the header and every pixel
    byte come back, and every padding byte comes back as 0. *)
Theorem roundtrip_zeroes_padding junk1 junk2 size data :
  is_bytes data → accepted size data = true → holds_image size data →
  let W := h_BMP_BIT_get4 data 18 in
  let H := h_BMP_BIT_get4 data 22 in
  let back := h_iBMP_BIT junk2 (fst (h_BMP_BIT junk1 size data))
                               (snd (h_BMP_BIT junk1 size data)) in
  back = (size,
          header data ++ zero_padding W H (row_width W) (row_pad W) (pixels data))
  ∧ length (snd back) = length data
  ∧ (∀ p, p < 54 → rd (snd back) p = rd data p)
  ∧ (∀ y x c, 0 <= y < H → 0 <= x < W → 0 <= c < 3 →
       raw (snd back) y x c = raw data y x c)
  ∧ (∀ y q, 0 <= y < H → W * 3 <= q < row_stride W →
       rd (snd back) (54 + y * row_stride W + q) = 0).
Proof.
  intros Hb Ha Hi W H back.
  destruct (image_fits size data Ha Hi) as (Hw & Hh & Hfit & Hlen).
  pose proof Ha as Hc. apply accepted_checked in Hc.
  pose proof (ck_size _ _ Hc) as H54. destruct Hi as [Hs _].
  fold W in Hw, Hfit, Hlen. fold H in Hh, Hfit, Hlen.
  assert (54 <= Z.of_nat (length data)) as Hl by lia.
  pose proof (header_length data Hl) as Hlh.
  assert (back = (size, header data
                        ++ zero_padding W H (row_width W) (row_pad W) (pixels data)))
    as Eback.
  { unfold back. rewrite h_BMP_BIT_accepted by exact Ha. cbn [fst snd].
    fold W. fold H.
    set (N := neutralise H (row_width W) data).
    set (F := forward_pixels junk1 W H (row_width W) (pixels data)).
    assert (54 <= Z.of_nat (length N)) as HlN
      by (unfold N; rewrite neutralise_length; lia).
    pose proof (neutralise_zero size data Hc Hb Hs) as Hz. cbv zeta in Hz.
    destruct Hz as (_ & _ & _ & _ & _ & _ & _ & _ & _ & _ & _ & E18 & E22).
    fold W in E18, E22. fold H in E18, E22. fold N in E18, E22.
    unfold h_iBMP_BIT.
    destruct (Z.ltb_spec size 54); [lia|].
    rewrite !get4_header_app by lia. rewrite E18, E22.
    unfold N at 1. unfold W at 1 2. unfold H at 1 2.
    rewrite (neutralised_supported size data F Hc Hb Hs).
    fold W. fold H. fold N.
    pose proof (header_length N HlN) as HlhN.
    rewrite restore_app by exact HlhN.
    unfold N at 1 2. rewrite header_neutralise by exact Hl.
    rewrite restore_neutralise
      by (try (apply is_bytes_take, Hb); rewrite header_length; lia).
    rewrite header_app_l, pixels_app_l by exact Hlh.
    unfold F.
    rewrite (inverse_forward_padding W H (pixels data) Hw Hh Hfit
               (is_bytes_drop _ _ Hb) Hlen junk1 junk2).
    rewrite (row_width_stride W H Hw Hh Hfit). reflexivity. }
  split; [exact Eback|]. rewrite Eback. cbn [snd].
  rewrite (row_width_stride W H Hw Hh Hfit).
  destruct (zero_padding_spec W H Hw Hh Hfit (pixels data) Hlen)
    as (LP & ZP & FP).
  set (P := zero_padding W H (row_stride W) (row_pad W) (pixels data)) in *.
  pose proof (geometry W H Hw Hh Hfit) as (Hs' & Hp' & _).
  split; [|split; [|split]].
  - rewrite length_app, LP, <- length_app, <- header_split. reflexivity.
  - intros p Hp. rewrite rd_app_l by lia. apply rd_header, Hp.
  - intros y x c Hy Hx Hk. unfold raw.
    rewrite get4_app_l by lia.
    replace (h_BMP_BIT_get4 (header data) 18) with W
      by (symmetry; apply get4_ext; intros k Hk'; apply rd_header; lia).
    assert (0 <= y * row_stride W) by (apply Z.mul_nonneg_nonneg; lia).
    rewrite rd_app_r by lia. rewrite Hlh.
    replace (54 + y * row_stride W + x * 3 + c - Z.of_nat 54)
      with (y * row_stride W + x * 3 + c) by lia.
    unfold P.
    rewrite (zero_padding_pixel W H (pixels data) Hw Hh Hfit Hlen y x c)
      by assumption.
    unfold pixels. rewrite rd_drop by lia. fold W. f_equal. lia.
  - intros y q Hy Hq.
    assert (0 <= y * row_stride W) by (apply Z.mul_nonneg_nonneg; lia).
    rewrite rd_app_r by lia. rewrite Hlh.
    replace (54 + y * row_stride W + q - Z.of_nat 54)
      with (y * row_stride W + q) by lia.
    apply ZP; assumption.
Qed.

Lemma roundtrip_zeroes_padding_witness :
  let data := bmp_1x1 0 10 20 30 255 in
  let W := h_BMP_BIT_get4 data 18 in
  let H := h_BMP_BIT_get4 data 22 in
  let back := h_iBMP_BIT (λ i, i) (fst (h_BMP_BIT (λ _, 0) 58 data))
                                  (snd (h_BMP_BIT (λ _, 0) 58 data)) in
  back = (58,
          header data ++ zero_padding W H (row_width W) (row_pad W) (pixels data))
  ∧ length (snd back) = length data
  ∧ (∀ p, p < 54 → rd (snd back) p = rd data p)
  ∧ (∀ y x c, 0 <= y < H → 0 <= x < W → 0 <= c < 3 →
       raw (snd back) y x c = raw data y x c)
  ∧ (∀ y q, 0 <= y < H → W * 3 <= q < row_stride W →
       rd (snd back) (54 + y * row_stride W + q) = 0).
Proof.
  apply (roundtrip_zeroes_padding (λ _, 0) (λ i, i) 58 (bmp_1x1 0 10 20 30 255)).
  - unfold is_bytes, bmp_1x1. repeat (constructor; [lia|]). constructor.
  - reflexivity.
  - split; reflexivity.
Defined.

(** X12.  The pixel region [h_BMP_BIT] leaves behind, for an accepted image
    of [W x H] pixels, in terms of the scratch array [S] of residuals: with
    [G = 3 W H / 8] groups of eight residuals, bit [j] of the byte at
    [g + i G] is bit [i] of residual [8 g + j], so that the region is made of
    eight bit planes of [G] bytes each; the residuals that do not fill a
    group follow as they are; and the rest of the region, which is as long
    as the padding of all rows, is zero. *)
Theorem forward_layout junk size data :
  is_bytes data → accepted size data = true → holds_image size data →
  let W := h_BMP_BIT_get4 data 18 in
  let H := h_BMP_BIT_get4 data 22 in
  let S := forward_scratch junk W H (row_width W) (pixels data) in
  let out := snd (h_BMP_BIT junk size data) in
  let G := 3 * W * H / 8 in
  (∀ g i j, 0 <= g < G → 0 <= i < 8 → 0 <= j < 8 →
     Z.testbit (rd out (54 + g + i * G)) j = Z.testbit (rd S (8 * g + j)) i)
  ∧ (∀ p, 8 * G <= p < 3 * W * H → rd out (54 + p) = rd S p)
  ∧ (∀ p, 3 * W * H <= p < H * row_stride W → rd out (54 + p) = 0)
  ∧ length out = length data.
Proof.
  intros Hb Ha Hi W H S out G.
  destruct (image_fits size data Ha Hi) as (Hw & Hh & Hfit & Hlen).
  pose proof Ha as Hc. apply accepted_checked in Hc.
  pose proof (ck_size _ _ Hc) as H54. destruct Hi as [Hs _].
  fold W in Hw, Hfit, Hlen. fold H in Hh, Hfit, Hlen.
  assert (54 <= Z.of_nat (length data)) as Hl by lia.
  destruct (forward_pixels_spec W H (pixels data) junk junk Hw Hh Hfit
              (is_bytes_drop _ _ Hb) Hlen) as (LF & WF & CF & ZF).
  destruct (groups W H (pixels data) junk junk Hw Hh Hfit
              (is_bytes_drop _ _ Hb) Hlen) as ((He & Hes & HG & Hle & HMe) & _).
  fold S in WF, CF.
  set (F := forward_pixels junk W H (row_width W) (pixels data)) in *.
  assert (3 * (W * H) = 3 * W * H) as EM by lia.
  rewrite EM in *.
  assert ((3 * W * H - (3 * W * H) mod 8) / 8 = G) as EG.
  { unfold G. symmetry. apply Z.div_unique_exact; [lia|].
    pose proof (Z.div_mod (3 * W * H) 8 ltac:(lia)). lia. }
  rewrite EG in *.
  set (N := neutralise H (row_width W) data).
  assert (length (header N) = 54%nat) as HlhN
    by (apply header_length; unfold N; rewrite neutralise_length; lia).
  assert (out = header N ++ F) as Eout
    by (unfold out; rewrite h_BMP_BIT_accepted by exact Ha; reflexivity).
  assert (∀ p, 0 <= p → rd out (54 + p) = rd F p) as Hout.
  { intros p Hp. rewrite Eout, rd_app_r by lia. rewrite HlhN. f_equal. lia. }
  assert (is_bytes S) as HbS by apply is_bytes_forward_scratch.
  split; [|split; [|split]].
  - intros g i j Hg Hi Hj.
    assert (0 <= i * G) by (apply Z.mul_nonneg_nonneg; lia).
    replace (54 + g + i * G) with (54 + (g + i * G)) by lia.
    rewrite Hout, WF by lia.
    rewrite byte_of_testbit by lia.
    rewrite butterfly_bit by (try apply ld64_u64; assumption).
    rewrite <- byte_of_testbit by lia.
    rewrite ld64_byte by assumption. reflexivity.
  - intros p Hp. rewrite Hout by lia. apply CF. lia.
  - intros p Hp. rewrite Hout by lia. apply ZF. lia.
  - rewrite Eout, length_app, HlhN, LF. unfold pixels. rewrite length_drop. lia.
Qed.

Lemma forward_layout_witness :
  let data := bmp_3x2 in
  let W := h_BMP_BIT_get4 data 18 in
  let H := h_BMP_BIT_get4 data 22 in
  let S := forward_scratch (λ i, i) W H (row_width W) (pixels data) in
  let out := snd (h_BMP_BIT (λ i, i) 78 data) in
  let G := 3 * W * H / 8 in
  (∀ g i j, 0 <= g < G → 0 <= i < 8 → 0 <= j < 8 →
     Z.testbit (rd out (54 + g + i * G)) j = Z.testbit (rd S (8 * g + j)) i)
  ∧ (∀ p, 8 * G <= p < 3 * W * H → rd out (54 + p) = rd S p)
  ∧ (∀ p, 3 * W * H <= p < H * row_stride W → rd out (54 + p) = 0)
  ∧ length out = length data.
Proof.
  apply (forward_layout (λ i, i) 78 bmp_3x2).
  - exact bmp_3x2_bytes.
  - reflexivity.
  - exact bmp_3x2_image.
Defined.

(** ** Zero elimination: the capacity check *)

Lemma for_loop_rule3 {S : Type} (body : S → Z → flow S)
    (Inv : Z → S → Prop) (Post Ret : S → Prop) (a b : Z) :
  (∀ j s, a <= j < b → Inv j s →
     match body s j with
     | Next s' => Inv (j + 1) s'
     | Break s' => Post s'
     | Return s' => Ret s'
     end) →
  (∀ s, Inv (Z.max a b) s → Post s) →
  ∀ s, Inv a s →
    match for_loop body (range a b) s with
    | Next s' => Post s'
    | Break _ => False
    | Return s' => Ret s'
    end.
Proof.
  intros Hstep Hend.
  destruct (Z_le_gt_dec b a) as [Hle|Hgt].
  - intros s Hs. rewrite range_nil by lia. cbn. apply Hend.
    rewrite Z.max_l by lia. exact Hs.
  - remember (Z.to_nat (b - a)) as n eqn:En.
    revert a Hgt En Hstep Hend. induction n as [|n IH]; intros a Hgt En Hstep Hend s Hs.
    + lia.
    + rewrite range_cons by lia. cbn [for_loop].
      pose proof (Hstep a s ltac:(lia) Hs) as H1.
      destruct (body s a) as [s'|s'|s']; [|exact H1|exact H1].
      destruct (Z.eq_dec (a + 1) b) as [E|E].
      * subst b. rewrite range_nil by lia. cbn. apply Hend.
        rewrite Z.max_r by lia. exact H1.
      * apply (IH (a + 1)); [lia|lia| | |exact H1].
        -- intros j s0 Hj. apply Hstep. lia.
        -- intros s0. rewrite Z.max_r by lia. intros H0. apply Hend.
           rewrite Z.max_r by lia. exact H0.
Qed.

Lemma for_loop_sim {S : Type} (b1 b2 : S → Z → flow S) (js : list Z) :
  (∀ s j, (∃ s', b1 s j = Return s') ∨ b1 s j = b2 s j) →
  ∀ s, (∃ s', for_loop b1 js s = Return s')
       ∨ for_loop b1 js s = for_loop b2 js s.
Proof.
  intros H. induction js as [|j js IH]; intros s; [right; reflexivity|].
  cbn [for_loop]. destruct (H s j) as [[s' E]|E].
  - left. exists s'. rewrite E. reflexivity.
  - rewrite <- E. destruct (b1 s j) as [s'|s'|s'].
    + apply IH.
    + right. reflexivity.
    + left. exists s'. reflexivity.
Qed.

Module ZEGuard.
Import ZE.

Section Checked.

Variable bits : Z.
Variable inp : list Z.
Variable datasize : Z.
Variables dataout0 bmout0 : list Z.

Let N : Z := Z.of_nat (length inp).
Let num : Z := (N + bits - 1) / bits.

Hypothesis Hbits : 0 < bits.
Hypothesis HN : 1 <= N.
Hypothesis Hfit : N + bits < 2 ^ 31.
Hypothesis Hsize : 0 <= datasize < 2 ^ 31.

Local Abbreviation inv := (guard_inv bits inp datasize dataout0).
Local Abbreviation hit := (guard_hit inp datasize dataout0).

Lemma enc_word_guard i j st :
  0 <= i → 0 <= j → inv i j st → e_cnt st < N →
  match enc_word bits true inp datasize st j with
  | Next st' => inv i (j + 1) st'
  | Break _ => False
  | Return st' => hit st'
  end.
Proof using All.
  intros Hi Hj (Hc & Hcr & Hp & Hpd & Hfr & Hl) Hlt.
  pose proof (ZEFacts.dense_take_step inp (e_cnt st) ltac:(fold N; lia)) as Hstep.
  pose proof (ZEFacts.dense_length_le (take (Z.to_nat (e_cnt st)) inp)) as Hdl.
  rewrite length_take in Hdl.
  assert (e_cnt st +! 1 = e_cnt st + 1) as Ec by (int_simpl; reflexivity).
  unfold enc_word. cbn [e_pos e_cnt e_bm e_dataout e_bmout e_bmlog andb].
  destruct (Z.eqb_spec (rd inp (e_cnt st)) 0) as [Ez|Ez].
  - unfold guard_inv. cbn [e_pos e_cnt e_dataout]. rewrite Ec, Hstep.
    unfold nonzero. rewrite Ez. cbn [Z.eqb negb]. rewrite app_nil_r.
    repeat split; try assumption; lia.
  - assert (nonzero (rd inp (e_cnt st)) = true) as Hnz
      by (unfold nonzero; destruct (Z.eqb_spec (rd inp (e_cnt st)) 0);
          [contradiction|reflexivity]).
    destruct (Z.leb_spec datasize (e_pos st)) as [Hfull|Hroom].
    + unfold guard_hit. cbn [e_dataout]. split; [|split; assumption].
      pose proof (ZEFacts.dense_take_lt inp (e_cnt st) ltac:(fold N; lia) Hnz).
      lia.
    + unfold guard_inv. cbn [e_pos e_cnt e_dataout]. rewrite Ec, Hstep, Hnz.
      assert (e_pos st +! 1 = e_pos st + 1) as -> by (int_simpl; reflexivity).
      rewrite length_app, wr_length. cbn [length].
      repeat split; try assumption; try lia.
      intros k Hk. rewrite rd_wr_other by lia. apply Hfr, Hk.
Qed.

(** The state after the last word: every nonzero word is in the dense
    stream, within [datasize]. *)
Let done (st : enc_state) : Prop :=
  e_pos st = Z.of_nat (length (dense inp)) ∧
  e_pos st <= datasize ∧
  (∀ k, datasize <= k → rd (e_dataout st) k = rd dataout0 k) ∧
  length (e_dataout st) = length dataout0.

Lemma inv_done i j st : inv i j st → N <= e_cnt st → done st.
Proof using Type.
  intros (Hc & Hcr & Hp & Hpd & Hfr & Hl) Hge. fold N in Hcr.
  assert (e_cnt st = N) as E by lia.
  rewrite E in Hp. unfold N in Hp. rewrite Nat2Z.id, firstn_all in Hp.
  repeat split; assumption.
Qed.

Lemma enc_group_guard_full i st :
  0 <= i → (i + 1) * bits <= N → inv i 0 st →
  match enc_group bits (enc_word bits true inp datasize) st i with
  | Next st' => inv (i + 1) 0 st'
  | Break _ => False
  | Return st' => hit st'
  end.
Proof using All.
  intros Hi Hfull Hinv. unfold enc_group.
  pose proof (for_loop_rule3 (enc_word bits true inp datasize)
                (inv i) (inv i bits) hit 0 bits) as Hloop.
  assert (∀ j s, 0 <= j < bits → inv i j s →
            match enc_word bits true inp datasize s j with
            | Next s' => inv i (j + 1) s'
            | Break s' => inv i bits s'
            | Return s' => hit s'
            end) as Hstep.
  { intros j s Hj Hs.
    pose proof (enc_word_guard i j s Hi ltac:(lia) Hs
                  ltac:(destruct Hs as (Hc & _); nia)) as H.
    destruct (enc_word bits true inp datasize s j); [exact H|contradiction|exact H]. }
  specialize (Hloop Hstep
    ltac:(intros s; rewrite Z.max_r by lia; auto)
    (EncState (e_pos st) (e_cnt st) 0 (e_dataout st) (e_bmout st) (e_bmlog st))
    Hinv).
  destruct (for_loop _ _ _) as [s'|s'|s']; [|exact Hloop|exact Hloop].
  destruct Hloop as (Hc & Hrest). unfold guard_inv.
  cbn [e_pos e_cnt e_dataout]. split; [lia|exact Hrest].
Qed.

Lemma enc_group_guard_last st :
  inv (num - 1) 0 st →
  match enc_group bits (enc_word_last bits true inp N datasize) st (num - 1) with
  | Next st' => done st'
  | Break _ => False
  | Return st' => hit st'
  end.
Proof using All.
  intros Hinv.
  pose proof (ZEFacts.num_bounds_gen bits N Hbits HN) as (Hn1 & Hn2 & Hn3).
  fold num in Hn1, Hn2, Hn3.
  unfold enc_group.
  pose proof (for_loop_rule3 (enc_word_last bits true inp N datasize)
                (inv (num - 1)) done hit 0 bits) as Hloop.
  assert (∀ j s, 0 <= j < bits → inv (num - 1) j s →
            match enc_word_last bits true inp N datasize s j with
            | Next s' => inv (num - 1) (j + 1) s'
            | Break s' => done s'
            | Return s' => hit s'
            end) as Hstep.
  { intros j s Hj Hs. unfold enc_word_last.
    destruct (Z.leb_spec N (e_cnt s)) as [Hge|Hlt].
    - apply (inv_done (num - 1) j); assumption.
    - pose proof (enc_word_guard (num - 1) j s ltac:(lia) ltac:(lia) Hs Hlt) as H.
      destruct (enc_word bits true inp datasize s j);
        [exact H|contradiction|exact H]. }
  assert (∀ s, inv (num - 1) (Z.max 0 bits) s → done s) as Hend.
  { intros s. rewrite Z.max_r by lia. intros Hs.
    apply (inv_done (num - 1) bits); [exact Hs|].
    destruct Hs as (Hc & _). lia. }
  specialize (Hloop Hstep Hend
    (EncState (e_pos st) (e_cnt st) 0 (e_dataout st) (e_bmout st) (e_bmlog st))
    Hinv).
  destruct (for_loop _ _ _) as [s'|s'|s']; [|exact Hloop|exact Hloop].
  exact Hloop.
Qed.

Lemma encode_run_guard :
  match encode_run bits true inp N datasize dataout0 bmout0 with
  | Next st' => done st'
  | Break _ => False
  | Return st' => hit st'
  end.
Proof using All.
  pose proof (ZEFacts.num_bounds_gen bits N Hbits HN) as (Hn1 & Hn2 & Hn3).
  fold num in Hn1, Hn2, Hn3.
  unfold encode_run.
  rewrite (ZEFacts.num_int_gen bits N Hbits ltac:(lia) Hfit). fold num.
  replace (num -! 1) with (num - 1) by (int_simpl; reflexivity).
  pose proof (for_loop_rule3 (enc_group bits (enc_word bits true inp datasize))
                (λ i s, inv i 0 s) (inv (num - 1) 0) hit 0 (num - 1)) as Hloop.
  assert (∀ i s, 0 <= i < num - 1 → inv i 0 s →
            match enc_group bits (enc_word bits true inp datasize) s i with
            | Next s' => inv (i + 1) 0 s'
            | Break s' => inv (num - 1) 0 s'
            | Return s' => hit s'
            end) as Hstep.
  { intros i s Hi Hs.
    pose proof (enc_group_guard_full i s ltac:(lia) ltac:(nia) Hs) as H.
    destruct (enc_group _ _ s i); [exact H|contradiction|exact H]. }
  specialize (Hloop Hstep
    ltac:(intros s; rewrite Z.max_r by lia; auto)
    (EncState 0 0 0 dataout0 bmout0 [])).
  assert (inv 0 0 (EncState 0 0 0 dataout0 bmout0 [])) as H0.
  { unfold guard_inv. cbn. fold N. repeat split; try reflexivity; lia. }
  specialize (Hloop H0).
  destruct (for_loop _ _ _) as [s'|s'|s']; [|exact Hloop|exact Hloop].
  apply enc_group_guard_last, Hloop.
Qed.

(** Where the checked encoder does not leave by [return false], it does
    what the unchecked one does. *)
Lemma enc_word_sim st j :
  (∃ st', enc_word bits true inp datasize st j = Return st')
  ∨ enc_word bits true inp datasize st j = enc_word bits false inp datasize st j.
Proof using Type.
  unfold enc_word. cbn [andb].
  destruct (rd inp (e_cnt st) =? 0); [right; reflexivity|].
  destruct (_ <=? _); [left; eexists; reflexivity|right; reflexivity].
Qed.

Lemma enc_group_sim b1 b2 st i :
  (∀ s j, (∃ s', b1 s j = Return s') ∨ b1 s j = b2 s j) →
  (∃ st', enc_group bits b1 st i = Return st')
  ∨ enc_group bits b1 st i = enc_group bits b2 st i.
Proof using Type.
  intros H. unfold enc_group.
  destruct (for_loop_sim b1 b2 (range 0 bits) H
              (EncState (e_pos st) (e_cnt st) 0 (e_dataout st) (e_bmout st)
                        (e_bmlog st))) as [[s' E]|E].
  - left. exists s'. rewrite E. reflexivity.
  - right. rewrite E. reflexivity.
Qed.

Lemma encode_run_sim :
  (∃ st', encode_run bits true inp N datasize dataout0 bmout0 = Return st')
  ∨ encode_run bits true inp N datasize dataout0 bmout0
    = encode_run bits false inp N datasize dataout0 bmout0.
Proof using Type.
  unfold encode_run.
  destruct (for_loop_sim (enc_group bits (enc_word bits true inp datasize))
              (enc_group bits (enc_word bits false inp datasize))
              (range 0 (Int.div (N +! bits -! 1) bits -! 1))
              (λ s i, enc_group_sim _ _ s i enc_word_sim)
              (EncState 0 0 0 dataout0 bmout0 [])) as [[s' E]|E].
  - left. exists s'. rewrite E. reflexivity.
  - rewrite <- E.
    destruct (for_loop _ _ _) as [s'|s'|s'];
      [|right; reflexivity|left; eexists; reflexivity].
    apply enc_group_sim. intros s j. unfold enc_word_last.
    destruct (N <=? e_cnt s); [right; reflexivity|apply enc_word_sim].
Qed.

End Checked.

End ZEGuard.

(** X13.  [h_ZEencode] with [check = true], on a non-empty input and a
    capacity [datasize >= 0]: it returns [true] exactly when the nonzero
    words of the input are at most [datasize]; it then reports their number
    and has done what the unchecked function does.  Otherwise it returns
    [false] and leaves [datasize] as it was.  In both cases [dataout] is not
    written at index [datasize] or beyond. *)
Theorem ZE_check_guards bits inp datasize dataout bmout :
  let N := Z.of_nat (length inp) in
  let count := Z.of_nat (length (ZE.dense inp)) in
  0 < bits → 1 <= N → N + bits < 2 ^ 31 → 0 <= datasize < 2 ^ 31 →
  let '(ok, d, n, bm) := ZE.h_ZEencode bits true inp N datasize dataout bmout in
  (ok = true ↔ count <= datasize)
  ∧ (ok = true →
     n = count
     ∧ ZE.h_ZEencode bits false inp N datasize dataout bmout = (ok, d, n, bm))
  ∧ (ok = false → n = datasize)
  ∧ (∀ k, datasize <= k → rd d k = rd dataout k)
  ∧ length d = length dataout.
Proof.
  intros N count Hbits HN Hfit Hsize.
  pose proof (ZEGuard.encode_run_guard bits inp datasize dataout bmout
                Hbits HN Hfit Hsize) as Hg.
  pose proof (ZEGuard.encode_run_sim bits inp datasize dataout bmout) as Hsim.
  fold N in Hg, Hsim. unfold ZE.h_ZEencode.
  destruct (ZE.encode_run bits true inp N datasize dataout bmout)
    as [st|st|st] eqn:Erun; [|contradiction|].
  - destruct Hg as (Hp & Hpd & Hfr & Hl). fold count in Hp.
    split; [split; [intros _; lia|reflexivity]|].
    split.
    + intros _. split; [exact Hp|].
      destruct Hsim as [[s' E]|E]; [discriminate|]. rewrite <- E. reflexivity.
    + split; [discriminate|]. split; assumption.
  - destruct Hg as (Hlt & Hfr & Hl). fold count in Hlt.
    split; [split; [discriminate|lia]|].
    split; [discriminate|]. split; [reflexivity|]. split; assumption.
Qed.

Lemma ZE_check_guards_witness :
  let '(ok, d, n, bm) :=
    ZE.h_ZEencode 8 true [0;5;0;0;7;0;0;0;3] 9 2 [9;9;9] [9;9] in
  (ok = true ↔ 3 <= 2)
  ∧ (ok = true →
     n = 3
     ∧ ZE.h_ZEencode 8 false [0;5;0;0;7;0;0;0;3] 9 2 [9;9;9] [9;9]
       = (ok, d, n, bm))
  ∧ (ok = false → n = 2)
  ∧ (∀ k, 2 <= k → rd d k = rd [9;9;9] k)
  ∧ length d = length [9;9;9].
Proof.
  apply (ZE_check_guards 8 [0;5;0;0;7;0;0;0;3] 2 [9;9;9] [9;9]); by_compute.
Defined.

(** ** Zero elimination: what the decoder does with any stream *)

Lemma rank_step bits bm k :
  0 <= k →
  rank bits bm (k + 1) = rank bits bm k + (if bit_at bits bm k then 1 else 0).
Proof.
  intros Hk. unfold rank. rewrite range_snoc by lia.
  rewrite List.filter_app, length_app. cbn [List.filter].
  destruct (bit_at bits bm k); cbn [length]; lia.
Qed.

Lemma rank_bounds bits bm k : 0 <= k → 0 <= rank bits bm k <= k.
Proof.
  intros Hk. unfold rank.
  pose proof (List.filter_length_le (bit_at bits bm) (range 0 k)) as H.
  unfold range in *. rewrite length_seqZ in H. lia.
Qed.

Lemma bit_at_word bits bm i j :
  0 <= j < bits → bit_at bits bm (i * bits + j) = Z.testbit (rd bm i) j.
Proof.
  intros Hj. unfold bit_at.
  replace ((i * bits + j) / bits) with i
    by (apply Z.div_unique_pos with (r := j); lia).
  replace ((i * bits + j) mod bits) with j
    by (apply Z.mod_unique_pos with (q := i); lia).
  reflexivity.
Qed.

Module ZEUnpack.
Import ZE.

Section Unpack.

Variable bits : Z.
Variable N : Z.
Variables datain bmin out0 : list Z.

Let num : Z := (N + bits - 1) / bits.

Hypothesis Hbits : 0 < bits.
Hypothesis HN : 1 <= N.
Hypothesis Hfit : N + bits < 2 ^ 31.
Hypothesis Hout : N <= Z.of_nat (length out0).

Local Abbreviation inv := (unpack_inv bits N datain bmin out0).

Lemma dec_word_unpack i j st :
  0 <= i → 0 <= j < bits → inv i j st → d_cnt st < N →
  inv i (j + 1) (dec_word datain (rd bmin i) st j).
Proof using All.
  intros Hi Hj (Hc & Hcr & Hp & Hl & Hw & Hf) Hlt.
  pose proof (rank_bounds bits bmin (d_cnt st) ltac:(lia)) as Hr.
  pose proof (rank_step bits bmin (d_cnt st) ltac:(lia)) as Hs.
  assert (bit_at bits bmin (d_cnt st) = Z.testbit (rd bmin i) j) as Hb
    by (rewrite Hc; apply bit_at_word, Hj).
  assert (d_cnt st +! 1 = d_cnt st + 1) as Ec by (int_simpl; reflexivity).
  unfold dec_word. rewrite ZEFacts.land_1_testbit by lia. rewrite <- Hb.
  destruct (bit_at bits bmin (d_cnt st)) eqn:Hbit; cbn [negb];
    unfold unpack_inv; cbn [d_pos d_cnt d_out]; rewrite Ec, Hs, wr_length.
  - assert (d_pos st +! 1 = d_pos st + 1) as -> by (int_simpl; reflexivity).
    repeat split; try lia.
    + intros k Hk. destruct (Z.eq_dec k (d_cnt st)) as [->|Hne].
      * rewrite rd_wr_same by lia. rewrite Hbit, Hp. reflexivity.
      * rewrite rd_wr_other by lia. apply Hw. lia.
    + intros k Hk. rewrite rd_wr_other by lia. apply Hf. lia.
  - repeat split; try lia.
    + intros k Hk. destruct (Z.eq_dec k (d_cnt st)) as [->|Hne].
      * rewrite rd_wr_same by lia. rewrite Hbit. reflexivity.
      * rewrite rd_wr_other by lia. apply Hw. lia.
    + intros k Hk. rewrite rd_wr_other by lia. apply Hf. lia.
Qed.

Lemma inv_log i j st l :
  inv i j st → inv i j (DecState (d_pos st) (d_cnt st) (d_out st) l).
Proof using Type. intros H. exact H. Qed.

Lemma dec_group_unpack i st :
  0 <= i < num - 1 → inv i 0 st →
  ∃ st', dec_group bits bmin (dec_body datain) st i = Next st'
         ∧ inv (i + 1) 0 st'.
Proof using All.
  intros Hi Hinv.
  pose proof (ZEFacts.num_bounds_gen bits N Hbits HN) as (Hn1 & Hn2 & Hn3).
  fold num in Hn1, Hn2, Hn3.
  unfold dec_group.
  destruct (for_loop_rule (dec_body datain (rd bmin i))
              (inv i) (inv (i + 1) 0) 0 bits)
    with (s := DecState (d_pos st) (d_cnt st) (d_out st) (d_bmlog st ++ [i]))
    as (st1 & -> & H1).
  - intros j s Hj Hs. unfold dec_body.
    apply dec_word_unpack; [lia|lia|exact Hs|].
    destruct Hs as (Hc & _). nia.
  - intros s. rewrite Z.max_r by lia. intros (Hc & Hrest).
    split; [lia|exact Hrest].
  - apply inv_log, Hinv.
  - exists st1. split; [reflexivity|exact H1].
Qed.

Lemma dec_last_unpack st :
  inv (num - 1) 0 st →
  ∃ st' j, dec_group bits bmin (dec_body_last N datain) st (num - 1) = Next st'
           ∧ d_cnt st' = N ∧ inv (num - 1) j st'.
Proof using All.
  intros Hinv.
  pose proof (ZEFacts.num_bounds_gen bits N Hbits HN) as (Hn1 & Hn2 & Hn3).
  fold num in Hn1, Hn2, Hn3.
  unfold dec_group.
  destruct (for_loop_rule (dec_body_last N datain (rd bmin (num - 1)))
              (λ j s, inv (num - 1) j s ∧ d_cnt s < N)
              (λ s, d_cnt s = N ∧ ∃ j, inv (num - 1) j s) 0 bits)
    with (s := DecState (d_pos st) (d_cnt st) (d_out st)
                        (d_bmlog st ++ [num - 1]))
    as (st1 & -> & Hc1 & j & H1).
  - intros j s Hj (Hs & Hlt). unfold dec_body_last.
    pose proof (dec_word_unpack (num - 1) j s ltac:(lia) Hj Hs Hlt) as Hs'.
    destruct (Z.leb_spec N (d_cnt (dec_word datain (rd bmin (num - 1)) s j))).
    + split; [|exists (j + 1); exact Hs']. destruct Hs' as (_ & Hcr & _). lia.
    + split; [exact Hs'|lia].
  - intros s. rewrite Z.max_r by lia. intros ((Hc & _) & Hlt). nia.
  - split; [apply inv_log, Hinv|]. destruct Hinv as (Hc & _).
    cbn [d_cnt]. lia.
  - exists st1, j. auto.
Qed.

Lemma decode_run_unpack :
  ∃ j, d_cnt (decode_run bits N datain bmin out0) = N
       ∧ inv (num - 1) j (decode_run bits N datain bmin out0).
Proof using All.
  pose proof (ZEFacts.num_bounds_gen bits N Hbits HN) as (Hn1 & Hn2 & Hn3).
  fold num in Hn1, Hn2, Hn3.
  unfold decode_run.
  rewrite (ZEFacts.num_int_gen bits N Hbits ltac:(lia) Hfit). fold num.
  replace (num -! 1) with (num - 1) by (int_simpl; reflexivity).
  destruct (for_loop_rule (dec_group bits bmin (dec_body datain))
              (λ i s, inv i 0 s) (λ s, inv (num - 1) 0 s) 0 (num - 1))
    with (s := DecState 0 0 out0 []) as (st1 & -> & H1).
  - intros i s Hi Hs.
    destruct (dec_group_unpack i s Hi Hs) as (s' & -> & Hs'). exact Hs'.
  - intros s. rewrite Z.max_r by lia. auto.
  - unfold unpack_inv. cbn [d_pos d_cnt d_out].
    repeat split; try reflexivity; try lia.
  - destruct (dec_last_unpack st1 H1) as (st2 & j & -> & Hc & Hinv).
    exists j. auto.
Qed.

End Unpack.

End ZEUnpack.

(** X14.  [h_ZEdecode] on any dense stream and bitmap, asked for
    [N >= 1] words: word [k < N] of the output is 0 where bit [k] of the
    bitmap is clear and otherwise the dense word whose index is the number
    of set bits below [k]; the output is not written from index [N] on; and
    the function reads as many dense words as the first [N] bits of the
    bitmap have set. *)
Theorem ZE_decode_unpacks bits N datain bmin out :
  0 < bits → 1 <= N → N + bits < 2 ^ 31 → N <= Z.of_nat (length out) →
  let r := ZE.h_ZEdecode bits N datain bmin out in
  length r = length out
  ∧ (∀ k, 0 <= k < N →
       rd r k = if bit_at bits bmin k then rd datain (rank bits bmin k) else 0)
  ∧ (∀ k, N <= k → rd r k = rd out k)
  ∧ ZE.d_pos (ZE.decode_run bits N datain bmin out) = rank bits bmin N
  ∧ ZE.d_cnt (ZE.decode_run bits N datain bmin out) = N.
Proof.
  intros Hbits HN Hfit Hout r.
  destruct (ZEUnpack.decode_run_unpack bits N datain bmin out Hbits HN Hfit Hout)
    as (j & Hc & (_ & _ & Hp & Hl & Hw & Hf)).
  rewrite Hc in Hp, Hw, Hf. unfold r, ZE.h_ZEdecode.
  repeat split; assumption.
Qed.

Lemma ZE_decode_unpacks_witness :
  let r := ZE.h_ZEdecode 8 9 [5;7;3] [0x12; 0x01] (replicate 10 1) in
  length r = length (replicate 10 1)
  ∧ (∀ k, 0 <= k < 9 →
       rd r k = if bit_at 8 [0x12; 0x01] k
                then rd [5;7;3] (rank 8 [0x12; 0x01] k) else 0)
  ∧ (∀ k, 9 <= k → rd r k = rd (replicate 10 1) k)
  ∧ ZE.d_pos (ZE.decode_run 8 9 [5;7;3] [0x12; 0x01] (replicate 10 1))
    = rank 8 [0x12; 0x01] 9
  ∧ ZE.d_cnt (ZE.decode_run 8 9 [5;7;3] [0x12; 0x01] (replicate 10 1)) = 9.
Proof.
  apply (ZE_decode_unpacks 8 9 [5;7;3] [0x12; 0x01] (replicate 10 1));
    by_compute.
Defined.

(** ** Zero elimination: encoding what was decoded *)

Lemma rank_mono bits bm a b : 0 <= a <= b → rank bits bm a <= rank bits bm b.
Proof.
  intros [Ha Hab]. replace b with (a + (b - a)) by lia.
  assert (0 <= b - a) as Hn by lia. revert Hn.
  generalize (b - a). intros n Hn. pattern n.
  apply natlike_ind; [rewrite Z.add_0_r; lia| |exact Hn].
  intros x Hx IH. replace (a + Z.succ x) with (a + x + 1) by lia.
  rewrite rank_step by lia. destruct (bit_at bits bm (a + x)); lia.
Qed.

Section Reencode.

Variable bits : Z.
Variable N : Z.
Variables datain bmin out : list Z.

Let num : Z := (N + bits - 1) / bits.
Let r := ZE.h_ZEdecode bits N datain bmin out.
Let inp := take (Z.to_nat N) r.

Hypothesis Hbits : 0 < bits.
Hypothesis HN : 1 <= N.
Hypothesis Hfit : N + bits < 2 ^ 31.
Hypothesis Hout : N <= Z.of_nat (length out).
Hypothesis Hlen : rank bits bmin N <= Z.of_nat (length datain).
Hypothesis Hnz : ∀ k, 0 <= k < rank bits bmin N → rd datain k ≠ 0.

Lemma inp_length : Z.of_nat (length inp) = N.
Proof using All.
  destruct (ZE_decode_unpacks bits N datain bmin out Hbits HN Hfit Hout)
    as (Hl & _).
  unfold inp. rewrite length_take. fold r in Hl. lia.
Qed.

Lemma inp_rd k :
  0 <= k < N →
  rd inp k = if bit_at bits bmin k then rd datain (rank bits bmin k) else 0.
Proof using All.
  intros Hk.
  destruct (ZE_decode_unpacks bits N datain bmin out Hbits HN Hfit Hout)
    as (_ & Hw & _).
  unfold inp. rewrite rd_take by lia. apply Hw, Hk.
Qed.

Lemma inp_nonzero k :
  0 <= k < N → ZE.nonzero (rd inp k) = bit_at bits bmin k.
Proof using All.
  intros Hk. rewrite inp_rd by exact Hk. unfold ZE.nonzero.
  pose proof (rank_step bits bmin k ltac:(lia)) as Hs.
  pose proof (rank_mono bits bmin (k + 1) N ltac:(lia)) as Hm.
  pose proof (rank_bounds bits bmin k ltac:(lia)) as Hb.
  destruct (bit_at bits bmin k); [|reflexivity].
  destruct (Z.eqb_spec (rd datain (rank bits bmin k)) 0) as [E|E];
    [|reflexivity].
  exfalso. apply (Hnz (rank bits bmin k)); [lia|exact E].
Qed.

Lemma inp_dense c :
  0 <= c <= N →
  ZE.dense (take (Z.to_nat c) inp)
  = take (Z.to_nat (rank bits bmin c)) datain.
Proof using All.
  intros [Hc0 HcN]. revert HcN. pattern c.
  apply natlike_ind; [| |exact Hc0].
  - intros _. reflexivity.
  - intros x Hx IH HxN. replace (Z.succ x) with (x + 1) by lia.
    rewrite ZEFacts.dense_take_step by (rewrite inp_length; lia).
    rewrite IH by lia. rewrite inp_nonzero by lia.
    rewrite rank_step by lia.
    pose proof (rank_bounds bits bmin x Hx) as Hb.
    pose proof (rank_mono bits bmin (x + 1) N ltac:(lia)) as Hm.
    rewrite rank_step in Hm by lia.
    destruct (bit_at bits bmin x) eqn:Hbit.
    + rewrite inp_rd, Hbit by lia.
      replace (Z.to_nat (rank bits bmin x + 1))
        with (S (Z.to_nat (rank bits bmin x))) by lia.
      symmetry. apply take_S_r, lookup_rd. lia.
    + rewrite app_nil_r. f_equal. lia.
Qed.

End Reencode.

(** X15.  Encoding what [h_ZEdecode] produced gives the stream back.  When
    the dense words the bitmap asks for are nonzero and the bitmap has no
    bit set from position [N] on, [h_ZEencode] on the [N] decoded words
    reports as many dense words as the bitmap has bits set, these are the
    dense words the decoder read, and its bitmap has the bits of the
    decoder's. *)
Theorem ZE_reencode bits check N datain bmin out datasize dataout bmout :
  let num := (N + bits - 1) / bits in
  let n := rank bits bmin N in
  let inp := take (Z.to_nat N) (ZE.h_ZEdecode bits N datain bmin out) in
  0 < bits → 1 <= N → N + bits < 2 ^ 31 → N <= Z.of_nat (length out) →
  n <= Z.of_nat (length datain) →
  (∀ k, 0 <= k < n → rd datain k ≠ 0) →
  (∀ k, N <= k < num * bits → bit_at bits bmin k = false) →
  n <= Z.of_nat (length dataout) →
  (check = true → n <= datasize) →
  num <= Z.of_nat (length bmout) →
  ∃ d bm,
    ZE.h_ZEencode bits check inp N datasize dataout bmout = (true, d, n, bm)
    ∧ take (Z.to_nat n) d = take (Z.to_nat n) datain
    ∧ (∀ i j, 0 <= i < num → 0 <= j < bits →
         Z.testbit (rd bm i) j = Z.testbit (rd bmin i) j).
Proof.
  intros num n inp Hbits HN Hfit Hout Hlen Hnz Htail Hcap Hchk Hbm.
  assert (Z.of_nat (length inp) = N) as HlN
    by apply (inp_length bits N datain bmin out Hbits HN Hfit Hout Hlen Hnz).
  assert (ZE.dense (take (Z.to_nat N) inp) = take (Z.to_nat n) datain) as Hd
    by (apply (inp_dense bits N datain bmin out Hbits HN Hfit Hout Hlen Hnz N);
        lia).
  assert (take (Z.to_nat N) inp = inp) as Et
    by (apply take_ge; lia).
  rewrite Et in Hd.
  pose proof (rank_bounds bits bmin N ltac:(lia)) as Hrb. fold n in Hrb.
  assert (Z.of_nat (length (ZE.dense inp)) = n) as Hcount.
  { rewrite Hd, length_take. lia. }
  destruct (ZEFacts.encode_run_spec bits check inp datasize dataout bmout)
    as (st & Hrun & Hp & Ht & Hld & Hlb & Hb & Hlog);
    try (rewrite HlN); try assumption; try lia.
  { intros Hc. rewrite Hcount. apply Hchk, Hc. }
  rewrite HlN in Hrun, Hb. fold num in Hb.
  exists (ZE.e_dataout st), (ZE.e_bmout st).
  unfold ZE.h_ZEencode. rewrite Hrun.
  rewrite Hp, Hcount in *. split; [reflexivity|]. split; [rewrite Ht; exact Hd|].
  intros i j Hi Hj. rewrite Hb by assumption.
  rewrite <- (bit_at_word bits bmin i j Hj).
  destruct (Z.ltb_spec (i * bits + j) N) as [Hlt|Hge]; cbn [andb].
  - apply (inp_nonzero bits N datain bmin out Hbits HN Hfit Hout Hlen Hnz).
    nia.
  - symmetry. apply Htail. nia.
Qed.

Lemma ZE_reencode_witness :
  let num := (9 + 8 - 1) / 8 in
  let n := rank 8 [0x12; 0x01] 9 in
  let inp :=
    take (Z.to_nat 9) (ZE.h_ZEdecode 8 9 [5;7;3] [0x12; 0x01] (replicate 9 1)) in
  ∃ d bm,
    ZE.h_ZEencode 8 true inp 9 3 [0;0;0;0] [0;0] = (true, d, n, bm)
    ∧ take (Z.to_nat n) d = take (Z.to_nat n) [5;7;3]
    ∧ (∀ i j, 0 <= i < num → 0 <= j < 8 →
         Z.testbit (rd bm i) j = Z.testbit (rd [0x12; 0x01] i) j).
Proof.
  apply (ZE_reencode 8 true 9 [5;7;3] [0x12; 0x01] (replicate 9 1) 3
           [0;0;0;0] [0;0]); try by_compute.
  - intros k Hk. change (rank 8 [18; 1] 9) with 3 in Hk.
    assert (k = 0 ∨ k = 1 ∨ k = 2) as [->|[->| ->]] by lia; discriminate.
  - intros k Hk. change ((9 + 8 - 1) / 8 * 8) with 16 in Hk.
    assert (k = 9 ∨ k = 10 ∨ k = 11 ∨ k = 12 ∨ k = 13 ∨ k = 14 ∨ k = 15)
      as [->|[->|[->|[->|[->|[->| ->]]]]]] by lia; reflexivity.
Defined.
